(** * chemcoord: bond detection, connectivity and build order of [Cartesian]

    A shallow embedding of [chemcoord/xyz_functions.py].  Coordinates, radii
    and overlaps are real numbers ([R]); atom keys are integers ([Z]); Python
    sets are [gset Z], dictionaries are [gmap]; a [pandas.DataFrame] is the
    list of its rows in index order.  Python exceptions are values of [exn],
    threaded through the [result] monad.  Where the rounding of binary64
    decides what the code returns, the computation is repeated on floats
    (module [Binary64]); where a division of zero by zero does, the value is
    a number or [nan] ([fval]). *)

From Stdlib Require Import Reals Lra Lia ZArith List Sorted.
From Stdlib Require PrimFloat FloatOps SpecFloat Uint63.
From stdpp Require Import base option list gmap sets strings.

(** ** Exceptions and the [result] monad *)

(** The Python exceptions the code can raise, and [OutOfFuel], which is not
    one of them: it marks a loop of the embedding cut off by its bound on the
    number of passes. *)
Inductive exn : Set :=
  | KeyError | IndexError | ValueError | TypeError | AssertionError
  | NameError | OutOfFuel.

Inductive result (A : Type) : Type :=
  | Ok (a : A)
  | Raise (e : exn).
Arguments Ok {A} a.
Arguments Raise {A} e.

#[global] Instance result_ret : MRet result := fun A a => Ok a.
#[global] Instance result_bind : MBind result := fun A B f m =>
  match m with Ok a => f a | Raise e => Raise e end.
#[global] Instance result_fmap : FMap result := fun A B f m =>
  match m with Ok a => Ok (f a) | Raise e => Raise e end.

Definition is_Ok {A} (m : result A) : Prop := exists a, m = Ok a.

(** [d[k]] on a dictionary: [KeyError] when the key is absent. *)
Definition getitem `{Countable K} {V} (d : gmap K V) (k : K) : result V :=
  match d !! k with Some v => Ok v | None => Raise KeyError end.

(** ** Python sets *)

(** The iteration order of a Python [set] depends on hashing and history;
    the embedding only assumes that it enumerates the elements once each. *)
Class SetOrder := {
  iter_order : gset Z -> list Z;
  iter_order_perm : forall s, iter_order s ≡ₚ elements s
}.

#[global] Program Instance elements_order : SetOrder := {| iter_order := elements |}.
Next Obligation. reflexivity. Qed.

Section PySet.
Context `{SetOrder}.

(** [my_set.pop()]: removes and returns an arbitrary element. *)
Definition set_pop (s : gset Z) : result (Z * gset Z) :=
  match iter_order s with
  | [] => Raise KeyError
  | x :: _ => Ok (x, s ∖ {[x]})
  end.

(** [my_set.add(x)] *)
Definition set_add (x : Z) (s : gset Z) : gset Z := s ∪ {[x]}.

(** [pick(my_set)]: the value returned and the set as the call leaves it. *)
Definition pick (my_set : gset Z) : result (Z * gset Z) :=
  '(x, my_set) ← set_pop my_set;
  let my_set := set_add x my_set in
  Ok (x, my_set).

Lemma elem_of_iter_order (s : gset Z) (x : Z) : x ∈ iter_order s <-> x ∈ s.
Proof. rewrite iter_order_perm. apply elem_of_elements. Qed.

Lemma NoDup_iter_order (s : gset Z) : NoDup (iter_order s).
Proof. rewrite iter_order_perm. apply NoDup_elements. Qed.

Lemma iter_order_nil (s : gset Z) : iter_order s = [] <-> s = ∅.
Proof.
  split.
  - intros E. apply set_eq. intros x. rewrite <- elem_of_iter_order, E. set_solver.
  - intros ->. apply Permutation_nil_r. rewrite iter_order_perm, elements_empty. done.
Qed.

(** C10: on a non-empty set [pick] returns a member and leaves the set
    with exactly the elements it had. *)
Theorem pick_member_and_frame (s : gset Z) :
  s <> ∅ -> exists x, pick s = Ok (x, s) /\ x ∈ s.
Proof.
  intros Hne. unfold pick, set_pop.
  destruct (iter_order s) as [|x l] eqn:E.
  - apply iter_order_nil in E. contradiction.
  - assert (Hx : x ∈ s) by (apply elem_of_iter_order; rewrite E; left).
    exists x. split; [|done]. cbn. f_equal. f_equal. unfold set_add.
    apply set_eq. intros y. rewrite elem_of_union, elem_of_difference, elem_of_singleton.
    destruct (decide (y = x)); subst; tauto.
Qed.

(** On the empty set the [pop] raises. *)
Lemma pick_empty : pick ∅ = Raise KeyError.
Proof.
  unfold pick, set_pop.
  replace (iter_order ∅) with (@nil Z); [done|].
  symmetry. by apply iter_order_nil.
Qed.
End PySet.

Lemma pick_member_and_frame_witness :
  ({[1%Z; 2%Z]} : gset Z) <> ∅ /\
  exists x, pick ({[1%Z; 2%Z]} : gset Z) = Ok (x, {[1%Z; 2%Z]}) /\ x ∈ ({[1%Z; 2%Z]} : gset Z).
Proof.
  assert (Hne : ({[1%Z; 2%Z]} : gset Z) <> ∅) by set_solver.
  split; [exact Hne|]. exact (pick_member_and_frame _ Hne).
Defined.

(** ** Comparisons of reals *)

#[global] Instance Rle_decision (a b : R) : Decision (a <= b)%R := Rle_dec a b.
#[global] Instance Rlt_decision (a b : R) : Decision (a < b)%R := Rlt_dec a b.
#[global] Instance Req_decision : EqDecision R := Req_dec_T.

(** ** Vectors of three reals ([numpy] arrays of shape [(3,)]) *)

Definition vec3 : Type := R * R * R.

Definition vsub (a b : vec3) : vec3 :=
  let '(ax, ay, az) := a in let '(bx, by_, bz) := b in
  (ax - bx, ay - by_, az - bz)%R.

Definition vadd (a b : vec3) : vec3 :=
  let '(ax, ay, az) := a in let '(bx, by_, bz) := b in
  (ax + bx, ay + by_, az + bz)%R.

Definition vscale (k : R) (a : vec3) : vec3 :=
  let '(ax, ay, az) := a in (k * ax, k * ay, k * az)%R.

(** [np.dot] and [np.cross] on 3-vectors, [np.linalg.norm]. *)
Definition dot (a b : vec3) : R :=
  let '(ax, ay, az) := a in let '(bx, by_, bz) := b in
  (ax * bx + ay * by_ + az * bz)%R.

Definition cross (a b : vec3) : vec3 :=
  let '(ax, ay, az) := a in let '(bx, by_, bz) := b in
  (ay * bz - az * by_, az * bx - ax * bz, ax * by_ - ay * bx)%R.

Definition norm (a : vec3) : R := sqrt (dot a a).

Lemma norm_vsub_sym (a b : vec3) : norm (vsub a b) = norm (vsub b a).
Proof.
  destruct a as [[ax ay] az], b as [[bx by_] bz]. unfold norm, vsub, dot.
  f_equal. ring.
Qed.

Lemma norm_nonneg (a : vec3) : (0 <= norm a)%R.
Proof. apply sqrt_pos. Qed.

Lemma norm_axis (a : R) : norm (a, 0, 0)%R = Rabs a.
Proof.
  unfold norm, dot.
  replace (a * a + 0 * 0 + 0 * 0)%R with (Rsqr a) by (unfold Rsqr; ring).
  apply sqrt_Rsqr_abs.
Qed.

(** ** Data frames *)

(** One row of [xyz_frame]: the columns ['atom'], ['x'], ['y'], ['z']. *)
Record atom_row : Type := { col_atom : string; col_x : R; col_y : R; col_z : R }.

(** A [pd.DataFrame]: its rows in index order, each with its label. *)
Abbreviation DataFrame := (list (Z * atom_row)).

Definition row_location (r : atom_row) : vec3 := (col_x r, col_y r, col_z r).

(** [frame.index] *)
Definition frame_index (frame : DataFrame) : list Z := frame.*1.

(** [frame.loc[k]] for one label: the row carrying it, [KeyError] if none. *)
Fixpoint frame_row (frame : DataFrame) (k : Z) : result atom_row :=
  match frame with
  | [] => Raise KeyError
  | (k', r) :: frame' => if decide (k' = k) then Ok r else frame_row frame' k
  end.

(** [mapM] in the [result] monad: a list comprehension whose body may raise. *)
Fixpoint traverse {A B} (f : A -> result B) (l : list A) : result (list B) :=
  match l with
  | [] => Ok []
  | a :: l' => b ← f a; bs ← traverse f l'; Ok (b :: bs)
  end.

(** [frame.loc[include, :]] *)
Definition frame_loc (frame : DataFrame) (include : list Z) : result DataFrame :=
  traverse (fun k => r ← frame_row frame k; Ok (k, r)) include.

(** A 2-dimensional [np.ndarray] of floats of shape [(n, n)], by its entries. *)
Definition ndarray : Type := nat -> nat -> R.

(** [constants.atom_properties[element]] *)
Record atom_property : Type := { valency : nat; bond_size : R; mass : R }.

(** An entry of [modified_properties]. *)
Record modified_property : Type := { mod_bond_size : R; mod_valency : nat }.

(** The object: [xyz_frame] and the private attribute [__bond_dic], absent
    until [get_bonds] sets it. *)
Record Cartesian : Type := {
  xyz_frame : DataFrame;
  __bond_dic : option (gmap Z (gset Z))
}.

(** [Cartesian(xyz_frame)] *)
Definition __init__ (xyz_frame : DataFrame) : Cartesian :=
  {| xyz_frame := xyz_frame; __bond_dic := None |}.

Definition n_atoms (self : Cartesian) : nat := length (xyz_frame self).

(** ** Sorting *)

(** [sort_values] of pandas sorts with quicksort by default, so the order of
    equal values is not fixed; the embedding assumes only that the result is a
    sorted rearrangement. *)
Definition value_order (ascending : bool) {A} (p q : A * R) : Prop :=
  if ascending then (p.2 <= q.2)%R else (q.2 <= p.2)%R.

Class Sorter := {
  sort_values : forall {A}, bool -> list (A * R) -> list (A * R);
  sort_values_perm : forall A asc (l : list (A * R)), sort_values asc l ≡ₚ l;
  sort_values_sorted : forall A asc (l : list (A * R)),
    StronglySorted (value_order asc) (sort_values asc l)
}.

Definition value_leb (ascending : bool) (a b : R) : bool :=
  if ascending then bool_decide (a <= b)%R else bool_decide (b <= a)%R.

Fixpoint insert_sorted {A} (asc : bool) (p : A * R) (l : list (A * R)) : list (A * R) :=
  match l with
  | [] => [p]
  | q :: l' => if value_leb asc p.2 q.2 then p :: q :: l' else q :: insert_sorted asc p l'
  end.

Fixpoint insertion_sort {A} (asc : bool) (l : list (A * R)) : list (A * R) :=
  match l with
  | [] => []
  | p :: l' => insert_sorted asc p (insertion_sort asc l')
  end.

Lemma value_leb_total (asc : bool) (a b : R) :
  value_leb asc a b = false -> value_leb asc b a = true.
Proof.
  unfold value_leb. destruct asc; intros E%bool_decide_eq_false;
    apply bool_decide_eq_true; lra.
Qed.

Lemma insert_sorted_perm {A} asc (p : A * R) l : insert_sorted asc p l ≡ₚ p :: l.
Proof.
  induction l as [|q l IH]; simpl; [done|].
  destruct (value_leb asc p.2 q.2); [done|].
  rewrite IH. apply Permutation_swap.
Qed.

Lemma insertion_sort_perm {A} asc (l : list (A * R)) : insertion_sort asc l ≡ₚ l.
Proof.
  induction l as [|p l IH]; simpl; [done|].
  by rewrite insert_sorted_perm, IH.
Qed.

Lemma value_order_leb {A} asc (p q : A * R) :
  value_order asc p q <-> value_leb asc p.2 q.2 = true.
Proof.
  unfold value_order, value_leb. destruct asc; by rewrite bool_decide_eq_true.
Qed.

Lemma value_order_trans {A} asc (p q r : A * R) :
  value_order asc p q -> value_order asc q r -> value_order asc p r.
Proof. unfold value_order. destruct asc; lra. Qed.

Lemma insert_sorted_sorted {A} asc (p : A * R) l :
  StronglySorted (value_order asc) l ->
  StronglySorted (value_order asc) (insert_sorted asc p l).
Proof.
  induction 1 as [|q l Hs IH Hall]; simpl.
  - repeat constructor.
  - destruct (value_leb asc p.2 q.2) eqn:E.
    + apply value_order_leb in E. constructor; [by constructor|].
      constructor; [done|].
      eapply Forall_impl; [exact Hall|]. intros r Hr.
      by eapply value_order_trans.
    + apply value_leb_total, value_order_leb in E.
      constructor; [done|].
      rewrite insert_sorted_perm. by constructor.
Qed.

Lemma insertion_sort_sorted {A} asc (l : list (A * R)) :
  StronglySorted (value_order asc) (insertion_sort asc l).
Proof.
  induction l as [|p l IH]; simpl; [constructor|].
  by apply insert_sorted_sorted.
Qed.

#[global] Instance insertion_sorter : Sorter := {|
  sort_values := @insertion_sort;
  sort_values_perm := @insertion_sort_perm;
  sort_values_sorted := @insertion_sort_sorted
|}.

(** ** Small helpers for loops, dictionaries and arrays *)

(** A [for] loop threading a value, whose body may raise. *)
Fixpoint foldlM {A B} (f : B -> A -> result B) (b : B) (l : list A) : result B :=
  match l with
  | [] => Ok b
  | a :: l' => b' ← f b a; foldlM f b' l'
  end.

(** [dict(zip(keys, values))]: of two pairs with one key the later one stays. *)
Definition dict_zip `{Countable K} {V} (keys : list K) (values : list V) : gmap K V :=
  list_to_map (reverse (zip keys values)).

(** [l[0]] and [l[-1]] on a sequence. *)
Definition first_item {A} (l : list A) : result A :=
  match head l with Some a => Ok a | None => Raise IndexError end.

Definition last_item {A} (l : list A) : result A :=
  match last l with Some a => Ok a | None => Raise IndexError end.

(** [np.fill_diagonal(a, v)] *)
Definition fill_diagonal (a : ndarray) (v : R) : ndarray :=
  fun i j => if decide (i = j) then v else a i j.

(** [a > 0] on an array. *)
Definition gt0 (a : ndarray) : nat -> nat -> bool :=
  fun i j => bool_decide (0 < a i j)%R.

(** [np.nonzero(b[i, :])[0]] for a boolean array of shape [(n, n)]. *)
Definition nonzero_row (b : nat -> nat -> bool) (n i : nat) : list nat :=
  filter (fun j => b i j) (seq 0 n).

(** [np.nonzero(b)] for shape [(n, n)]: the positions in row-major order. *)
Definition nonzero2 (b : nat -> nat -> bool) (n : nat) : list (nat * nat) :=
  i ← seq 0 n; (fun j => (i, j)) <$> nonzero_row b n i.

(** [np.nonzero(v)[0]] for a boolean vector. *)
Definition nonzero1 (v : list bool) : list nat :=
  filter (fun i => v !! i = Some true) (seq 0 (length v)).

(** [a[rows, cols] = v] for the two index shapes [get_bonds_local] uses
    (one row against a list of columns, and a list of rows against one
    column). *)
Definition set_entries (a : ndarray) (rows cols : list nat) (v : R) : ndarray :=
  fun i j => if bool_decide (i ∈ rows /\ j ∈ cols) then v else a i j.

(** [convert_to]: the two dictionaries between array positions and labels. *)
Record convert_to_t : Type := { cv_frame : gmap nat Z; cv_array : gmap Z nat }.

(** What an iteration over [index_of_cube] goes through: [xyz_frame.index]
    (a [pd.Index], in frame order) or a Python [set]. *)
Inductive index_like : Type :=
  | PdIndex (l : list Z)
  | PySet (s : gset Z).

Definition index_set (i : index_like) : gset Z :=
  match i with PdIndex l => list_to_set l | PySet s => s end.

Definition index_list `{SetOrder} (i : index_like) : list Z :=
  match i with PdIndex l => l | PySet s => iter_order s end.

Inductive axis : Set := ax_x | ax_y | ax_z.

Definition coordinates : list axis := [ax_x; ax_y; ax_z].

Definition axis_value (a : axis) (r : atom_row) : R :=
  match a with ax_x => col_x r | ax_y => col_y r | ax_z => col_z r end.

(** ** Bond detection *)

Section BondDetection.
Context `{SetOrder} `{Sorter}.

(** The table [constants.atom_properties]; the module [constants] is not part
    of the sources at hand, so the table is a parameter. *)
Variable atom_properties : gmap string atom_property.

(** [self.location(index)] for one label. *)
Definition location (self : Cartesian) (index : Z) : result vec3 :=
  row_location <$> frame_row (xyz_frame self) index.

Definition _give_distance_array (self : Cartesian) (include : list Z)
  : result (ndarray * convert_to_t) :=
  frame ← frame_loc (xyz_frame self) include;
  let convert_to :=
    {| cv_frame := map_seq 0 (frame_index frame);
       cv_array := dict_zip (frame_index frame) (seq 0 (length (frame_index frame))) |} in
  let location_array := row_location <$> frame.*2 in
  let C i j := vsub (nth i location_array (0, 0, 0)%R) (nth j location_array (0, 0, 0)%R) in
  let return_array i j := norm (C i j) in
  Ok (return_array, convert_to).

Definition _overlap (self : Cartesian) (bond_size_dic : gmap Z R) (include : option (list Z))
  : result (ndarray * convert_to_t) :=
  let include := default (frame_index (xyz_frame self)) include in
  bond_size_vector ← traverse (getitem bond_size_dic) include;
  let bond_size_array i j := (nth i bond_size_vector 0 + nth j bond_size_vector 0)%R in
  '(distance_array, convert_to) ← _give_distance_array self include;
  let overlap_array i j := (bond_size_array i j - distance_array i j)%R in
  Ok (overlap_array, convert_to).

Definition preparation_of_variables (self : Cartesian)
    (modified_properties : option (gmap Z modified_property))
  : result (gmap Z (gset Z) * gmap Z nat * gmap Z R) :=
  let index := frame_index (xyz_frame self) in
  let bond_dic := dict_zip index (replicate (n_atoms self) (∅ : gset Z)) in
  valencies ← traverse (fun index =>
      r ← frame_row (xyz_frame self) index;
      p ← getitem atom_properties (col_atom r); Ok (valency p)) index;
  let valency_dic := dict_zip index valencies in
  bond_sizes ← traverse (fun index =>
      r ← frame_row (xyz_frame self) index;
      p ← getitem atom_properties (col_atom r); Ok (bond_size p)) index;
  let bond_size_dic := dict_zip index bond_sizes in
  match modified_properties with
  | None => Ok (bond_dic, valency_dic, bond_size_dic)
  | Some modified_properties =>
      let '(valency_dic, bond_size_dic) :=
        map_fold (fun key p '(valency_dic, bond_size_dic) =>
                    (<[key := mod_valency p]> valency_dic,
                     <[key := mod_bond_size p]> bond_size_dic))
                 (valency_dic, bond_size_dic) modified_properties in
      Ok (bond_dic, valency_dic, bond_size_dic)
  end.

(** One pass of the loop over [indices_of_oversaturated_atoms]; the state is
    [(overlap_array, bin_overlap_array)]. *)
Definition cut_bonds (n : nat) (theoretical_valency : list nat)
    (st : ndarray * (nat -> nat -> bool)) (index : nat) : ndarray * (nat -> nat -> bool) :=
  let '(overlap_array, bin_overlap_array) := st in
  let atoms_bonded_to := nonzero_row bin_overlap_array n index in
  let temp_frame := (fun j => (j, overlap_array index j)) <$> atoms_bonded_to in
  let temp_frame := sort_values false temp_frame in
  let cut_bonds_to := (drop (nth index theoretical_valency 0%nat) temp_frame).*1 in
  let overlap_array := set_entries overlap_array [index] cut_bonds_to (-1) in
  let overlap_array := set_entries overlap_array cut_bonds_to [index] (-1) in
  (overlap_array, gt0 overlap_array).

Definition update_dic (convert_to : convert_to_t) (n : nat) (bond_dic : gmap Z (gset Z))
    (bin_overlap_array : nat -> nat -> bool) : result (gmap Z (gset Z)) :=
  let ab := nonzero2 bin_overlap_array n in
  a ← traverse (getitem (cv_frame convert_to)) ab.*1;
  b ← traverse (getitem (cv_frame convert_to)) ab.*2;
  foldlM (fun bond_dic '(index, b_row) =>
            s ← getitem bond_dic index;
            Ok (<[index := s ∪ {[b_row]}]> bond_dic))
         bond_dic (zip a b).

(** The warnings of [get_bonds_local] only print the oversaturated labels and
    are left out; [oversaturated_converted] is still computed, as in the
    source. *)
Definition get_bonds_local (self : Cartesian) (bond_dic : gmap Z (gset Z))
    (valency_dic : gmap Z nat) (bond_size_dic : gmap Z R) (use_valency : bool)
    (index_of_cube : list Z) : result (gmap Z (gset Z)) :=
  '(overlap_array, convert_to) ← _overlap self bond_size_dic (Some index_of_cube);
  let n := length index_of_cube in
  let overlap_array := fill_diagonal overlap_array (-1) in
  let bin_overlap_array := gt0 overlap_array in
  let actual_valency i := length (nonzero_row bin_overlap_array n i) in
  theoretical_valency ← traverse (getitem valency_dic) index_of_cube;
  let excess_valency i :=
    (Z.of_nat (actual_valency i) - Z.of_nat (nth i theoretical_valency 0%nat))%Z in
  let indices_of_oversaturated_atoms :=
    filter (fun i => (0 < excess_valency i)%Z) (seq 0 n) in
  oversaturated_converted ←
    traverse (getitem (cv_frame convert_to)) indices_of_oversaturated_atoms;
  let '(overlap_array, bin_overlap_array) :=
    if use_valency && bool_decide (0 < length indices_of_oversaturated_atoms)%nat
    then fold_left (cut_bonds n theoretical_valency) indices_of_oversaturated_atoms
                   (overlap_array, bin_overlap_array)
    else (overlap_array, bin_overlap_array) in
  update_dic convert_to n bond_dic bin_overlap_array.

(** [self.xyz_frame[axis].sort_values()]: labels with their coordinate. *)
Definition sorted_series (self : Cartesian) (a : axis) : list (Z * R) :=
  sort_values true ((fun kr => (kr.1, axis_value a kr.2)) <$> xyz_frame self).

(** [convert[axis]]: position in the sorted series to label. *)
Definition axis_convert (self : Cartesian) (a : axis) : gmap nat Z :=
  map_seq 0 (sorted_series self a).*1.

Definition sorted_arrays (self : Cartesian) (a : axis) : list R :=
  (sorted_series self a).*2.

(** The labels whose coordinate on [a] lies in [[lo, hi)]: the boolean
    vector over [sorted_arrays[axis]], its non-zero positions, and their
    conversion to labels. *)
Definition interval_labels (self : Cartesian) (a : axis) (lo hi : R) : result (gset Z) :=
  let bool_vec :=
    (fun v => bool_decide (lo <= v)%R && bool_decide (v < hi)%R) <$> sorted_arrays self a in
  let index := nonzero1 bool_vec in
  list_to_set <$> traverse (getitem (axis_convert self a)) index.

(** [np.ceil(extent / maximum_edge_length).astype(int)], by axis. *)
Definition partition_steps (self : Cartesian) (maximum_edge_length : R)
  : result ((axis -> R) * (axis -> R) * (axis -> Z)) :=
  x0 ← first_item (sorted_arrays self ax_x);
  y0 ← first_item (sorted_arrays self ax_y);
  z0 ← first_item (sorted_arrays self ax_z);
  let minimum a := (match a with ax_x => x0 | ax_y => y0 | ax_z => z0 end - 0.01)%R in
  x1 ← last_item (sorted_arrays self ax_x);
  y1 ← last_item (sorted_arrays self ax_y);
  z1 ← last_item (sorted_arrays self ax_z);
  let maximum a := (match a with ax_x => x1 | ax_y => y1 | ax_z => z1 end + 0.01)%R in
  let extent a := (maximum a - minimum a)%R in
  (* a division by zero gives infinities, whose conversion to [int] is a
     negative number that [np.empty] rejects below *)
  if decide (maximum_edge_length = 0%R) then Raise ValueError else
  let steps a := Zceil (extent a / maximum_edge_length) in
  Ok (minimum, extent, steps).

Definition cuboid_cell : Type := (nat * nat * nat) * (index_like * index_like).

(** [origin1D[axis][counter]]: the entry of [origin_array] on [axis] at
    [counter] steps along that axis and none along the others, where
    [origin_array[x, y, z] = minimum + cuboid_diagonal / 2
      + np.dot(np.diag([x, y, z]), cuboid_diagonal)]. *)
Definition origin1D (minimum cuboid_diagonal : axis -> R) (a : axis) (counter : nat) : R :=
  (minimum a + cuboid_diagonal a / 2 + INR counter * cuboid_diagonal a)%R.

(** [indices[axis]]: for every counter the pair [[index_small, index_big]]. *)
Definition axis_indices (self : Cartesian) (minimum edge_small edge_big : axis -> R)
    (a : axis) (n : nat) : result (list (gset Z * gset Z)) :=
  traverse (fun counter =>
    let intervall_small :=
      ((origin1D minimum edge_small a counter - edge_small a / 2)%R,
       (origin1D minimum edge_small a counter + edge_small a / 2)%R) in
    let intervall_big :=
      ((origin1D minimum edge_small a counter - edge_big a / 2)%R,
       (origin1D minimum edge_small a counter + edge_big a / 2)%R) in
    index_small ← interval_labels self a intervall_small.1 intervall_small.2;
    index_big ← interval_labels self a intervall_big.1 intervall_big.2;
    Ok (index_small, index_big)) (seq 0 n).

(** The final triple loop filling [cube_dic], in insertion order. *)
Definition cuboids (nx ny nz : nat) (indices_x indices_y indices_z : list (gset Z * gset Z))
  : list cuboid_cell :=
  x_counter ← seq 0 nx;
  y_counter ← seq 0 ny;
  z_counter ← seq 0 nz;
  let ix := nth x_counter indices_x (∅, ∅) in
  let iy := nth y_counter indices_y (∅, ∅) in
  let iz := nth z_counter indices_z (∅, ∅) in
  let small_cube_index := ix.1 ∩ iy.1 ∩ iz.1 in
  let big_cube_index := ix.2 ∩ iy.2 ∩ iz.2 in
  [((x_counter, y_counter, z_counter), (PySet small_cube_index, PySet big_cube_index))].

Definition _divide_et_impera (self : Cartesian) (maximum_edge_length difference_edge : R)
  : result (list cuboid_cell) :=
  '(minimum, extent, steps) ← partition_steps self maximum_edge_length;
  if decide (steps ax_x = 1%Z /\ steps ax_y = 1%Z /\ steps ax_z = 1%Z) then
    let small_cube_index := PdIndex (frame_index (xyz_frame self)) in
    let big_cube_index := small_cube_index in
    Ok [((0, 0, 0)%nat, (small_cube_index, big_cube_index))]
  else
    let cuboid_diagonal a := (extent a / IZR (steps a))%R in
    let edge_small a := cuboid_diagonal a in
    let edge_big a := (edge_small a + difference_edge)%R in
    (* [np.empty((steps['x'], steps['y'], steps['z'], 3))] *)
    if decide (steps ax_x < 0 \/ steps ax_y < 0 \/ steps ax_z < 0)%Z then Raise ValueError else
    let n a := Z.to_nat (steps a) in
    (* [origin_array[counter, 0, 0, 0]] and the like need every other axis
       to have a first entry *)
    if decide ((0 < n ax_x \/ 0 < n ax_y \/ 0 < n ax_z)
               /\ (n ax_x = 0 \/ n ax_y = 0 \/ n ax_z = 0))%nat then Raise IndexError else
    indices_x ← axis_indices self minimum edge_small edge_big ax_x (n ax_x);
    indices_y ← axis_indices self minimum edge_small edge_big ax_y (n ax_y);
    indices_z ← axis_indices self minimum edge_small edge_big ax_z (n ax_z);
    Ok (cuboids (n ax_x) (n ax_y) (n ax_z) indices_x indices_y indices_z).

Definition complete_calculation (self : Cartesian)
    (modified_properties : option (gmap Z modified_property))
    (maximum_edge_length difference_edge : R) (use_valency divide_et_impera : bool)
  : result (gmap Z (gset Z)) :=
  '(bond_dic, valency_dic, bond_size_dic) ← preparation_of_variables self modified_properties;
  if divide_et_impera then
    cuboid_dic ← _divide_et_impera self maximum_edge_length difference_edge;
    foldlM (fun bond_dic (cell : cuboid_cell) =>
              get_bonds_local self bond_dic valency_dic bond_size_dic use_valency
                (index_list cell.2.2))
           bond_dic cuboid_dic
  else
    get_bonds_local self bond_dic valency_dic bond_size_dic use_valency
      (frame_index (xyz_frame self)).

Definition set_bond_dic (self : Cartesian) (bond_dic : gmap Z (gset Z)) : Cartesian :=
  {| xyz_frame := xyz_frame self; __bond_dic := Some bond_dic |}.

(** [get_bonds]: the dictionary returned and the object as the call leaves
    it. *)
Definition get_bonds (self : Cartesian)
    (modified_properties : option (gmap Z modified_property))
    (maximum_edge_length difference_edge : R)
    (use_valency use_lookup set_lookup divide_et_impera : bool)
  : result (gmap Z (gset Z) * Cartesian) :=
  let compute :=
    bond_dic ← complete_calculation self modified_properties maximum_edge_length
                  difference_edge use_valency divide_et_impera;
    Ok (bond_dic, if set_lookup then set_bond_dic self bond_dic else self) in
  if use_lookup then
    match __bond_dic self with
    | Some bond_dic => Ok (bond_dic, self)
    | None => compute
    end
  else compute.

End BondDetection.

(** ** Reasoning about [result] computations *)

Lemma bind_Ok {A B} (m : result A) (f : A -> result B) (b : B) :
  m ≫= f = Ok b <-> exists a, m = Ok a /\ f a = Ok b.
Proof.
  destruct m as [a|e]; simpl; split.
  - intros E. by exists a.
  - by intros (a' & [= <-] & E).
  - discriminate.
  - by intros (a' & [=] & _).
Qed.

Lemma fmap_Ok {A B} (m : result A) (f : A -> B) (b : B) :
  f <$> m = Ok b <-> exists a, m = Ok a /\ b = f a.
Proof.
  destruct m as [a|e]; simpl; split.
  - intros [= <-]. by exists a.
  - by intros (a' & [= <-] & ->).
  - discriminate.
  - by intros (a' & [=] & _).
Qed.

Lemma bind_ret_r {A} (m : result A) : m ≫= Ok = m.
Proof. by destruct m. Qed.

Lemma getitem_Ok `{Countable K} {V} (d : gmap K V) (k : K) (v : V) :
  getitem d k = Ok v <-> d !! k = Some v.
Proof. unfold getitem. destruct (d !! k); split; congruence. Qed.

Ltac inv_result :=
  repeat match goal with
  | H : _ ≫= _ = Ok _ |- _ => apply bind_Ok in H; destruct H as (? & ? & H)
  | H : _ <$> _ = Ok _ |- _ => apply fmap_Ok in H; destruct H as (? & ? & H)
  | H : getitem _ _ = Ok _ |- _ => apply getitem_Ok in H
  | H : Ok _ = Ok _ |- _ => injection H as H
  | H : Raise _ = Ok _ |- _ => discriminate H
  | H : (let '(_, _) := ?p in _) = Ok _ |- _ => destruct p
  end.

Lemma traverse_Forall2 {A B} (f : A -> result B) (l : list A) (bs : list B) :
  traverse f l = Ok bs <-> Forall2 (fun a b => f a = Ok b) l bs.
Proof.
  revert bs. induction l as [|a l IH]; intros bs; simpl.
  - split; [intros [= <-]; constructor | by inversion 1].
  - rewrite bind_Ok. split.
    + intros (b & Hb & E). apply bind_Ok in E as (bs' & Hbs & [= <-]).
      constructor; [done|]. by apply IH.
    + inversion 1 as [|? b ? bs' Hb Hbs]; subst.
      exists b. split; [done|]. apply bind_Ok. exists bs'. split; [by apply IH|done].
Qed.

Lemma traverse_is_Ok {A B} (f : A -> result B) (l : list A) :
  (forall a, a ∈ l -> is_Ok (f a)) -> is_Ok (traverse f l).
Proof.
  induction l as [|a l IH]; intros Hl; simpl; [by eexists|].
  destruct (Hl a) as [b Hb]; [left|]. rewrite Hb. simpl.
  destruct IH as [bs Hbs]; [intros; apply Hl; by right|].
  rewrite Hbs. by eexists.
Qed.

Lemma traverse_Ok_fmap {A B} (f : A -> result B) (g : A -> B) (l : list A) :
  (forall a, a ∈ l -> f a = Ok (g a)) -> traverse f l = Ok (g <$> l).
Proof.
  intros Hl. apply traverse_Forall2. apply Forall2_fmap_r, Forall_Forall2_diag.
  by apply Forall_forall.
Qed.

Lemma traverse_length {A B} (f : A -> result B) (l : list A) (bs : list B) :
  traverse f l = Ok bs -> length bs = length l.
Proof. intros E%traverse_Forall2. symmetry. by eapply Forall2_length. Qed.

Lemma traverse_lookup {A B} (f : A -> result B) (l : list A) (bs : list B) i a :
  traverse f l = Ok bs -> l !! i = Some a -> exists b, bs !! i = Some b /\ f a = Ok b.
Proof.
  intros E%traverse_Forall2 Ha.
  destruct (Forall2_lookup_l _ _ _ _ _ E Ha) as (b & ? & ?). eauto.
Qed.

(** ** Data-frame lookups *)

Lemma frame_row_Ok (frame : DataFrame) (k : Z) (r : atom_row) :
  frame_row frame k = Ok r -> (k, r) ∈ frame.
Proof.
  induction frame as [|[k' r'] frame IH]; simpl; [discriminate|].
  case_decide; [intros [= <-]; subst; left | intros E; right; auto].
Qed.

Lemma frame_row_is_Ok (frame : DataFrame) (k : Z) :
  k ∈ frame_index frame -> is_Ok (frame_row frame k).
Proof.
  induction frame as [|[k' r'] frame IH]; simpl.
  - by intros ?%elem_of_nil.
  - intros Hk. case_decide; [by eexists|].
    apply IH. apply elem_of_cons in Hk as [?|?]; [congruence|done].
Qed.

Lemma frame_row_NoDup (frame : DataFrame) (k : Z) (r : atom_row) :
  NoDup (frame_index frame) -> (k, r) ∈ frame -> frame_row frame k = Ok r.
Proof.
  induction frame as [|[k' r'] frame IH]; simpl.
  - by intros _ ?%elem_of_nil.
  - intros [Hk' Hnd]%NoDup_cons [[= -> ->]|Hin]%elem_of_cons.
    + by rewrite decide_True.
    + rewrite decide_False; [auto|]. intros ->. apply Hk'.
      apply list_elem_of_fmap. by exists (k, r).
Qed.

Lemma frame_loc_index (frame : DataFrame) (include : list Z) (sub : DataFrame) :
  frame_loc frame include = Ok sub -> frame_index sub = include.
Proof.
  unfold frame_loc. revert sub. induction include as [|k l IH]; intros sub; simpl.
  - by intros [= <-].
  - intros E. inv_result. subst. simpl. f_equal. by apply IH.
Qed.

Lemma frame_loc_rows (frame : DataFrame) (include : list Z) (sub : DataFrame) i k :
  frame_loc frame include = Ok sub -> include !! i = Some k ->
  exists r, sub !! i = Some (k, r) /\ frame_row frame k = Ok r.
Proof.
  unfold frame_loc. intros E Hk.
  destruct (traverse_lookup _ _ _ _ _ E Hk) as (b & Hb & Hf).
  inv_result. subst. eauto.
Qed.

(** ** Facts about the array helpers *)

Lemma elem_of_nonzero_row (b : nat -> nat -> bool) (n i j : nat) :
  j ∈ nonzero_row b n i <-> (j < n)%nat /\ b i j = true.
Proof.
  unfold nonzero_row. rewrite list_elem_of_filter, elem_of_seq.
  rewrite Is_true_true. intuition lia.
Qed.

Lemma NoDup_nonzero_row (b : nat -> nat -> bool) (n i : nat) : NoDup (nonzero_row b n i).
Proof. apply NoDup_filter, NoDup_seq. Qed.

Lemma elem_of_nonzero2 (b : nat -> nat -> bool) (n i j : nat) :
  (i, j) ∈ nonzero2 b n <-> (i < n)%nat /\ (j < n)%nat /\ b i j = true.
Proof.
  unfold nonzero2. rewrite list_elem_of_bind. split.
  - intros (i' & Hj & Hi). apply list_elem_of_fmap in Hj as (j' & [= -> ->] & Hj).
    apply elem_of_nonzero_row in Hj. apply elem_of_seq in Hi. intuition lia.
  - intros (Hi & Hj & Hb). exists i. split.
    + apply list_elem_of_fmap. exists j. split; [done|]. by apply elem_of_nonzero_row.
    + apply elem_of_seq. lia.
Qed.

Lemma elem_of_nonzero1 (v : list bool) (i : nat) :
  i ∈ nonzero1 v <-> v !! i = Some true.
Proof.
  unfold nonzero1. rewrite list_elem_of_filter, elem_of_seq. split; [tauto|].
  intros Hi. split; [done|]. apply lookup_lt_Some in Hi. lia.
Qed.

(** [A] and [B] are joined by the boolean array [b] over the labels
    [include]. *)
Definition linked (include : list Z) (b : nat -> nat -> bool) (A B : Z) : Prop :=
  exists i j, include !! i = Some A /\ include !! j = Some B /\ b i j = true.

Definition symmetric_array {V} (b : nat -> nat -> V) : Prop := forall i j, b i j = b j i.

Lemma linked_sym include b A B :
  symmetric_array b -> linked include b A B -> linked include b B A.
Proof. intros Hs (i & j & ? & ? & ?). exists j, i. by rewrite Hs. Qed.

(** The bond graph is symmetric: whoever lists [B] is listed by [B]. *)
Definition symmetric_graph (g : gmap Z (gset Z)) : Prop :=
  forall A B sa, g !! A = Some sa -> B ∈ sa -> exists sb, g !! B = Some sb /\ A ∈ sb.

Definition add_bond (bond_dic : gmap Z (gset Z)) (p : Z * Z) : result (gmap Z (gset Z)) :=
  let '(index, b_row) := p in
  s ← getitem bond_dic index;
  Ok (<[index := s ∪ {[b_row]}]> bond_dic).

Lemma add_bonds_spec (ps : list (Z * Z)) (d d' : gmap Z (gset Z)) :
  foldlM add_bond d ps = Ok d' ->
  (forall k b, (k, b) ∈ ps -> is_Some (d !! k)) /\
  forall k,
    match d !! k with
    | None => d' !! k = None
    | Some s => exists s', d' !! k = Some s' /\ forall B, B ∈ s' <-> B ∈ s \/ (k, B) ∈ ps
    end.
Proof.
  revert d. induction ps as [|[a b] ps IH]; intros d; simpl.
  - intros [= <-]. split; [by intros ? ? ?%elem_of_nil|].
    intros k. destruct (d !! k) as [s|] eqn:E; [|done].
    exists s. split; [done|]. intros B. rewrite elem_of_nil. tauto.
  - intros E. apply bind_Ok in E as (d1 & Hd1 & E).
    apply bind_Ok in Hd1 as (s & Hs%getitem_Ok & [= <-]).
    destruct (IH _ E) as [Hdom Hspec]. split.
    + intros k b' [[= -> ->]|Hin]%elem_of_cons; [by eexists|].
      specialize (Hdom _ _ Hin). rewrite lookup_insert in Hdom.
      case_decide; subst; [by eexists|done].
    + intros k. specialize (Hspec k). rewrite lookup_insert in Hspec.
      case_decide as Hk; subst.
      * rewrite Hs. destruct Hspec as (s' & Hs' & HB). exists s'. split; [done|].
        intros B. rewrite HB, elem_of_union, elem_of_singleton, elem_of_cons.
        split; [intros [[?| ->]|?]|intros [?|[[= ->]|?]]]; auto.
      * destruct (d !! k) as [sk|]; [|done].
        destruct Hspec as (s' & Hs' & HB). exists s'. split; [done|].
        intros B. rewrite HB, elem_of_cons. split; [intros [?|?]|intros [?|[[= ? ?]|?]]]; auto.
        congruence.
Qed.

Lemma add_bonds_is_Ok (ps : list (Z * Z)) (d : gmap Z (gset Z)) :
  (forall k b, (k, b) ∈ ps -> is_Some (d !! k)) -> is_Ok (foldlM add_bond d ps).
Proof.
  revert d. induction ps as [|[a b] ps IH]; intros d Hd; simpl; [by eexists|].
  destruct (Hd a b) as [s Hs]; [left|].
  unfold getitem. rewrite Hs. simpl. apply IH.
  intros k b' Hin. rewrite lookup_insert. case_decide; [by eexists|].
  eapply Hd. by right.
Qed.

Lemma update_dic_eq (convert_to : convert_to_t) n bond_dic bin :
  update_dic convert_to n bond_dic bin =
    (let ab := nonzero2 bin n in
     a ← traverse (getitem (cv_frame convert_to)) ab.*1;
     b ← traverse (getitem (cv_frame convert_to)) ab.*2;
     foldlM add_bond bond_dic (zip a b)).
Proof. reflexivity. Qed.

Lemma traverse_map_seq (include : list Z) (l : list nat) :
  (forall i, i ∈ l -> (i < length include)%nat) ->
  exists ks, traverse (getitem (map_seq 0 include : gmap nat Z)) l = Ok ks /\
             Forall2 (fun i k => include !! i = Some k) l ks.
Proof.
  intros Hl.
  destruct (traverse_is_Ok (getitem (map_seq 0 include : gmap nat Z)) l) as [ks Hks].
  - intros i Hi. apply Hl in Hi. apply lookup_lt_is_Some in Hi as [k Hk].
    exists k. apply getitem_Ok. by rewrite lookup_map_seq_0.
  - exists ks. split; [done|]. apply traverse_Forall2 in Hks.
    eapply Forall2_impl; [exact Hks|]. intros i k Hk. simpl in Hk.
    apply getitem_Ok in Hk. by rewrite lookup_map_seq_0 in Hk.
Qed.

Lemma traverse_map_seq_inv (include : list Z) (l : list nat) ks :
  traverse (getitem (map_seq 0 include : gmap nat Z)) l = Ok ks ->
  Forall2 (fun i k => include !! i = Some k) l ks.
Proof.
  intros Hks%traverse_Forall2.
  eapply Forall2_impl; [exact Hks|]. intros i k Hk. simpl in Hk.
  apply getitem_Ok in Hk. by rewrite lookup_map_seq_0 in Hk.
Qed.

Lemma elem_of_zip_labels (include : list Z) (ab : list (nat * nat)) a b A B :
  Forall2 (fun i k => include !! i = Some k) ab.*1 a ->
  Forall2 (fun i k => include !! i = Some k) ab.*2 b ->
  (A, B) ∈ zip a b <->
  exists i j, (i, j) ∈ ab /\ include !! i = Some A /\ include !! j = Some B.
Proof.
  revert a b. induction ab as [|[i j] ab IH]; intros a b Ha Hb; simpl in *.
  - inversion Ha; subst. simpl. split; [by intros ?%elem_of_nil|].
    by intros (? & ? & ?%elem_of_nil & _).
  - inversion Ha as [|? ka ? a' Hka Ha']; subst.
    inversion Hb as [|? kb ? b' Hkb Hb']; subst. simpl.
    rewrite elem_of_cons, (IH _ _ Ha' Hb'). split.
    + intros [[= -> ->]|(i' & j' & Hin & ? & ?)].
      * exists i, j. split; [left|done].
      * exists i', j'. split; [by right|done].
    + intros (i' & j' & [[= -> ->]|Hin]%elem_of_cons & Hi' & Hj').
      * left. congruence.
      * right. eauto.
Qed.

Lemma update_dic_spec (convert_to : convert_to_t) (include : list Z) bond_dic bin d' :
  cv_frame convert_to = map_seq 0 include ->
  update_dic convert_to (length include) bond_dic bin = Ok d' ->
  (forall A B, linked include bin A B -> is_Some (bond_dic !! A)) /\
  forall k,
    match bond_dic !! k with
    | None => d' !! k = None
    | Some s => exists s', d' !! k = Some s' /\
                           forall B, B ∈ s' <-> B ∈ s \/ linked include bin k B
    end.
Proof.
  intros Hcv E. rewrite update_dic_eq, Hcv in E. simpl in E.
  apply bind_Ok in E as (a & Ha & E). apply bind_Ok in E as (b & Hb & E).
  apply traverse_map_seq_inv in Ha, Hb.
  pose proof (elem_of_zip_labels include (nonzero2 bin (length include)) a b) as Hzip.
  destruct (add_bonds_spec _ _ _ E) as [Hdom Hspec].
  assert (Hlinked : forall A B, linked include bin A B <-> (A, B) ∈ zip a b).
  { intros A B. rewrite (Hzip A B Ha Hb). unfold linked. split.
    - intros (i & j & Hi & Hj & Hbin). exists i, j. split; [|done].
      apply elem_of_nonzero2. apply lookup_lt_Some in Hi, Hj. done.
    - intros (i & j & Hin%elem_of_nonzero2 & Hi & Hj). exists i, j. tauto. }
  split.
  - intros A B HAB%Hlinked. eauto.
  - intros k. specialize (Hspec k). destruct (bond_dic !! k); [|done].
    destruct Hspec as (s' & Hs' & HB). exists s'. split; [done|].
    intros B. by rewrite HB, Hlinked.
Qed.

Lemma update_dic_is_Ok (convert_to : convert_to_t) (include : list Z) bond_dic bin :
  cv_frame convert_to = map_seq 0 include ->
  (forall A, A ∈ include -> is_Some (bond_dic !! A)) ->
  is_Ok (update_dic convert_to (length include) bond_dic bin).
Proof.
  intros Hcv Hdom. rewrite update_dic_eq, Hcv. simpl.
  destruct (traverse_map_seq include (nonzero2 bin (length include)).*1) as (a & Ha & Ha2).
  { intros i (p & -> & Hp)%list_elem_of_fmap. destruct p as [i j].
    apply elem_of_nonzero2 in Hp. simpl. tauto. }
  destruct (traverse_map_seq include (nonzero2 bin (length include)).*2) as (b & Hb & Hb2).
  { intros i (p & -> & Hp)%list_elem_of_fmap. destruct p as [i j].
    apply elem_of_nonzero2 in Hp. simpl. tauto. }
  rewrite Ha. simpl. rewrite Hb. simpl. apply add_bonds_is_Ok.
  intros k B Hin. apply (elem_of_zip_labels include (nonzero2 bin (length include)) a b k B Ha2 Hb2) in Hin
    as (i & j & _ & Hi & _).
  apply Hdom. by eapply list_elem_of_lookup_2.
Qed.

(** ** The overlap array *)

Section BondFacts.
Context `{SetOrder} `{Sorter}.
Variable atom_properties : gmap string atom_property.

(** The overlap of two labelled atoms: the sum of their bond sizes minus
    their distance. *)
Definition overlap_of (self : Cartesian) (bond_size_dic : gmap Z R) (A B : Z) (o : R) : Prop :=
  exists rA rB pA pB,
    bond_size_dic !! A = Some rA /\ bond_size_dic !! B = Some rB /\
    location self A = Ok pA /\ location self B = Ok pB /\
    o = (rA + rB - norm (vsub pA pB))%R.

Lemma overlap_of_fun self bond_size_dic A B o o' :
  overlap_of self bond_size_dic A B o -> overlap_of self bond_size_dic A B o' -> o = o'.
Proof.
  intros (rA & rB & pA & pB & ? & ? & ? & ? & ->) (rA' & rB' & pA' & pB' & ? & ? & ? & ? & ->).
  congruence.
Qed.

Lemma _overlap_spec self bond_size_dic include ov cv :
  _overlap self bond_size_dic (Some include) = Ok (ov, cv) ->
  cv_frame cv = map_seq 0 include /\
  symmetric_array ov /\
  forall i j A B, include !! i = Some A -> include !! j = Some B ->
    overlap_of self bond_size_dic A B (ov i j).
Proof.
  unfold _overlap, _give_distance_array. simpl. intros E.
  apply bind_Ok in E as (bsv & Hbsv & E).
  apply bind_Ok in E as ([dist cv'] & Hd & [= <- <-]).
  apply bind_Ok in Hd as (sub & Hsub & [= <- <-]). simpl.
  split; [by rewrite (frame_loc_index _ _ _ Hsub)|]. split.
  - intros i j. rewrite norm_vsub_sym. f_equal. apply Rplus_comm.
  - intros i j A B Hi Hj.
    destruct (traverse_lookup _ _ _ _ _ Hbsv Hi) as (rA & HrA & HA%getitem_Ok).
    destruct (traverse_lookup _ _ _ _ _ Hbsv Hj) as (rB & HrB & HB%getitem_Ok).
    destruct (frame_loc_rows _ _ _ _ _ Hsub Hi) as (ra & Hra & Hfa).
    destruct (frame_loc_rows _ _ _ _ _ Hsub Hj) as (rb & Hrb & Hfb).
    exists rA, rB, (row_location ra), (row_location rb).
    unfold location. rewrite Hfa, Hfb. repeat split; try done.
    rewrite (nth_lookup_Some _ _ _ _ HrA), (nth_lookup_Some _ _ _ _ HrB).
    rewrite (nth_lookup_Some _ i _ (row_location ra)),
            (nth_lookup_Some _ j _ (row_location rb)); [done| |].
    + rewrite !list_lookup_fmap. by rewrite Hrb.
    + rewrite !list_lookup_fmap. by rewrite Hra.
Qed.

Lemma _overlap_is_Ok self bond_size_dic include :
  (forall A, A ∈ include -> is_Some (bond_size_dic !! A)) ->
  (forall A, A ∈ include -> A ∈ frame_index (xyz_frame self)) ->
  is_Ok (_overlap self bond_size_dic (Some include)).
Proof.
  intros Hbs Hfr. unfold _overlap, _give_distance_array. simpl.
  destruct (traverse_is_Ok (getitem bond_size_dic) include) as [bsv ->].
  { intros A [r Hr]%Hbs. exists r. by apply getitem_Ok. }
  simpl. unfold frame_loc.
  destruct (traverse_is_Ok (fun k => r ← frame_row (xyz_frame self) k; Ok (k, r)) include)
    as [sub ->].
  { intros A [r Hr]%Hfr%frame_row_is_Ok. rewrite Hr. by eexists. }
  by eexists.
Qed.

(** ** Valency arbitration *)

(** The entries after one pass of the cutting loop. *)
Definition cut_list (n : nat) (theoretical_valency : list nat) (overlap_array : ndarray)
    (index : nat) : list (nat * R) :=
  sort_values false
    ((fun j => (j, overlap_array index j)) <$> nonzero_row (gt0 overlap_array) n index).

Lemma cut_bonds_entries n tv ov index i j :
  (cut_bonds n tv (ov, gt0 ov) index).1 i j =
    if bool_decide ((i ∈ (drop (nth index tv 0%nat) (cut_list n tv ov index)).*1 /\ j = index)
                    \/ (i = index /\ j ∈ (drop (nth index tv 0%nat) (cut_list n tv ov index)).*1))
    then (-1)%R else ov i j.
Proof.
  simpl. unfold set_entries, cut_list.
  set (cut := (drop _ _).*1).
  repeat case_bool_decide; try done; exfalso;
    rewrite ?list_elem_of_singleton in *; intuition congruence.
Qed.

Lemma cut_bonds_snd n tv ov index :
  (cut_bonds n tv (ov, gt0 ov) index).2 = gt0 (cut_bonds n tv (ov, gt0 ov) index).1.
Proof. reflexivity. Qed.

Lemma StronglySorted_app_elem {A} (Rel : A -> A -> Prop) (l1 l2 : list A) a b :
  StronglySorted Rel (l1 ++ l2) -> a ∈ l1 -> b ∈ l2 -> Rel a b.
Proof.
  induction l1 as [|x l1 IH]; simpl; [by intros _ ?%elem_of_nil|].
  intros Hs Ha Hb. apply StronglySorted_inv in Hs as [Hs Hall].
  apply elem_of_cons in Ha as [->|Ha]; [|by apply IH].
  rewrite Forall_forall in Hall. apply Hall.
  apply elem_of_app. by right.
Qed.

Lemma cut_list_perm n tv ov index :
  (cut_list n tv ov index).*1 ≡ₚ nonzero_row (gt0 ov) n index.
Proof.
  unfold cut_list. rewrite sort_values_perm, <- list_fmap_compose.
  by rewrite list_fmap_id.
Qed.

Lemma cut_list_value n tv ov index p :
  p ∈ cut_list n tv ov index -> p.2 = ov index p.1.
Proof.
  unfold cut_list. rewrite sort_values_perm.
  by intros (j & -> & _)%list_elem_of_fmap.
Qed.

Lemma cut_list_split n tv ov index v :
  (take v (cut_list n tv ov index)).*1 ++ (drop v (cut_list n tv ov index)).*1
    ≡ₚ nonzero_row (gt0 ov) n index.
Proof. by rewrite <- fmap_app, take_drop, cut_list_perm. Qed.

(** The array after the pass for [index], as a function of the array before. *)
Definition cut_array (n : nat) (tv : list nat) (ov : ndarray) (index : nat) : ndarray :=
  (cut_bonds n tv (ov, gt0 ov) index).1.

Definition below (ov' ov : ndarray) : Prop :=
  forall i j, ov' i j = ov i j \/ ov' i j = (-1)%R.

Lemma below_refl ov : below ov ov.
Proof. intros i j. by left. Qed.

Lemma below_trans ov1 ov2 ov3 : below ov1 ov2 -> below ov2 ov3 -> below ov1 ov3.
Proof.
  intros H12 H23 i j. destruct (H12 i j) as [-> | ->]; [apply H23|by right].
Qed.

Lemma below_gt0 ov' ov i j : below ov' ov -> gt0 ov' i j = true -> ov' i j = ov i j.
Proof.
  intros Hb Hg. unfold gt0 in Hg. apply bool_decide_eq_true in Hg.
  destruct (Hb i j) as [?|E]; [done|]. rewrite E in Hg. lra.
Qed.

Lemma cut_array_below n tv ov index : below (cut_array n tv ov index) ov.
Proof.
  intros i j. unfold cut_array. rewrite cut_bonds_entries.
  case_bool_decide; [by right|by left].
Qed.

Lemma cut_array_sym n tv ov index :
  symmetric_array ov -> symmetric_array (cut_array n tv ov index).
Proof.
  intros Hs i j. unfold cut_array. rewrite !cut_bonds_entries.
  rewrite (Hs i j).
  repeat case_bool_decide; try done; exfalso; tauto.
Qed.

Lemma nonzero_row_below_length n ov' ov i :
  below ov' ov ->
  length (nonzero_row (gt0 ov') n i) <= length (nonzero_row (gt0 ov) n i).
Proof.
  intros Hb. apply submseteq_length, NoDup_submseteq; [apply NoDup_nonzero_row|].
  intros j [Hj Hg]%elem_of_nonzero_row. apply elem_of_nonzero_row. split; [done|].
  pose proof (below_gt0 _ _ _ _ Hb Hg) as E.
  unfold gt0 in *. by rewrite <- E.
Qed.

Lemma cut_array_row n tv ov index j :
  j ∈ nonzero_row (gt0 (cut_array n tv ov index)) n index ->
  j ∈ (take (nth index tv 0%nat) (cut_list n tv ov index)).*1.
Proof.
  intros [Hj Hg]%elem_of_nonzero_row.
  assert (Hov : gt0 ov index j = true).
  { pose proof (below_gt0 _ _ _ _ (cut_array_below n tv ov index) Hg) as E.
    unfold gt0 in *. by rewrite <- E. }
  assert (Hin : j ∈ nonzero_row (gt0 ov) n index) by by apply elem_of_nonzero_row.
  rewrite <- (cut_list_split n tv ov index (nth index tv 0%nat)) in Hin.
  rewrite elem_of_app in Hin. destruct Hin as [?|Hcut]; [done|exfalso].
  unfold gt0, cut_array in Hg. rewrite cut_bonds_entries in Hg.
  rewrite (bool_decide_true (_ \/ _)) in Hg by (right; done).
  apply bool_decide_eq_true in Hg. lra.
Qed.

Lemma cut_array_degree n tv ov index :
  length (nonzero_row (gt0 (cut_array n tv ov index)) n index) <= nth index tv 0%nat.
Proof.
  etrans; [|apply (firstn_le_length (nth index tv 0%nat) (cut_list n tv ov index))].
  rewrite <- (length_fmap fst (take _ _)).
  apply submseteq_length, NoDup_submseteq; [apply NoDup_nonzero_row|].
  apply cut_array_row.
Qed.

(** The whole loop over the oversaturated positions. *)
Definition cut_loop (n : nat) (tv : list nat) (l : list nat) (ov : ndarray) : ndarray :=
  fold_left (cut_array n tv) l ov.

Lemma fold_cut_bonds n tv l ov :
  fold_left (cut_bonds n tv) l (ov, gt0 ov) = (cut_loop n tv l ov, gt0 (cut_loop n tv l ov)).
Proof.
  revert ov. induction l as [|index l IH]; intros ov; [done|].
  simpl. unfold cut_loop in *. simpl. rewrite <- IH. done.
Qed.

Lemma cut_loop_below n tv l ov : below (cut_loop n tv l ov) ov.
Proof.
  revert ov. induction l as [|index l IH]; intros ov; [apply below_refl|].
  eapply below_trans; [apply IH|apply cut_array_below].
Qed.

Lemma cut_loop_sym n tv l ov :
  symmetric_array ov -> symmetric_array (cut_loop n tv l ov).
Proof.
  revert ov. induction l as [|index l IH]; intros ov Hs; [done|].
  apply IH. by apply cut_array_sym.
Qed.

Lemma cut_loop_degree n tv l ov index :
  index ∈ l ->
  length (nonzero_row (gt0 (cut_loop n tv l ov)) n index) <= nth index tv 0%nat.
Proof.
  revert ov. induction l as [|i l IH]; intros ov; [by intros ?%elem_of_nil|].
  intros Hin. destruct (decide (index ∈ l)) as [Hl|Hl]; [by apply IH|].
  apply elem_of_cons in Hin as [->|?]; [|done].
  change (cut_loop n tv (i :: l) ov) with (cut_loop n tv l (cut_array n tv ov i)).
  etrans; [apply nonzero_row_below_length, (cut_loop_below n tv l (cut_array n tv ov i))|].
  apply cut_array_degree.
Qed.

(** ** [get_bonds_local] in terms of the final overlap array *)

Definition oversaturated (n : nat) (tv : list nat) (ov : ndarray) : list nat :=
  filter (fun i => (0 < Z.of_nat (length (nonzero_row (gt0 ov) n i))
                        - Z.of_nat (nth i tv 0%nat))%Z) (seq 0 n).

Definition final_array (use_valency : bool) (n : nat) (tv : list nat) (ov : ndarray) : ndarray :=
  if use_valency then cut_loop n tv (oversaturated n tv ov) ov else ov.

Lemma get_bonds_local_unfold self d vd bsd uv include d' :
  get_bonds_local self d vd bsd uv include = Ok d' ->
  exists ov0 cv tv,
    _overlap self bsd (Some include) = Ok (ov0, cv) /\
    traverse (getitem vd) include = Ok tv /\
    update_dic cv (length include) d
      (gt0 (final_array uv (length include) tv (fill_diagonal ov0 (-1)))) = Ok d'.
Proof.
  unfold get_bonds_local. intros E.
  apply bind_Ok in E as ([ov0 cv] & Hov & E).
  apply bind_Ok in E as (tv & Htv & E).
  apply bind_Ok in E as (conv & _ & E).
  exists ov0, cv, tv. do 2 (split; [done|]).
  fold (oversaturated (length include) tv (fill_diagonal ov0 (-1))) in E.
  destruct uv; simpl in *.
  - case_bool_decide as Hlen.
    + by rewrite fold_cut_bonds in E.
    + destruct (oversaturated _ _ _) eqn:Eo; [|simpl in Hlen; lia].
      by unfold cut_loop.
  - done.
Qed.

Lemma get_bonds_local_fold self d vd bsd uv include ov0 cv tv :
  _overlap self bsd (Some include) = Ok (ov0, cv) ->
  traverse (getitem vd) include = Ok tv ->
  get_bonds_local self d vd bsd uv include =
    update_dic cv (length include) d
      (gt0 (final_array uv (length include) tv (fill_diagonal ov0 (-1)))).
Proof.
  intros Hov Htv. unfold get_bonds_local. rewrite Hov. simpl. rewrite Htv. simpl.
  fold (oversaturated (length include) tv (fill_diagonal ov0 (-1))).
  destruct (_overlap_spec _ _ _ _ _ Hov) as (Hcv & _ & _).
  destruct (traverse_map_seq include (oversaturated (length include) tv (fill_diagonal ov0 (-1))))
    as (conv & Hconv & _).
  { intros i [_ Hi%elem_of_seq]%list_elem_of_filter. lia. }
  rewrite Hcv, Hconv. simpl.
  destruct uv; simpl.
  - case_bool_decide as Hlen.
    + by rewrite fold_cut_bonds.
    + destruct (oversaturated _ _ _) eqn:Eo; [|simpl in Hlen; lia].
      by unfold cut_loop.
  - done.
Qed.

Lemma fill_diagonal_sym ov v : symmetric_array ov -> symmetric_array (fill_diagonal ov v).
Proof.
  intros Hs i j. unfold fill_diagonal. rewrite (Hs i j).
  repeat case_decide; try done; congruence.
Qed.

Lemma final_array_sym uv n tv ov : symmetric_array ov -> symmetric_array (final_array uv n tv ov).
Proof. intros Hs. destruct uv; simpl; [by apply cut_loop_sym|done]. Qed.

Lemma final_array_below uv n tv ov : below (final_array uv n tv ov) ov.
Proof. destruct uv; simpl; [apply cut_loop_below|apply below_refl]. Qed.

Lemma gt0_sym ov : symmetric_array ov -> symmetric_array (gt0 ov).
Proof. intros Hs i j. unfold gt0. by rewrite (Hs i j). Qed.

Lemma get_bonds_local_symmetric self d vd bsd uv include d' :
  symmetric_graph d ->
  get_bonds_local self d vd bsd uv include = Ok d' ->
  symmetric_graph d'.
Proof.
  intros Hd E. apply get_bonds_local_unfold in E as (ov0 & cv & tv & Hov & Htv & E).
  destruct (_overlap_spec _ _ _ _ _ Hov) as (Hcv & Hsym & _).
  set (bin := gt0 _) in E.
  assert (Hbin : symmetric_array bin).
  { apply gt0_sym, final_array_sym, fill_diagonal_sym, Hsym. }
  destruct (update_dic_spec _ _ _ _ _ Hcv E) as [Hdom Hspec].
  intros A B sa' HA HB.
  pose proof (Hspec A) as HsA. destruct (d !! A) as [sa|] eqn:EA; [|congruence].
  destruct HsA as (sa'' & HA' & HsA). rewrite HA in HA'. injection HA' as <-.
  apply HsA in HB. destruct HB as [HB|HB].
  - destruct (Hd _ _ _ EA HB) as (sb & HsB & HAB).
    pose proof (Hspec B) as HsB'. rewrite HsB in HsB'.
    destruct HsB' as (sb' & ? & Hsb'). exists sb'. split; [done|]. apply Hsb'. by left.
  - apply (linked_sym _ _ _ _ Hbin) in HB.
    destruct (Hdom _ _ HB) as [sb HsB].
    pose proof (Hspec B) as HsB'. rewrite HsB in HsB'.
    destruct HsB' as (sb' & ? & Hsb'). exists sb'. split; [done|]. apply Hsb'. by right.
Qed.

Lemma foldlM_invariant {A B} (P : B -> Prop) (f : B -> A -> result B) l b b' :
  (forall b a b', P b -> f b a = Ok b' -> P b') ->
  P b -> foldlM f b l = Ok b' -> P b'.
Proof.
  intros Hf. revert b. induction l as [|a l IH]; intros b Hb; simpl.
  - by intros [= <-].
  - intros E. apply bind_Ok in E as (b1 & Hb1 & E). eauto.
Qed.

Lemma dict_zip_lookup_Some `{Countable K} {V} (keys : list K) (values : list V) k v :
  dict_zip keys values !! k = Some v -> k ∈ keys /\ v ∈ values.
Proof.
  unfold dict_zip. intros Hin%elem_of_list_to_map_2. rewrite elem_of_reverse in Hin.
  split; [exact (elem_of_zip_l _ _ _ _ Hin)|exact (elem_of_zip_r _ _ _ _ Hin)].
Qed.

Lemma dict_zip_is_Some `{Countable K} {V} (keys : list K) (values : list V) k :
  length keys = length values -> k ∈ keys -> is_Some (dict_zip keys values !! k).
Proof.
  intros Hlen Hk. unfold dict_zip.
  apply not_eq_None_Some. intros Hn%not_elem_of_list_to_map_2.
  apply Hn. rewrite fmap_reverse, elem_of_reverse, fst_zip by lia. done.
Qed.

(** ** [preparation_of_variables] *)

Lemma modified_properties_fold (vd : gmap Z nat) (bsd : gmap Z R)
    (mp : gmap Z modified_property) :
  map_fold (fun key p '(valency_dic, bond_size_dic) =>
              (<[key := mod_valency p]> valency_dic,
               <[key := mod_bond_size p]> bond_size_dic)) (vd, bsd) mp
  = ((mod_valency <$> mp) ∪ vd, (mod_bond_size <$> mp) ∪ bsd).
Proof.
  apply (map_fold_weak_ind (fun r m => r = ((mod_valency <$> m) ∪ vd, (mod_bond_size <$> m) ∪ bsd))).
  - by rewrite !fmap_empty, !(left_id_L ∅ (∪)).
  - intros i x m r _ ->. by rewrite !fmap_insert, !insert_union_l.
Qed.

Lemma preparation_of_variables_spec self mp bd vd bsd :
  preparation_of_variables atom_properties self mp = Ok (bd, vd, bsd) ->
  (forall k s, bd !! k = Some s -> s = ∅) /\
  (forall k, k ∈ frame_index (xyz_frame self) ->
     is_Some (bd !! k) /\ is_Some (vd !! k) /\ is_Some (bsd !! k)).
Proof.
  unfold preparation_of_variables. intros E.
  apply bind_Ok in E as (vs & Hvs & E). apply bind_Ok in E as (bs & Hbs & E).
  apply traverse_length in Hvs, Hbs.
  assert (E' : exists vd0 bsd0, bd = dict_zip (frame_index (xyz_frame self))
                                     (replicate (n_atoms self) ∅) /\
            vd = vd0 ∪ dict_zip (frame_index (xyz_frame self)) vs /\
            bsd = bsd0 ∪ dict_zip (frame_index (xyz_frame self)) bs).
  { destruct mp as [mp|].
    - rewrite modified_properties_fold in E. injection E as <- <- <-. eauto.
    - injection E as <- <- <-. exists ∅, ∅. by rewrite !(left_id_L ∅ (∪)). }
  destruct E' as (vd0 & bsd0 & -> & -> & ->). split.
  - intros k s [_ Hs]%dict_zip_lookup_Some. rewrite elem_of_replicate in Hs. tauto.
  - intros k Hk. repeat split.
    + apply dict_zip_is_Some; [|done].
      unfold n_atoms, frame_index. by rewrite length_replicate, length_fmap.
    + apply lookup_union_is_Some. right. by apply dict_zip_is_Some.
    + apply lookup_union_is_Some. right. by apply dict_zip_is_Some.
Qed.

Lemma preparation_of_variables_is_Ok self mp :
  (forall k r, (k, r) ∈ xyz_frame self -> is_Some (atom_properties !! col_atom r)) ->
  is_Ok (preparation_of_variables atom_properties self mp).
Proof.
  intros Htab. unfold preparation_of_variables.
  assert (Hrow : forall (f : atom_property -> R + nat) k, k ∈ frame_index (xyz_frame self) ->
            exists r p, frame_row (xyz_frame self) k = Ok r /\
                        atom_properties !! col_atom r = Some p).
  { intros _ k [r Hr]%frame_row_is_Ok. destruct (Htab k r) as [p Hp]; [by apply frame_row_Ok|].
    eauto. }
  destruct (traverse_is_Ok (fun index =>
      r ← frame_row (xyz_frame self) index;
      p ← getitem atom_properties (col_atom r); Ok (valency p))
    (frame_index (xyz_frame self))) as [vs ->].
  { intros k (r & p & Hr & Hp)%(Hrow (fun _ => inr 0%nat)). rewrite Hr. simpl.
    unfold getitem. rewrite Hp. by eexists. }
  simpl.
  destruct (traverse_is_Ok (fun index =>
      r ← frame_row (xyz_frame self) index;
      p ← getitem atom_properties (col_atom r); Ok (bond_size p))
    (frame_index (xyz_frame self))) as [bs ->].
  { intros k (r & p & Hr & Hp)%(Hrow (fun _ => inr 0%nat)). rewrite Hr. simpl.
    unfold getitem. rewrite Hp. by eexists. }
  simpl. destruct mp as [mp|]; [|by eexists].
  rewrite modified_properties_fold. by eexists.
Qed.

(** ** Symmetry of the bond graph *)

Lemma complete_calculation_symmetric self mp mel de uv dei g :
  complete_calculation atom_properties self mp mel de uv dei = Ok g -> symmetric_graph g.
Proof.
  unfold complete_calculation. intros E.
  apply bind_Ok in E as ([[bd vd] bsd] & Hprep & E).
  apply preparation_of_variables_spec in Hprep as [Hempty _].
  assert (Hbd : symmetric_graph bd).
  { intros A B sa HA HB. apply Hempty in HA as ->. set_solver. }
  destruct dei.
  - apply bind_Ok in E as (cells & _ & E).
    eapply (foldlM_invariant symmetric_graph); [|exact Hbd|exact E].
    intros b cell b' Hb Hstep. simpl in Hstep.
    eapply get_bonds_local_symmetric; [exact Hb|exact Hstep].
  - by eapply get_bonds_local_symmetric.
Qed.

(** C1: whatever the parameters, the dictionary [get_bonds] returns relates
    [A] to [B] exactly when it relates [B] to [A]; a dictionary found in the
    lookup attribute was put there by an earlier call. *)
Theorem get_bonds_symmetric self mp mel de uv use_lookup set_lookup dei g self' :
  (forall g0, __bond_dic self = Some g0 -> symmetric_graph g0) ->
  get_bonds atom_properties self mp mel de uv use_lookup set_lookup dei = Ok (g, self') ->
  (forall A B sa, g !! A = Some sa -> B ∈ sa -> exists sb, g !! B = Some sb /\ A ∈ sb) /\
  (forall g0, __bond_dic self' = Some g0 -> symmetric_graph g0).
Proof.
  intros Hcache E. unfold get_bonds in E.
  assert (Hcompute : forall g self',
    (bond_dic ← complete_calculation atom_properties self mp mel de uv dei;
     Ok (bond_dic, if set_lookup then set_bond_dic self bond_dic else self)) = Ok (g, self') ->
    symmetric_graph g /\ (forall g0, __bond_dic self' = Some g0 -> symmetric_graph g0)).
  { intros g1 self1 E1. apply bind_Ok in E1 as (g2 & Hg2 & [= <- <-]).
    apply complete_calculation_symmetric in Hg2. split; [done|].
    destruct set_lookup; simpl; [by intros ? [= <-]|done]. }
  destruct use_lookup; [|by apply Hcompute].
  destruct (__bond_dic self) as [g0|] eqn:E0; [|by apply Hcompute].
  injection E as <- <-. split; [by apply Hcache|]. intros g1. rewrite E0. apply Hcache.
Qed.

(** ** The graph [get_bonds_local] builds *)

Lemma get_bonds_local_spec self d vd bsd uv include d' :
  get_bonds_local self d vd bsd uv include = Ok d' ->
  exists ov0 tv,
    (forall i j A B, include !! i = Some A -> include !! j = Some B ->
       overlap_of self bsd A B (ov0 i j)) /\
    symmetric_array ov0 /\
    Forall2 (fun k v => vd !! k = Some v) include tv /\
    forall k,
      match d !! k with
      | None => d' !! k = None
      | Some s =>
          exists s', d' !! k = Some s' /\
            forall B, B ∈ s' <->
              B ∈ s \/ linked include
                         (gt0 (final_array uv (length include) tv (fill_diagonal ov0 (-1)))) k B
      end.
Proof.
  intros E. apply get_bonds_local_unfold in E as (ov0 & cv & tv & Hov & Htv & E).
  destruct (_overlap_spec _ _ _ _ _ Hov) as (Hcv & Hsym & Hval).
  exists ov0, tv. repeat split; try done.
  - apply traverse_Forall2 in Htv. eapply Forall2_impl; [exact Htv|].
    intros k v Hk. by apply getitem_Ok.
  - by destruct (update_dic_spec _ _ _ _ _ Hcv E).
Qed.

Lemma get_bonds_local_is_Ok self d vd bsd uv include :
  (forall A, A ∈ include ->
     A ∈ frame_index (xyz_frame self) /\ is_Some (d !! A) /\
     is_Some (vd !! A) /\ is_Some (bsd !! A)) ->
  is_Ok (get_bonds_local self d vd bsd uv include).
Proof.
  intros Hin.
  destruct (_overlap_is_Ok self bsd include) as [[ov0 cv] Hov];
    [intros A HA; by apply Hin|intros A HA; by apply Hin|].
  destruct (traverse_is_Ok (getitem vd) include) as [tv Htv].
  { intros A (_ & _ & [v Hv] & _)%Hin. exists v. by apply getitem_Ok. }
  rewrite (get_bonds_local_fold _ _ _ _ _ _ _ _ _ Hov Htv).
  apply update_dic_is_Ok.
  - by destruct (_overlap_spec _ _ _ _ _ Hov).
  - intros A HA. by apply Hin.
Qed.

Lemma get_bonds_local_dom self d vd bsd uv include d' k :
  get_bonds_local self d vd bsd uv include = Ok d' ->
  is_Some (d' !! k) <-> is_Some (d !! k).
Proof.
  intros (ov0 & tv & _ & _ & _ & Hspec)%get_bonds_local_spec.
  specialize (Hspec k). destruct (d !! k).
  - destruct Hspec as (s' & -> & _). split; by eexists.
  - rewrite Hspec. done.
Qed.

Lemma get_bonds_fresh self mp mel de uv set_lookup dei g self' :
  get_bonds atom_properties self mp mel de uv false set_lookup dei = Ok (g, self') <->
  complete_calculation atom_properties self mp mel de uv dei = Ok g /\
  self' = (if set_lookup then set_bond_dic self g else self).
Proof.
  unfold get_bonds. rewrite bind_Ok. split.
  - by intros (g' & Hg & [= <- <-]).
  - intros [Hg ->]. by exists g.
Qed.

(** Without valency arbitration the links are the positive off-diagonal
    overlaps. *)
Lemma linked_candidates self bsd include ov0 tv A B :
  NoDup include ->
  (forall i j A B, include !! i = Some A -> include !! j = Some B ->
     overlap_of self bsd A B (ov0 i j)) ->
  linked include (gt0 (final_array false (length include) tv (fill_diagonal ov0 (-1)))) A B <->
  A ∈ include /\ B ∈ include /\ A <> B /\
  exists o, overlap_of self bsd A B o /\ (0 < o)%R.
Proof.
  intros Hnd Hval. simpl. unfold linked, gt0, fill_diagonal. split.
  - intros (i & j & Hi & Hj & Hb). apply bool_decide_eq_true in Hb.
    case_decide as Hij; [lra|].
    repeat split; [by eapply list_elem_of_lookup_2|by eapply list_elem_of_lookup_2| |].
    + intros ->. apply Hij. by eapply NoDup_lookup.
    + exists (ov0 i j). split; [by apply Hval|done].
  - intros (HA & HB & Hne & o & Ho & Hpos).
    apply list_elem_of_lookup in HA as [i Hi], HB as [j Hj].
    exists i, j. do 2 (split; [done|]). apply bool_decide_eq_true.
    rewrite decide_False by congruence.
    by rewrite (overlap_of_fun _ _ _ _ _ _ (Hval _ _ _ _ Hi Hj) Ho).
Qed.

(** C2: with valency arbitration and partitioning switched off, [B] is in
    [graph[A]] exactly when [A] and [B] are different atoms whose bond sizes
    add up to strictly more than their distance. *)
Theorem get_bonds_overlap_iff self mp mel de set_lookup g self' :
  NoDup (frame_index (xyz_frame self)) ->
  get_bonds atom_properties self mp mel de false false set_lookup false = Ok (g, self') ->
  exists bd vd bsd,
    preparation_of_variables atom_properties self mp = Ok (bd, vd, bsd) /\
    forall A, A ∈ frame_index (xyz_frame self) ->
      exists s, g !! A = Some s /\
        forall B, B ∈ s <->
          B ∈ frame_index (xyz_frame self) /\ A <> B /\
          exists rA rB pA pB,
            bsd !! A = Some rA /\ bsd !! B = Some rB /\
            location self A = Ok pA /\ location self B = Ok pB /\
            (0 < rA + rB - norm (vsub pA pB))%R.
Proof.
  intros Hnd [E _]%get_bonds_fresh. unfold complete_calculation in E.
  apply bind_Ok in E as ([[bd vd] bsd] & Hprep & E).
  exists bd, vd, bsd. split; [done|].
  apply preparation_of_variables_spec in Hprep as [Hempty Hdom].
  apply get_bonds_local_spec in E as (ov0 & tv & Hval & _ & _ & Hspec).
  intros A HA. destruct (Hdom A HA) as ([s Hs] & _). specialize (Hspec A).
  rewrite Hs in Hspec. destruct Hspec as (s' & Hs' & HB). exists s'. split; [done|].
  intros B. rewrite HB, (linked_candidates self bsd _ ov0 tv A B Hnd Hval).
  rewrite (Hempty _ _ Hs). split.
  - intros [?%elem_of_empty|(_ & ? & ? & o & (rA & rB & pA & pB & ? & ? & ? & ? & ->) & ?)]; [done|].
    do 2 (split; [done|]). exists rA, rB, pA, pB. tauto.
  - intros (? & ? & rA & rB & pA & pB & ? & ? & ? & ? & ?). right.
    do 3 (split; [done|]). eexists. split; [|eassumption].
    exists rA, rB, pA, pB. tauto.
Qed.

(** ** The bounding box and the number of steps *)

Lemma sorted_head_le {A} (l : list (A * R)) p q :
  StronglySorted (value_order true) l -> head l = Some p -> q ∈ l -> (p.2 <= q.2)%R.
Proof.
  destruct l as [|p' l]; [done|]. simpl. intros [_ Hall]%StronglySorted_inv [= ->].
  intros [->|Hq]%elem_of_cons; [lra|].
  rewrite Forall_forall in Hall. by apply Hall.
Qed.

Lemma sorted_last_le {A} (l : list (A * R)) p q :
  StronglySorted (value_order true) l -> last l = Some p -> q ∈ l -> (q.2 <= p.2)%R.
Proof.
  induction l as [|p' l IH]; [done|].
  intros [Hs Hall]%StronglySorted_inv Hlast Hq.
  destruct l as [|p'' l].
  - injection Hlast as ->. apply list_elem_of_singleton in Hq as ->. lra.
  - change (last (p' :: p'' :: l)) with (last (p'' :: l)) in Hlast.
    apply elem_of_cons in Hq as [->|Hq]; [|by apply IH].
    rewrite Forall_forall in Hall. apply (Hall p). by eapply last_Some_elem_of.
Qed.

(** [lo] is the least and [hi] the greatest coordinate on axis [a]. *)
Definition axis_least (self : Cartesian) (a : axis) (lo : R) : Prop :=
  (exists k r, (k, r) ∈ xyz_frame self /\ axis_value a r = lo) /\
  forall k r, (k, r) ∈ xyz_frame self -> (lo <= axis_value a r)%R.

Definition axis_greatest (self : Cartesian) (a : axis) (hi : R) : Prop :=
  (exists k r, (k, r) ∈ xyz_frame self /\ axis_value a r = hi) /\
  forall k r, (k, r) ∈ xyz_frame self -> (axis_value a r <= hi)%R.

Lemma axis_least_unique self a lo lo' :
  axis_least self a lo -> axis_least self a lo' -> lo = lo'.
Proof.
  intros [(k & r & Hr & <-) Hlo] [(k' & r' & Hr' & <-) Hlo'].
  apply Rle_antisym; eauto.
Qed.

Lemma axis_greatest_unique self a hi hi' :
  axis_greatest self a hi -> axis_greatest self a hi' -> hi = hi'.
Proof.
  intros [(k & r & Hr & <-) Hhi] [(k' & r' & Hr' & <-) Hhi'].
  apply Rle_antisym; eauto.
Qed.

Lemma elem_of_sorted_series self a k v :
  (k, v) ∈ sorted_series self a <-> exists r, (k, r) ∈ xyz_frame self /\ v = axis_value a r.
Proof.
  unfold sorted_series. rewrite sort_values_perm, list_elem_of_fmap. split.
  - intros ([k' r] & [= -> ->] & Hin). eauto.
  - intros (r & Hin & ->). by exists (k, r).
Qed.

Lemma sorted_series_length self a : length (sorted_series self a) = n_atoms self.
Proof. unfold sorted_series. by rewrite sort_values_perm, length_fmap. Qed.

Lemma first_item_sorted_arrays self a :
  xyz_frame self <> [] ->
  exists lo, first_item (sorted_arrays self a) = Ok lo /\ axis_least self a lo.
Proof.
  intros Hne. unfold first_item, sorted_arrays.
  destruct (sorted_series self a) as [|[k lo] l] eqn:E.
  - pose proof (sorted_series_length self a) as Hlen. rewrite E in Hlen.
    unfold n_atoms in Hlen. by destruct (xyz_frame self).
  - exists lo. split; [done|]. split.
    + destruct (proj1 (elem_of_sorted_series self a k lo)) as (r & ? & ->); [rewrite E; left|].
      eauto.
    + intros k' r Hr.
      apply (sorted_head_le (sorted_series self a) (k, lo) (k', axis_value a r)).
      * apply sort_values_sorted.
      * by rewrite E.
      * apply elem_of_sorted_series. eauto.
Qed.

Lemma last_item_sorted_arrays self a :
  xyz_frame self <> [] ->
  exists hi, last_item (sorted_arrays self a) = Ok hi /\ axis_greatest self a hi.
Proof.
  intros Hne. unfold last_item, sorted_arrays. rewrite fmap_last.
  destruct (last (sorted_series self a)) as [[k hi]|] eqn:E.
  - exists hi. split; [done|]. split.
    + destruct (proj1 (elem_of_sorted_series self a k hi)) as (r & ? & ->);
        [by eapply last_Some_elem_of|]. eauto.
    + intros k' r Hr.
      apply (sorted_last_le (sorted_series self a) (k, hi) (k', axis_value a r)).
      * apply sort_values_sorted.
      * done.
      * apply elem_of_sorted_series. eauto.
  - apply last_None in E. pose proof (sorted_series_length self a) as Hlen.
    rewrite E in Hlen. unfold n_atoms in Hlen. by destruct (xyz_frame self).
Qed.

Lemma first_item_empty self a :
  xyz_frame self = [] -> first_item (sorted_arrays self a) = Raise IndexError.
Proof.
  intros E. unfold first_item, sorted_arrays.
  pose proof (sorted_series_length self a) as Hlen. unfold n_atoms in Hlen.
  rewrite E in Hlen. by destruct (sorted_series self a).
Qed.

Lemma partition_steps_spec self mel :
  xyz_frame self <> [] -> mel <> 0%R ->
  exists minimum extent steps,
    partition_steps self mel = Ok (minimum, extent, steps) /\
    forall a, exists lo hi,
      axis_least self a lo /\ axis_greatest self a hi /\
      minimum a = (lo - 0.01)%R /\ extent a = (hi + 0.01 - (lo - 0.01))%R /\
      steps a = Zceil (extent a / mel).
Proof.
  intros Hne Hmel. unfold partition_steps.
  destruct (first_item_sorted_arrays self ax_x Hne) as (x0 & -> & Hx0).
  destruct (first_item_sorted_arrays self ax_y Hne) as (y0 & -> & Hy0).
  destruct (first_item_sorted_arrays self ax_z Hne) as (z0 & -> & Hz0).
  destruct (last_item_sorted_arrays self ax_x Hne) as (x1 & -> & Hx1).
  destruct (last_item_sorted_arrays self ax_y Hne) as (y1 & -> & Hy1).
  destruct (last_item_sorted_arrays self ax_z Hne) as (z1 & -> & Hz1).
  simpl. rewrite decide_False by done.
  eexists _, _, _. split; [done|].
  intros []; [exists x0, x1|exists y0, y1|exists z0, z1];
    (split; [done|split; [done|split; [done|split; done]]]).
Qed.


(** ** The degenerate partition *)

Lemma divide_et_impera_one_step self mel de minimum extent steps :
  partition_steps self mel = Ok (minimum, extent, steps) ->
  steps ax_x = 1%Z -> steps ax_y = 1%Z -> steps ax_z = 1%Z ->
  _divide_et_impera self mel de =
    Ok [((0, 0, 0)%nat, (PdIndex (frame_index (xyz_frame self)),
                         PdIndex (frame_index (xyz_frame self))))].
Proof.
  intros E Hx Hy Hz. unfold _divide_et_impera. rewrite E. simpl.
  by rewrite decide_True.
Qed.

(** C5: when every axis needs exactly one step, the partitioner returns the
    single cell [(0, 0, 0)] holding [xyz_frame.index] twice, and [get_bonds]
    with partitioning gives what it gives without. *)
Theorem get_bonds_one_cell self mp mel de uv use_lookup set_lookup minimum extent steps :
  partition_steps self mel = Ok (minimum, extent, steps) ->
  steps ax_x = 1%Z -> steps ax_y = 1%Z -> steps ax_z = 1%Z ->
  _divide_et_impera self mel de =
    Ok [((0, 0, 0)%nat, (PdIndex (frame_index (xyz_frame self)),
                         PdIndex (frame_index (xyz_frame self))))] /\
  get_bonds atom_properties self mp mel de uv use_lookup set_lookup true =
  get_bonds atom_properties self mp mel de uv use_lookup set_lookup false.
Proof.
  intros E Hx Hy Hz.
  pose proof (divide_et_impera_one_step self mel de _ _ _ E Hx Hy Hz) as Hcell.
  split; [done|].
  assert (Hcc : complete_calculation atom_properties self mp mel de uv true =
                complete_calculation atom_properties self mp mel de uv false).
  { unfold complete_calculation.
    destruct (preparation_of_variables atom_properties self mp) as [[[bd vd] bsd]|e]; [|done].
    simpl. rewrite Hcell. simpl. apply bind_ret_r. }
  unfold get_bonds. by rewrite Hcc.
Qed.

(** ** Labels in an interval *)

Lemma interval_labels_spec self a lo hi :
  exists S, interval_labels self a lo hi = Ok S /\
    forall k, k ∈ S <->
      exists r, (k, r) ∈ xyz_frame self /\ (lo <= axis_value a r)%R /\ (axis_value a r < hi)%R.
Proof.
  unfold interval_labels, axis_convert, sorted_arrays.
  set (bv := (fun v => bool_decide (lo <= v)%R && bool_decide (v < hi)%R) <$> _).
  destruct (traverse_map_seq (sorted_series self a).*1 (nonzero1 bv)) as (ks & -> & Hks).
  { intros i Hi%elem_of_nonzero1. apply lookup_lt_Some in Hi.
    unfold bv in Hi. by rewrite !length_fmap in *. }
  simpl. eexists. split; [done|]. intros k. rewrite elem_of_list_to_set. split.
  - intros Hk. apply list_elem_of_lookup in Hk as [p Hp].
    destruct (Forall2_lookup_r _ _ _ _ _ Hks Hp) as (i & Hi & Hik).
    apply list_elem_of_lookup_2, elem_of_nonzero1 in Hi.
    simpl in Hik. unfold bv in Hi. rewrite !list_lookup_fmap in Hi.
    rewrite list_lookup_fmap in Hik.
    destruct (sorted_series self a !! i) as [[k' v]|] eqn:Ei; [|done].
    simpl in *. injection Hik as ->. injection Hi as Hi.
    apply andb_true_iff in Hi as [Hlo%bool_decide_eq_true Hhi%bool_decide_eq_true].
    apply list_elem_of_lookup_2, elem_of_sorted_series in Ei as (r & Hr & ->). eauto.
  - intros (r & Hr & Hlo & Hhi).
    assert (Hin : (k, axis_value a r) ∈ sorted_series self a)
      by (apply elem_of_sorted_series; eauto).
    apply list_elem_of_lookup in Hin as [i Hi].
    assert (Hnz : i ∈ nonzero1 bv).
    { apply elem_of_nonzero1. unfold bv. rewrite !list_lookup_fmap, Hi. simpl.
      by rewrite !bool_decide_true. }
    apply list_elem_of_lookup in Hnz as [p Hp].
    destruct (Forall2_lookup_l _ _ _ _ _ Hks Hp) as (k' & Hk' & Hik).
    simpl in Hik. rewrite list_lookup_fmap, Hi in Hik. injection Hik as <-.
    by eapply list_elem_of_lookup_2.
Qed.

Lemma interval_labels_subset self a lo hi S :
  interval_labels self a lo hi = Ok S -> forall k, k ∈ S -> k ∈ frame_index (xyz_frame self).
Proof.
  intros E k Hk. destruct (interval_labels_spec self a lo hi) as (S' & E' & HS).
  rewrite E in E'. injection E' as <-. apply HS in Hk as (r & Hr & _).
  apply list_elem_of_fmap. by exists (k, r).
Qed.

(** ** The small intervals tile the bounding box *)

Lemma tile_exists (minimum d v : R) (n : Z) :
  (0 < d)%R -> (minimum <= v)%R -> (v < minimum + IZR n * d)%R ->
  exists c : nat, (c < Z.to_nat n)%nat /\
    (minimum + d / 2 + INR c * d - d / 2 <= v)%R /\
    (v < minimum + d / 2 + INR c * d + d / 2)%R.
Proof.
  intros Hd Hlo Hhi.
  set (t := ((v - minimum) / d)%R).
  assert (Ht : (v - minimum = t * d)%R) by (unfold t; field; lra).
  assert (Ht0 : (0 <= t)%R).
  { unfold t. apply Rmult_le_pos; [lra|]. left. by apply Rinv_0_lt_compat. }
  assert (Htn : (t < IZR n)%R).
  { apply (Rmult_lt_reg_r d); [done|]. lra. }
  pose proof (Zfloor_bound t) as [Hf1 Hf2].
  assert (Hf0 : (0 <= Zfloor t)%Z) by (apply Zfloor_lub; simpl; lra).
  assert (Hfn : (Zfloor t < n)%Z) by (apply lt_IZR; lra).
  exists (Z.to_nat (Zfloor t)). split; [lia|].
  rewrite INR_IZR_INZ, Z2Nat.id by done.
  split; nra.
Qed.

Lemma tile_unique (minimum d v : R) (c c' : nat) :
  (0 < d)%R ->
  (minimum + d / 2 + INR c * d - d / 2 <= v)%R ->
  (v < minimum + d / 2 + INR c * d + d / 2)%R ->
  (minimum + d / 2 + INR c' * d - d / 2 <= v)%R ->
  (v < minimum + d / 2 + INR c' * d + d / 2)%R ->
  c = c'.
Proof.
  intros Hd H1 H2 H3 H4.
  assert (Hlt : forall a b : nat, (INR a * d < (INR b + 1) * d)%R -> (a < S b)%nat).
  { intros a b Hab. apply INR_lt. rewrite S_INR.
    by apply (Rmult_lt_reg_r d). }
  assert (c < S c')%nat by (apply Hlt; lra).
  assert (c' < S c)%nat by (apply Hlt; lra).
  lia.
Qed.

Lemma axis_indices_spec self minimum edge_small edge_big a n :
  exists l, axis_indices self minimum edge_small edge_big a n = Ok l /\
    length l = n /\
    forall c, (c < n)%nat ->
      (forall k, k ∈ (nth c l (∅, ∅)).1 <->
         exists r, (k, r) ∈ xyz_frame self /\
           (origin1D minimum edge_small a c - edge_small a / 2 <= axis_value a r)%R /\
           (axis_value a r < origin1D minimum edge_small a c + edge_small a / 2)%R) /\
      (forall k, k ∈ (nth c l (∅, ∅)).2 <->
         exists r, (k, r) ∈ xyz_frame self /\
           (origin1D minimum edge_small a c - edge_big a / 2 <= axis_value a r)%R /\
           (axis_value a r < origin1D minimum edge_small a c + edge_big a / 2)%R).
Proof.
  unfold axis_indices.
  match goal with |- context [traverse ?f _] => set (body := f) end.
  destruct (traverse_is_Ok body (seq 0 n)) as [l Hl].
  { intros c _. unfold body. simpl.
    destruct (interval_labels_spec self a
      (origin1D minimum edge_small a c - edge_small a / 2)
      (origin1D minimum edge_small a c + edge_small a / 2)) as (S1 & -> & _).
    destruct (interval_labels_spec self a
      (origin1D minimum edge_small a c - edge_big a / 2)
      (origin1D minimum edge_small a c + edge_big a / 2)) as (S2 & -> & _).
    by eexists. }
  exists l. split; [done|].
  pose proof (traverse_length _ _ _ Hl) as Hlen. rewrite length_seq in Hlen.
  split; [done|]. intros c Hc.
  destruct (traverse_lookup _ _ _ c c Hl) as (p & Hp & Hbody).
  { by apply lookup_seq. }
  rewrite (nth_lookup_Some _ _ _ _ Hp). unfold body in Hbody. simpl in Hbody.
  destruct (interval_labels_spec self a
    (origin1D minimum edge_small a c - edge_small a / 2)
    (origin1D minimum edge_small a c + edge_small a / 2)) as (S1 & E1 & HS1).
  destruct (interval_labels_spec self a
    (origin1D minimum edge_small a c - edge_big a / 2)
    (origin1D minimum edge_small a c + edge_big a / 2)) as (S2 & E2 & HS2).
  rewrite E1 in Hbody. simpl in Hbody. rewrite E2 in Hbody. injection Hbody as <-.
  split; [exact HS1|exact HS2].
Qed.

Lemma elem_of_cuboids nx ny nz ix iy iz (cell : cuboid_cell) :
  cell ∈ cuboids nx ny nz ix iy iz <->
  exists x y z, (x < nx)%nat /\ (y < ny)%nat /\ (z < nz)%nat /\
    cell = ((x, y, z),
            (PySet ((nth x ix (∅, ∅)).1 ∩ (nth y iy (∅, ∅)).1 ∩ (nth z iz (∅, ∅)).1),
             PySet ((nth x ix (∅, ∅)).2 ∩ (nth y iy (∅, ∅)).2 ∩ (nth z iz (∅, ∅)).2))).
Proof.
  unfold cuboids. rewrite list_elem_of_bind. split.
  - intros (x & Hin & Hx%elem_of_seq).
    apply list_elem_of_bind in Hin as (y & Hin & Hy%elem_of_seq).
    apply list_elem_of_bind in Hin as (z & Hin & Hz%elem_of_seq).
    apply list_elem_of_singleton in Hin. exists x, y, z. repeat split; [lia..|done].
  - intros (x & y & z & Hx & Hy & Hz & ->). exists x. split; [|apply elem_of_seq; lia].
    apply list_elem_of_bind. exists y. split; [|apply elem_of_seq; lia].
    apply list_elem_of_bind. exists z. split; [|apply elem_of_seq; lia].
    by apply list_elem_of_singleton.
Qed.

Lemma frame_rows_agree (frame : DataFrame) k r r' :
  NoDup (frame_index frame) -> (k, r) ∈ frame -> (k, r') ∈ frame -> r = r'.
Proof.
  intros Hnd Hr Hr'.
  pose proof (frame_row_NoDup frame k r Hnd Hr) as E.
  rewrite (frame_row_NoDup frame k r' Hnd Hr') in E. by injection E.
Qed.

Lemma steps_positive self a (mel lo hi extent : R) :
  axis_least self a lo -> axis_greatest self a hi ->
  extent = (hi + 0.01 - (lo - 0.01))%R -> (0 < mel)%R ->
  (0 < extent)%R /\ (1 <= Zceil (extent / mel))%Z.
Proof.
  intros [(k & r & Hr & <-) _] [_ Hhi] -> Hmel.
  specialize (Hhi _ _ Hr).
  assert (Hext : (0 < hi + 0.01 - (axis_value a r - 0.01))%R) by lra.
  split; [done|].
  pose proof (Zceil_bound ((hi + 0.01 - (axis_value a r - 0.01)) / mel)) as [_ Hc].
  assert (Hpos : (0 < (hi + 0.01 - (axis_value a r - 0.01)) / mel)%R).
  { apply Rmult_lt_0_compat; [done|]. by apply Rinv_0_lt_compat. }
  assert (0 < Zceil ((hi + 0.01 - (axis_value a r - 0.01)) / mel))%Z; [|lia].
  apply lt_IZR. lra.
Qed.

(** Every row falls into exactly one small interval of an axis cut into
    [steps] equal parts. *)
Lemma row_in_one_interval self a (lo hi minimum extent : R) (steps : Z) r k :
  axis_least self a lo -> axis_greatest self a hi ->
  minimum = (lo - 0.01)%R -> extent = (hi + 0.01 - (lo - 0.01))%R ->
  (1 <= steps)%Z -> (k, r) ∈ xyz_frame self ->
  (0 < extent / IZR steps)%R /\
  exists c, (c < Z.to_nat steps)%nat /\
    (minimum + extent / IZR steps / 2 + INR c * (extent / IZR steps)
       - extent / IZR steps / 2 <= axis_value a r)%R /\
    (axis_value a r < minimum + extent / IZR steps / 2 + INR c * (extent / IZR steps)
       + extent / IZR steps / 2)%R.
Proof.
  intros Hlo Hhi -> -> Hsteps Hr.
  set (d := ((hi + 0.01 - (lo - 0.01)) / IZR steps)%R).
  assert (Hlohi : (lo <= axis_value a r <= hi)%R).
  { split; [by eapply (proj2 Hlo)|by eapply (proj2 Hhi)]. }
  assert (Hn : (0 < IZR steps)%R) by (apply IZR_lt; lia).
  assert (Hd : (0 < d)%R).
  { unfold d. apply Rmult_lt_0_compat; [lra|]. by apply Rinv_0_lt_compat. }
  split; [done|]. apply tile_exists; [done|lra|].
  replace (IZR steps * d)%R with (hi + 0.01 - (lo - 0.01))%R by (unfold d; field; lra).
  lra.
Qed.

Lemma divide_et_impera_general self mel de minimum extent steps :
  partition_steps self mel = Ok (minimum, extent, steps) ->
  ~ (steps ax_x = 1%Z /\ steps ax_y = 1%Z /\ steps ax_z = 1%Z) ->
  (forall a, 1 <= steps a)%Z ->
  let edge_small a := (extent a / IZR (steps a))%R in
  let edge_big a := (edge_small a + de)%R in
  let n a := Z.to_nat (steps a) in
  exists ix iy iz,
    axis_indices self minimum edge_small edge_big ax_x (n ax_x) = Ok ix /\
    axis_indices self minimum edge_small edge_big ax_y (n ax_y) = Ok iy /\
    axis_indices self minimum edge_small edge_big ax_z (n ax_z) = Ok iz /\
    _divide_et_impera self mel de = Ok (cuboids (n ax_x) (n ax_y) (n ax_z) ix iy iz).
Proof.
  intros Hps Hndeg Hsteps edge_small edge_big n.
  destruct (axis_indices_spec self minimum edge_small edge_big ax_x (n ax_x)) as (ix & Hix & _).
  destruct (axis_indices_spec self minimum edge_small edge_big ax_y (n ax_y)) as (iy & Hiy & _).
  destruct (axis_indices_spec self minimum edge_small edge_big ax_z (n ax_z)) as (iz & Hiz & _).
  exists ix, iy, iz. do 3 (split; [done|]).
  unfold _divide_et_impera. rewrite Hps. simpl.
  rewrite decide_False by done.
  pose proof (Hsteps ax_x). pose proof (Hsteps ax_y). pose proof (Hsteps ax_z).
  rewrite decide_False by lia. rewrite decide_False by lia.
  fold edge_small. fold (n ax_x) (n ax_y) (n ax_z).
  change (fun a : axis => (extent a / IZR (steps a) + de)%R) with edge_big.
  rewrite Hix. simpl. rewrite Hiy. simpl. rewrite Hiz. done.
Qed.

(** With interval bounds that are exact real numbers: for a non-empty
    molecule with distinct labels, a positive [maximum_edge_length] and a
    non-negative [difference_edge], the small sets of the cells are pairwise
    disjoint and cover exactly the labels, each inside its big set. *)
Lemma divide_et_impera_exact_partition self mel de :
  NoDup (frame_index (xyz_frame self)) -> xyz_frame self <> [] ->
  (0 < mel)%R -> (0 <= de)%R ->
  exists cube_dic, _divide_et_impera self mel de = Ok cube_dic /\
    (forall c1 c2, c1 ∈ cube_dic -> c2 ∈ cube_dic -> c1.1 <> c2.1 ->
       index_set c1.2.1 ## index_set c2.2.1) /\
    (forall k, k ∈ frame_index (xyz_frame self) <->
       exists c, c ∈ cube_dic /\ k ∈ index_set c.2.1) /\
    (forall c, c ∈ cube_dic -> index_set c.2.1 ⊆ index_set c.2.2).
Proof.
  intros Hnd Hne Hmel Hde.
  destruct (partition_steps_spec self mel Hne) as (minimum & extent & steps & Hps & Hax); [lra|].
  destruct (decide (steps ax_x = 1%Z /\ steps ax_y = 1%Z /\ steps ax_z = 1%Z)) as [(Hx & Hy & Hz)|Hndeg].
  { eexists. split; [by eapply divide_et_impera_one_step|]. split; [|split].
    - intros c1 c2 ->%list_elem_of_singleton ->%list_elem_of_singleton. done.
    - intros k. split.
      + intros Hk. eexists. split; [by apply list_elem_of_singleton|]. simpl.
        by apply elem_of_list_to_set.
      + intros (c & ->%list_elem_of_singleton & Hk). simpl in Hk.
        by apply elem_of_list_to_set in Hk.
    - by intros c ->%list_elem_of_singleton. }
  assert (Hsteps : forall a, (1 <= steps a)%Z).
  { intros a. destruct (Hax a) as (lo & hi & Hlo & Hhi & _ & Hext & ->).
    by eapply steps_positive. }
  destruct (divide_et_impera_general self mel de _ _ _ Hps Hndeg Hsteps)
    as (ix & iy & iz & Hix & Hiy & Hiz & ->).
  set (edge_small := fun a => (extent a / IZR (steps a))%R) in *.
  set (edge_big := fun a => (edge_small a + de)%R) in *.
  set (n := fun a => Z.to_nat (steps a)) in *.
  assert (Hall : forall a, exists l,
    axis_indices self minimum edge_small edge_big a (n a) = Ok l /\
    (forall k r, (k, r) ∈ xyz_frame self ->
       exists c, (c < n a)%nat /\ k ∈ (nth c l (∅, ∅)).1) /\
    (forall k c c', (c < n a)%nat -> (c' < n a)%nat ->
       k ∈ (nth c l (∅, ∅)).1 -> k ∈ (nth c' l (∅, ∅)).1 -> c = c') /\
    (forall k c, (c < n a)%nat -> k ∈ (nth c l (∅, ∅)).1 ->
       k ∈ frame_index (xyz_frame self) /\ k ∈ (nth c l (∅, ∅)).2)).
  { intros a. destruct (axis_indices_spec self minimum edge_small edge_big a (n a))
      as (l & Hl & _ & Hspec).
    exists l. split; [done|].
    destruct (Hax a) as (lo & hi & Hlo & Hhi & Hmin & Hext & _).
    split; [|split].
    - intros k r Hr.
      destruct (row_in_one_interval self a lo hi _ _ _ r k Hlo Hhi Hmin Hext (Hsteps a) Hr)
        as (_ & c & Hc & H1 & H2).
      exists c. split; [done|]. apply (Hspec c Hc). exists r. split; [done|].
      unfold origin1D, edge_small. split; lra.
    - intros k c c' Hc Hc' (r & Hr & H1 & H2)%(Hspec c Hc) (r' & Hr' & H3 & H4)%(Hspec c' Hc').
      rewrite <- (frame_rows_agree _ _ _ _ Hnd Hr Hr') in H3, H4.
      destruct (row_in_one_interval self a lo hi _ _ _ r k Hlo Hhi Hmin Hext (Hsteps a) Hr)
        as (Hd & _).
      unfold origin1D, edge_small in *.
      by eapply (tile_unique (minimum a) (extent a / IZR (steps a)) (axis_value a r)).
    - intros k c Hc Hk. pose proof Hk as (r & Hr & H1 & H2)%(Hspec c Hc). split.
      + apply list_elem_of_fmap. by exists (k, r).
      + apply (Hspec c Hc). exists r. split; [done|]. unfold edge_big. split; lra. }
  destruct (Hall ax_x) as (ix' & Hix' & Hxe & Hxu & Hxs).
  destruct (Hall ax_y) as (iy' & Hiy' & Hye & Hyu & Hys).
  destruct (Hall ax_z) as (iz' & Hiz' & Hze & Hzu & Hzs).
  assert (Ok ix = Ok ix') as [= <-] by (rewrite <- Hix; exact Hix').
  assert (Ok iy = Ok iy') as [= <-] by (rewrite <- Hiy; exact Hiy').
  assert (Ok iz = Ok iz') as [= <-] by (rewrite <- Hiz; exact Hiz').
  eexists. split; [done|]. split; [|split].
  - intros c1 c2 (x & y & z & Hx & Hy & Hz & ->)%elem_of_cuboids
                 (x' & y' & z' & Hx' & Hy' & Hz' & ->)%elem_of_cuboids Hkey.
    simpl in *. intros k Hk1 Hk2.
    apply elem_of_intersection in Hk1 as [[Hk1x Hk1y]%elem_of_intersection Hk1z].
    apply elem_of_intersection in Hk2 as [[Hk2x Hk2y]%elem_of_intersection Hk2z].
    apply Hkey. f_equal; [f_equal|]; eauto.
  - intros k. split.
    + intros ([k' r] & -> & Hr)%list_elem_of_fmap. simpl.
      destruct (Hxe _ _ Hr) as (x & Hx & Hkx).
      destruct (Hye _ _ Hr) as (y & Hy & Hky).
      destruct (Hze _ _ Hr) as (z & Hz & Hkz).
      eexists. split; [apply elem_of_cuboids; by exists x, y, z|].
      simpl. by rewrite !elem_of_intersection.
    + intros (c & (x & y & z & Hx & Hy & Hz & ->)%elem_of_cuboids & Hk). simpl in Hk.
      apply elem_of_intersection in Hk as [[Hkx _]%elem_of_intersection _].
      by apply (Hxs k x Hx).
  - intros c (x & y & z & Hx & Hy & Hz & ->)%elem_of_cuboids k Hk. simpl in *.
    apply elem_of_intersection in Hk as [[Hkx Hky]%elem_of_intersection Hkz].
    rewrite !elem_of_intersection.
    split; [split|]; [by apply (Hxs k x Hx)|by apply (Hys k y Hy)|by apply (Hzs k z Hz)].
Qed.

(** ** Which bonds the valency arbitration removes *)

(** The entry [(i, j)] may be cut: one of its two atoms, [x], has at least
    [valency] other positive entries in its row that are no smaller. *)
Definition justified (n : nat) (tv : list nat) (ov0 : ndarray) (i j : nat) : Prop :=
  exists x y, ((x = i /\ y = j) \/ (x = j /\ y = i)) /\
    exists T : list nat, NoDup T /\ length T = nth x tv 0%nat /\ (y ∉ T) /\
      forall y', y' ∈ T -> (y' < n)%nat /\ (0 < ov0 x y')%R /\ (ov0 x y <= ov0 x y')%R.

Lemma cut_list_kept n tv ov0 ov index y :
  below ov ov0 ->
  y ∈ (drop (nth index tv 0%nat) (cut_list n tv ov index)).*1 ->
  let T := (take (nth index tv 0%nat) (cut_list n tv ov index)).*1 in
  NoDup T /\ length T = nth index tv 0%nat /\ (y ∉ T) /\
  forall y', y' ∈ T -> (y' < n)%nat /\ (0 < ov0 index y')%R /\ (ov0 index y <= ov0 index y')%R.
Proof.
  intros Hb Hy T.
  pose proof (cut_list_split n tv ov index (nth index tv 0%nat)) as Hperm.
  assert (Hnd : NoDup (T ++ (drop (nth index tv 0%nat) (cut_list n tv ov index)).*1)).
  { unfold T. rewrite Hperm. apply NoDup_nonzero_row. }
  apply NoDup_app in Hnd as (HndT & Hdisj & _).
  assert (Hrow : forall z, z ∈ (cut_list n tv ov index).*1 ->
            (z < n)%nat /\ (0 < ov index z)%R /\ ov index z = ov0 index z).
  { intros z Hz. rewrite cut_list_perm in Hz.
    apply elem_of_nonzero_row in Hz as [Hzn Hg]. split; [done|].
    pose proof (below_gt0 _ _ _ _ Hb Hg) as E.
    apply bool_decide_eq_true in Hg. done. }
  split; [done|]. split; [|split].
  - unfold T. rewrite length_fmap, length_take.
    apply list_elem_of_fmap in Hy as (p & _ & Hp).
    apply list_elem_of_lookup in Hp as [i Hi]. apply lookup_lt_Some in Hi.
    rewrite length_drop in Hi. lia.
  - intros HyT. by eapply Hdisj.
  - intros y' Hy'.
    apply list_elem_of_fmap in Hy' as (p' & -> & Hp').
    apply list_elem_of_fmap in Hy as (p & -> & Hp).
    pose proof (sort_values_sorted _ false
      ((fun j => (j, ov index j)) <$> nonzero_row (gt0 ov) n index)) as Hs.
    fold (cut_list n tv ov index) in Hs.
    rewrite <- (take_drop (nth index tv 0%nat) (cut_list n tv ov index)) in Hs.
    pose proof (StronglySorted_app_elem _ _ _ _ _ Hs Hp' Hp) as Hord.
    unfold value_order in Hord.
    assert (Hp1 : p ∈ cut_list n tv ov index).
    { rewrite <- (take_drop (nth index tv 0%nat)). apply elem_of_app. by right. }
    assert (Hp1' : p' ∈ cut_list n tv ov index).
    { rewrite <- (take_drop (nth index tv 0%nat)). apply elem_of_app. by left. }
    rewrite (cut_list_value _ _ _ _ _ Hp1), (cut_list_value _ _ _ _ _ Hp1') in Hord.
    destruct (Hrow p.1) as (_ & _ & <-); [apply list_elem_of_fmap; by exists p|].
    destruct (Hrow p'.1) as (? & ? & <-); [apply list_elem_of_fmap; by exists p'|].
    done.
Qed.

Lemma cut_array_justified n tv ov0 ov index i j :
  below ov ov0 ->
  (0 < ov i j)%R -> ~ (0 < cut_array n tv ov index i j)%R ->
  justified n tv ov0 i j.
Proof.
  intros Hb Hpos Hcut. unfold cut_array in Hcut. rewrite cut_bonds_entries in Hcut.
  case_bool_decide as Hc; [|done].
  destruct Hc as [[Hi ->]|[-> Hj]].
  - exists index, i. split; [by right|].
    eexists. by apply (cut_list_kept n tv ov0 ov index i Hb Hi).
  - exists index, j. split; [by left|].
    eexists. by apply (cut_list_kept n tv ov0 ov index j Hb Hj).
Qed.

Lemma cut_loop_justified n tv l ov0 ov :
  below ov ov0 ->
  (forall i j, (0 < ov0 i j)%R -> ~ (0 < ov i j)%R -> justified n tv ov0 i j) ->
  forall i j, (0 < ov0 i j)%R -> ~ (0 < cut_loop n tv l ov i j)%R -> justified n tv ov0 i j.
Proof.
  revert ov. induction l as [|index l IH]; intros ov Hb Hinv; [done|].
  change (cut_loop n tv (index :: l) ov) with (cut_loop n tv l (cut_array n tv ov index)).
  apply IH.
  - eapply below_trans; [apply cut_array_below|done].
  - intros i j Hov0 Hcut. destruct (decide (0 < ov i j)%R) as [Hpos|Hneg].
    + by eapply cut_array_justified.
    + by apply Hinv.
Qed.

Lemma final_array_justified n tv ov0 i j :
  (0 < ov0 i j)%R -> ~ (0 < final_array true n tv ov0 i j)%R -> justified n tv ov0 i j.
Proof.
  apply cut_loop_justified; [apply below_refl|]. intros ? ? ? ?. done.
Qed.

(** After the loop no row has more positive entries than its valency. *)
Lemma final_array_degree n tv ov0 i :
  (i < n)%nat ->
  (length (nonzero_row (gt0 (final_array true n tv ov0)) n i) <= nth i tv 0%nat)%nat.
Proof.
  intros Hi. simpl.
  destruct (decide (i ∈ oversaturated n tv ov0)) as [Hin|Hout].
  - by apply cut_loop_degree.
  - etrans; [apply nonzero_row_below_length, cut_loop_below|].
    unfold oversaturated in Hout. rewrite list_elem_of_filter, elem_of_seq in Hout.
    apply not_and_l in Hout as [Hout|Hout]; lia.
Qed.

(** ** From array positions to labels *)

Lemma size_list_to_set_le (l : list Z) : (size (list_to_set l : gset Z) <= length l)%nat.
Proof.
  induction l as [|x l IH]; simpl; [done|].
  rewrite size_union_alt, size_singleton.
  assert (Hs : (size (list_to_set l ∖ {[x]} : gset Z) <= size (list_to_set l : gset Z))%nat).
  { apply subseteq_size. by intros y [? _]%elem_of_difference. }
  lia.
Qed.

Lemma lookup_nth_label (include : list Z) (y : nat) :
  (y < length include)%nat -> include !! y = Some (nth y include 0%Z).
Proof.
  intros Hy. destruct (lookup_lt_is_Some_2 _ _ Hy) as [k Hk].
  by rewrite (nth_lookup_Some _ _ _ _ Hk).
Qed.

Lemma NoDup_labels (include : list Z) (T : list nat) :
  NoDup include -> NoDup T -> (forall y, y ∈ T -> (y < length include)%nat) ->
  NoDup ((fun y => nth y include 0%Z) <$> T).
Proof.
  intros Hnd HT Hlt. apply NoDup_fmap_2_strong; [|done].
  intros y y' Hy Hy' E.
  eapply (NoDup_lookup include); [done| |].
  - apply lookup_nth_label. by apply Hlt.
  - rewrite E. apply lookup_nth_label. by apply Hlt.
Qed.

Lemma linked_row (include : list Z) bin i A B :
  NoDup include -> include !! i = Some A ->
  linked include bin A B <-> exists j, include !! j = Some B /\ bin i j = true.
Proof.
  intros Hnd Hi. split.
  - intros (i' & j & Hi' & Hj & Hb).
    rewrite (NoDup_lookup _ _ _ _ Hnd Hi Hi'). eauto.
  - intros (j & Hj & Hb). by exists i, j.
Qed.

Lemma linked_size (include : list Z) bin i A (s : gset Z) :
  NoDup include -> include !! i = Some A ->
  (forall B, B ∈ s -> linked include bin A B) ->
  (size s <= length (nonzero_row bin (length include) i))%nat.
Proof.
  intros Hnd Hi Hs.
  etrans; [|etrans; [apply (size_list_to_set_le
    ((fun y => nth y include 0%Z) <$> nonzero_row bin (length include) i))|]].
  - apply subseteq_size. intros B HB%Hs.
    apply (linked_row _ _ _ _ _ Hnd Hi) in HB as (j & Hj & Hb).
    apply elem_of_list_to_set, list_elem_of_fmap. exists j. split.
    + by rewrite (nth_lookup_Some _ _ _ _ Hj).
    + apply elem_of_nonzero_row. split; [by eapply lookup_lt_Some|done].
  - by rewrite length_fmap.
Qed.

(** C3, as the code has it: with valency arbitration on and partitioning off,
    no atom keeps more bonds than its valency; the bonds kept are candidate
    bonds (positive overlap) and are kept on both sides; and a candidate bond
    is dropped only when one of its two atoms has at least [valency] other
    candidate bonds whose overlap is no smaller. *)
Theorem get_bonds_valency self mp mel de set_lookup g self' :
  NoDup (frame_index (xyz_frame self)) ->
  get_bonds atom_properties self mp mel de true false set_lookup false = Ok (g, self') ->
  exists bd vd bsd,
    preparation_of_variables atom_properties self mp = Ok (bd, vd, bsd) /\
    forall A, A ∈ frame_index (xyz_frame self) ->
      exists s vA, g !! A = Some s /\ vd !! A = Some vA /\
        (size s <= vA)%nat /\
        (forall B, B ∈ s ->
           B ∈ frame_index (xyz_frame self) /\ A <> B /\
           (exists o, overlap_of self bsd A B o /\ (0 < o)%R) /\
           exists sB, g !! B = Some sB /\ A ∈ sB) /\
        (forall B o, B ∈ frame_index (xyz_frame self) -> A <> B ->
           overlap_of self bsd A B o -> (0 < o)%R -> B ∉ s ->
           exists X Y vX, ((X = A /\ Y = B) \/ (X = B /\ Y = A)) /\
             vd !! X = Some vX /\
             exists T : gset Z, size T = vX /\ (Y ∉ T) /\ (X ∉ T) /\
               forall Y', Y' ∈ T ->
                 Y' ∈ frame_index (xyz_frame self) /\
                 exists o', overlap_of self bsd X Y' o' /\ (0 < o')%R /\ (o <= o')%R).
Proof.
  intros Hnd [E _]%get_bonds_fresh.
  pose proof (complete_calculation_symmetric _ _ _ _ _ _ _ E) as Hgsym.
  unfold complete_calculation in E.
  apply bind_Ok in E as ([[bd vd] bsd] & Hprep & E).
  exists bd, vd, bsd. split; [done|].
  apply preparation_of_variables_spec in Hprep as [Hempty Hdom].
  apply get_bonds_local_spec in E as (ov0 & tv & Hval & Hsym & Htv & Hspec).
  set (include := frame_index (xyz_frame self)) in *.
  set (n := length include) in *.
  set (ovd := fill_diagonal ov0 (-1)) in *.
  set (fin := final_array true n tv ovd) in *.
  assert (Hfin : below fin ovd) by apply final_array_below.
  assert (Hovd : forall i j, (0 < ovd i j)%R -> i <> j /\ ovd i j = ov0 i j).
  { intros i j. unfold ovd, fill_diagonal. case_decide; [lra|done]. }
  assert (Hlink : forall i j A B, include !! i = Some A -> include !! j = Some B ->
            gt0 fin i j = true ->
            A <> B /\ overlap_of self bsd A B (ov0 i j) /\ (0 < ov0 i j)%R).
  { intros i j A B Hi Hj Hg. pose proof (below_gt0 _ _ _ _ Hfin Hg) as Eij.
    apply bool_decide_eq_true in Hg. rewrite Eij in Hg.
    destruct (Hovd i j Hg) as [Hne Eov]. rewrite Eov in Hg. split; [|split; [by apply Hval|done]].
    intros ->. apply Hne. by eapply NoDup_lookup. }
  assert (Hvalency : forall x X, include !! x = Some X -> vd !! X = Some (nth x tv 0%nat)).
  { intros x X Hx. destruct (Forall2_lookup_l _ _ _ _ _ Htv Hx) as (v & Hv & HX).
    by rewrite (nth_lookup_Some _ _ _ _ Hv). }
  intros A HA. destruct (Hdom A HA) as ([s0 Hs0] & _). specialize (Hspec A).
  rewrite Hs0 in Hspec. destruct Hspec as (s & Hs & HB).
  rewrite (Hempty _ _ Hs0) in HB.
  assert (HB' : forall B, B ∈ s <-> linked include (gt0 fin) A B).
  { intros B. rewrite HB. split; [intros [?%elem_of_empty|?]|]; tauto. }
  clear HB. apply list_elem_of_lookup in HA as [i Hi].
  exists s, (nth i tv 0%nat). split; [done|]. split; [by apply Hvalency|].
  split; [|split].
  - etrans; [apply (linked_size include (gt0 fin) i A s Hnd Hi); by intros B ?%HB'|].
    apply final_array_degree. by eapply lookup_lt_Some.
  - intros B HBs. pose proof HBs as (i' & j & Hi' & Hj & Hg)%HB'.
    destruct (Hlink _ _ _ _ Hi' Hj Hg) as (Hne & Hov & Hpos).
    split; [by eapply list_elem_of_lookup_2|]. split; [done|]. split; [eauto|].
    by eapply Hgsym.
  - intros B o HBin Hne Ho Hpos HBs. apply list_elem_of_lookup in HBin as [j Hj].
    pose proof (overlap_of_fun _ _ _ _ _ _ (Hval _ _ _ _ Hi Hj) Ho) as Eo.
    assert (Hij : i <> j) by congruence.
    assert (Hcand : (0 < ovd i j)%R).
    { unfold ovd, fill_diagonal. rewrite decide_False by done. lra. }
    assert (Hgone : ~ (0 < fin i j)%R).
    { intros Hf. apply HBs, HB'. exists i, j. do 2 (split; [done|]).
      by apply bool_decide_eq_true. }
    destruct (final_array_justified n tv ovd i j Hcand Hgone)
      as (x & y & Hxy & T & HT & Hlen & HyT & HTs).
    assert (Hxy' : exists X Y, include !! x = Some X /\ include !! y = Some Y /\
              ((X = A /\ Y = B) \/ (X = B /\ Y = A)) /\ x <> y /\ ovd x y = o).
    { destruct Hxy as [[-> ->]|[-> ->]].
      - exists A, B. do 2 (split; [done|]). split; [by left|]. split; [done|].
        unfold ovd, fill_diagonal. rewrite decide_False by done. lra.
      - exists B, A. do 2 (split; [done|]). split; [by right|]. split; [by intros ->|].
        unfold ovd, fill_diagonal. rewrite decide_False by (by intros ->).
        rewrite (Hsym j i). lra. }
    destruct Hxy' as (X & Y & Hx & Hy & HXY & Hxney & Hoxy).
    exists X, Y, (nth x tv 0%nat). split; [done|]. split; [by apply Hvalency|].
    assert (HTn : forall y', y' ∈ T -> (y' < length include)%nat) by (intros y' ?%HTs; tauto).
    exists (list_to_set ((fun y' => nth y' include 0%Z) <$> T)).
    assert (Hkey : forall Y', Y' ∈ (list_to_set ((fun y' => nth y' include 0%Z) <$> T) : gset Z) <->
              exists y', y' ∈ T /\ include !! y' = Some Y').
    { intros Y'. rewrite elem_of_list_to_set, list_elem_of_fmap. split.
      - intros (y' & -> & Hy'). exists y'. split; [done|]. by apply lookup_nth_label, HTn.
      - intros (y' & Hy' & Hl). exists y'. split; [|done].
        by rewrite (nth_lookup_Some _ _ _ _ Hl). }
    split; [|split; [|split]].
    + rewrite size_list_to_set by (by apply NoDup_labels). by rewrite length_fmap.
    + intros (y' & Hy' & Hl)%Hkey. apply HyT.
      by rewrite (NoDup_lookup _ _ _ _ Hnd Hy Hl).
    + intros (y' & Hy' & Hl)%Hkey.
      destruct (HTs y' Hy') as (_ & Hp & _). apply Hovd in Hp as [Hp _].
      apply Hp. exact (NoDup_lookup _ _ _ _ Hnd Hx Hl).
    + intros Y' (y' & Hy' & Hl)%Hkey. split; [by eapply list_elem_of_lookup_2|].
      destruct (HTs y' Hy') as (_ & Hp & Hle). rewrite Hoxy in Hle.
      destruct (Hovd _ _ Hp) as [_ Eov]. rewrite Eov in Hp, Hle.
      exists (ov0 x y'). split; [by apply Hval|done].
Qed.

(** ** [get_bonds] returns *)

Lemma divide_et_impera_big_subset self mel de cube_dic (c : cuboid_cell) k :
  _divide_et_impera self mel de = Ok cube_dic ->
  c ∈ cube_dic -> k ∈ index_list c.2.2 -> k ∈ frame_index (xyz_frame self).
Proof.
  unfold _divide_et_impera. intros E.
  apply bind_Ok in E as ([[minimum extent] steps] & Hps & E).
  case_decide.
  { injection E as <-. by intros ->%list_elem_of_singleton. }
  case_decide; [done|]. case_decide; [done|].
  apply bind_Ok in E as (ix & Hix & E). apply bind_Ok in E as (iy & Hiy & E).
  apply bind_Ok in E as (iz & Hiz & [= <-]).
  intros (x & y & z & Hx & Hy & Hz & ->)%elem_of_cuboids. simpl.
  rewrite elem_of_iter_order, !elem_of_intersection. intros [[Hk _] _].
  match type of Hix with axis_indices _ ?mi ?es ?eb _ ?n = _ =>
    destruct (axis_indices_spec self mi es eb ax_x n) as (ix' & Hix' & _ & Hspec) end.
  rewrite Hix in Hix'. injection Hix' as <-.
  apply (Hspec x Hx) in Hk as (r & Hr & _).
  apply list_elem_of_fmap. by exists (k, r).
Qed.

Lemma divide_et_impera_is_Ok self mel de :
  xyz_frame self <> [] -> (0 < mel)%R -> is_Ok (_divide_et_impera self mel de).
Proof.
  intros Hne Hmel.
  destruct (partition_steps_spec self mel Hne) as (minimum & extent & steps & Hps & Hax); [lra|].
  destruct (decide (steps ax_x = 1%Z /\ steps ax_y = 1%Z /\ steps ax_z = 1%Z)) as [(Hx & Hy & Hz)|Hndeg].
  { eexists. by eapply divide_et_impera_one_step. }
  assert (Hsteps : forall a, (1 <= steps a)%Z).
  { intros a. destruct (Hax a) as (lo & hi & Hlo & Hhi & _ & Hext & ->).
    by eapply steps_positive. }
  destruct (divide_et_impera_general self mel de _ _ _ Hps Hndeg Hsteps)
    as (ix & iy & iz & _ & _ & _ & ->).
  by eexists.
Qed.



Lemma foldlM_is_Ok {A B} (P : B -> Prop) (f : B -> A -> result B) l b :
  (forall b a, a ∈ l -> P b -> exists b', f b a = Ok b' /\ P b') ->
  P b -> is_Ok (foldlM f b l).
Proof.
  revert b. induction l as [|a l IH]; intros b Hf Hb; simpl; [by eexists|].
  destruct (Hf b a) as (b' & -> & Hb'); [left|done|]. simpl.
  apply IH; [|done]. intros b0 a0 Ha0. apply Hf. by right.
Qed.

Lemma complete_calculation_is_Ok self mp mel de uv dei :
  (forall k r, (k, r) ∈ xyz_frame self -> is_Some (atom_properties !! col_atom r)) ->
  (dei = true -> xyz_frame self <> [] /\ (0 < mel)%R) ->
  is_Ok (complete_calculation atom_properties self mp mel de uv dei).
Proof.
  intros Htab Hdei. unfold complete_calculation.
  destruct (preparation_of_variables_is_Ok self mp Htab) as [[[bd vd] bsd] Hprep].
  rewrite Hprep. simpl.
  apply preparation_of_variables_spec in Hprep as [_ Hdom].
  set (P := fun d : gmap Z (gset Z) =>
              forall k, k ∈ frame_index (xyz_frame self) -> is_Some (d !! k)).
  assert (Hstep : forall d include,
            (forall k, k ∈ include -> k ∈ frame_index (xyz_frame self)) -> P d ->
            exists d', get_bonds_local self d vd bsd uv include = Ok d' /\ P d').
  { intros d include Hincl Hd.
    destruct (get_bonds_local_is_Ok self d vd bsd uv include) as [d' Hd'].
    - intros A HA%Hincl. split; [done|]. split; [by apply Hd|]. split; by apply Hdom.
    - exists d'. split; [done|]. intros k Hk.
      apply (get_bonds_local_dom _ _ _ _ _ _ _ k Hd'). by apply Hd. }
  assert (HP : P bd) by (intros k Hk; by apply Hdom).
  destruct dei.
  - destruct Hdei as [Hne Hmel]; [done|].
    destruct (divide_et_impera_is_Ok self mel de Hne Hmel) as [cube_dic Hcube].
    rewrite Hcube. simpl. apply (foldlM_is_Ok P); [|done].
    intros d c Hc Hd. apply Hstep; [|done].
    intros k Hk. by eapply divide_et_impera_big_subset.
  - destruct (Hstep bd (frame_index (xyz_frame self))) as (d' & -> & _); [done..|].
    by eexists.
Qed.

Lemma get_bonds_is_Ok self mp mel de uv use_lookup set_lookup dei :
  (forall k r, (k, r) ∈ xyz_frame self -> is_Some (atom_properties !! col_atom r)) ->
  (dei = true -> xyz_frame self <> [] /\ (0 < mel)%R) ->
  is_Ok (get_bonds atom_properties self mp mel de uv use_lookup set_lookup dei).
Proof.
  intros Htab Hdei. unfold get_bonds.
  destruct (complete_calculation_is_Ok self mp mel de uv dei Htab Hdei) as [g ->]. simpl.
  destruct use_lookup; [destruct (__bond_dic self)|]; by eexists.
Qed.

End BondFacts.

(** ** The values [preparation_of_variables] assigns *)

Lemma dict_zip_NoDup `{Countable K} {V} (keys : list K) (values : list V) i k v :
  NoDup keys -> length keys = length values ->
  keys !! i = Some k -> values !! i = Some v ->
  dict_zip keys values !! k = Some v.
Proof.
  intros Hnd Hlen Hk Hv. unfold dict_zip. apply elem_of_list_to_map_1.
  - rewrite fmap_reverse, reverse_Permutation, fst_zip by lia. done.
  - rewrite elem_of_reverse. apply list_elem_of_lookup. exists i.
    by apply lookup_zip_Some.
Qed.

Lemma preparation_of_variables_values atom_properties self mp bd vd bsd k r p :
  NoDup (frame_index (xyz_frame self)) ->
  preparation_of_variables atom_properties self mp = Ok (bd, vd, bsd) ->
  (k, r) ∈ xyz_frame self -> atom_properties !! col_atom r = Some p ->
  vd !! k = Some (match mp ≫= (fun m => m !! k) with
                  | Some m => mod_valency m | None => valency p end) /\
  bsd !! k = Some (match mp ≫= (fun m => m !! k) with
                   | Some m => mod_bond_size m | None => bond_size p end).
Proof.
  intros Hnd E Hr Hp. unfold preparation_of_variables in E.
  apply bind_Ok in E as (vs & Hvs & E). apply bind_Ok in E as (bs & Hbs & E).
  assert (Hk : exists i, frame_index (xyz_frame self) !! i = Some k).
  { apply list_elem_of_lookup, list_elem_of_fmap. by exists (k, r). }
  destruct Hk as [i Hi].
  pose proof (frame_row_NoDup _ _ _ Hnd Hr) as Hrow.
  destruct (traverse_lookup _ _ _ _ _ Hvs Hi) as (v & Hv & Hfv).
  destruct (traverse_lookup _ _ _ _ _ Hbs Hi) as (b & Hb & Hfb).
  rewrite Hrow in Hfv, Hfb. simpl in Hfv, Hfb. unfold getitem in Hfv, Hfb.
  rewrite Hp in Hfv, Hfb. simpl in Hfv, Hfb. injection Hfv as <-. injection Hfb as <-.
  apply traverse_length in Hvs, Hbs.
  pose proof (dict_zip_NoDup _ vs i k _ Hnd (eq_sym Hvs) Hi Hv) as Hdv.
  pose proof (dict_zip_NoDup _ bs i k _ Hnd (eq_sym Hbs) Hi Hb) as Hdb.
  destruct mp as [m|]; simpl.
  - rewrite modified_properties_fold in E. injection E as <- <- <-.
    destruct (m !! k) as [mk|] eqn:Emk.
    + split; apply lookup_union_Some_l; by rewrite lookup_fmap, Emk.
    + split; (rewrite lookup_union_r; [done|by rewrite lookup_fmap, Emk]).
  - by injection E as <- <- <-.
Qed.

(** ** A chain of three hydrogen atoms *)

Definition hydrogen_table : gmap string atom_property :=
  {[ "H"%string := {| valency := 1; bond_size := 0.6; mass := 1 |} ]}.

Definition H_at (x : R) : atom_row :=
  {| col_atom := "H"; col_x := x; col_y := 0; col_z := 0 |}.

(** Atoms 0, 1 and 2 on the x axis, one unit apart. *)
Definition chain3 : Cartesian := __init__ [(0%Z, H_at 0); (1%Z, H_at 1); (2%Z, H_at 2)].

Ltac frame_cases H :=
  repeat (apply elem_of_cons in H as [H|H]; [injection H as -> ->|]);
  [..|by apply elem_of_nil in H].

Lemma NoDup_three (a b c : Z) : a <> b -> a <> c -> b <> c -> NoDup [a; b; c].
Proof.
  intros. repeat (apply NoDup_cons; split); try apply NoDup_nil;
    rewrite ?elem_of_cons, ?elem_of_nil; tauto.
Qed.

Lemma chain3_NoDup : NoDup (frame_index (xyz_frame chain3)).
Proof. by apply NoDup_three. Qed.

Lemma chain3_table k r :
  (k, r) ∈ xyz_frame chain3 -> is_Some (hydrogen_table !! col_atom r).
Proof. intros Hin. frame_cases Hin; by eexists. Qed.

Lemma one_step self a lo hi mel :
  axis_least self a lo -> axis_greatest self a hi ->
  (0 < mel)%R -> (hi - lo + 0.02 <= mel)%R ->
  Zceil ((hi + 0.01 - (lo - 0.01)) / mel) = 1%Z.
Proof.
  intros Hlo Hhi Hmel Hle.
  destruct (steps_positive self a mel lo hi _ Hlo Hhi eq_refl Hmel) as [Hext _].
  apply Zceil_eq. split.
  - replace (IZR 1 - 1)%R with 0%R by lra.
    apply Rmult_lt_0_compat; [done|]. by apply Rinv_0_lt_compat.
  - apply (Rmult_le_reg_r mel); [done|].
    replace ((hi + 0.01 - (lo - 0.01)) / mel * mel)%R with (hi + 0.01 - (lo - 0.01))%R
      by (field; lra).
    lra.
Qed.

Lemma partition_one_step `{Sorter} self mel (lo hi : axis -> R) :
  xyz_frame self <> [] -> (0 < mel)%R ->
  (forall a, axis_least self a (lo a) /\ axis_greatest self a (hi a) /\
             (hi a - lo a + 0.02 <= mel)%R) ->
  exists minimum extent steps,
    partition_steps self mel = Ok (minimum, extent, steps) /\
    steps ax_x = 1%Z /\ steps ax_y = 1%Z /\ steps ax_z = 1%Z.
Proof.
  intros Hne Hmel Hax.
  destruct (partition_steps_spec self mel Hne) as (minimum & extent & steps & Hps & Hspec); [lra|].
  exists minimum, extent, steps. split; [done|].
  assert (Hone : forall a, steps a = 1%Z).
  { intros a. destruct (Hspec a) as (lo' & hi' & Hlo' & Hhi' & _ & -> & ->).
    destruct (Hax a) as (Hlo & Hhi & Hle).
    rewrite (axis_least_unique _ _ _ _ Hlo' Hlo), (axis_greatest_unique _ _ _ _ Hhi' Hhi).
    by eapply one_step. }
  auto.
Qed.

Lemma chain3_steps :
  exists minimum extent steps,
    partition_steps chain3 25 = Ok (minimum, extent, steps) /\
    steps ax_x = 1%Z /\ steps ax_y = 1%Z /\ steps ax_z = 1%Z.
Proof.
  apply (partition_one_step chain3 25
           (fun a => 0%R) (fun a => match a with ax_x => 2%R | _ => 0%R end));
    [done|lra|].
  intros a. split; [|split].
  - split.
    + exists 0%Z, (H_at 0). split; [left|by destruct a].
    + intros k r Hin. frame_cases Hin; destruct a; simpl; lra.
  - split.
    + destruct a; [exists 2%Z, (H_at 2)|exists 0%Z, (H_at 0)..];
        (split; [simpl; rewrite !elem_of_cons; tauto|done]).
    + intros k r Hin. frame_cases Hin; destruct a; simpl; lra.
  - destruct a; lra.
Qed.

Lemma get_bonds_symmetric_witness :
  exists g self',
    (forall g0, __bond_dic chain3 = Some g0 -> symmetric_graph g0) /\
    get_bonds hydrogen_table chain3 None 25 6 true false true true = Ok (g, self') /\
    (forall A B sa, g !! A = Some sa -> B ∈ sa -> exists sb, g !! B = Some sb /\ A ∈ sb) /\
    (forall g0, __bond_dic self' = Some g0 -> symmetric_graph g0).
Proof.
  assert (Hcache : forall g0, __bond_dic chain3 = Some g0 -> symmetric_graph g0)
    by (intros g0; discriminate).
  destruct (get_bonds_is_Ok hydrogen_table chain3 None 25 6 true false true true)
    as [[g self'] E]; [exact chain3_table|intros _; split; [done|lra]|].
  exists g, self'. split; [exact Hcache|]. split; [exact E|].
  exact (get_bonds_symmetric hydrogen_table chain3 None 25 6 true false true true g self'
           Hcache E).
Defined.

Lemma get_bonds_overlap_iff_witness :
  exists g self',
    NoDup (frame_index (xyz_frame chain3)) /\
    get_bonds hydrogen_table chain3 None 25 6 false false true false = Ok (g, self') /\
    exists bd vd bsd,
      preparation_of_variables hydrogen_table chain3 None = Ok (bd, vd, bsd) /\
      forall A, A ∈ frame_index (xyz_frame chain3) ->
        exists s, g !! A = Some s /\
          forall B, B ∈ s <->
            B ∈ frame_index (xyz_frame chain3) /\ A <> B /\
            exists rA rB pA pB,
              bsd !! A = Some rA /\ bsd !! B = Some rB /\
              location chain3 A = Ok pA /\ location chain3 B = Ok pB /\
              (0 < rA + rB - norm (vsub pA pB))%R.
Proof.
  destruct (get_bonds_is_Ok hydrogen_table chain3 None 25 6 false false true false)
    as [[g self'] E]; [exact chain3_table|discriminate|].
  exists g, self'. split; [exact chain3_NoDup|]. split; [exact E|].
  exact (get_bonds_overlap_iff hydrogen_table chain3 None 25 6 true g self' chain3_NoDup E).
Defined.

Lemma get_bonds_one_cell_witness :
  exists minimum extent steps,
    partition_steps chain3 25 = Ok (minimum, extent, steps) /\
    steps ax_x = 1%Z /\ steps ax_y = 1%Z /\ steps ax_z = 1%Z /\
    _divide_et_impera chain3 25 6 =
      Ok [((0, 0, 0)%nat, (PdIndex (frame_index (xyz_frame chain3)),
                           PdIndex (frame_index (xyz_frame chain3))))] /\
    get_bonds hydrogen_table chain3 None 25 6 true false true true =
    get_bonds hydrogen_table chain3 None 25 6 true false true false.
Proof.
  destruct chain3_steps as (minimum & extent & steps & Hps & Hx & Hy & Hz).
  exists minimum, extent, steps. do 4 (split; [assumption|]).
  exact (get_bonds_one_cell hydrogen_table chain3 None 25 6 true false true
           minimum extent steps Hps Hx Hy Hz).
Defined.


(** ** 64-bit integers *)

(** Labels and step counts are 64-bit integers ([np.int64]): the least of
    them, their number, and the wrap-around of their arithmetic. *)
Definition int64_min : Z := (-9223372036854775808)%Z.
Definition int64_modulus : Z := 18446744073709551616%Z.

Definition wrap64 (n : Z) : Z := ((n - int64_min) mod int64_modulus + int64_min)%Z.

(** ** The partition in binary64 *)

(** The coordinates are [float64] numbers in the code and the bounds of the
    intervals are worked out in that arithmetic, where the upper bound of one
    small interval and the lower bound of the next, equal as real numbers,
    are two roundings.  This module repeats [_divide_et_impera], line by
    line, on the three coordinate columns as binary64 numbers with the
    operations of the processor. *)
Module Binary64.
Import PrimFloat.

(** The columns ['x'], ['y'], ['z'] of [xyz_frame], by label. *)
Definition float_frame : Type := list (Z * (float * float * float)).

Definition axis_value (a : axis) (p : float * float * float) : float :=
  match a with ax_x => p.1.1 | ax_y => p.1.2 | ax_z => p.2 end.

(** An integer as a float (exact below 2^53). *)
Definition of_int (n : Z) : float := of_uint63 (Uint63.of_Z n).

(** [np.ceil(x).astype(int)]: the least integer not below [x]; what is not
    a number of the 64-bit range becomes the least 64-bit integer. *)
Definition ceil_int (x : float) : Z :=
  match FloatOps.Prim2SF x with
  | SpecFloat.S754_zero _ => 0%Z
  | SpecFloat.S754_finite s m e =>
      let n :=
        if (0 <=? e)%Z then (if s then - (Z.pos m * 2 ^ e) else Z.pos m * 2 ^ e)%Z
        else if s then (- (Z.pos m / 2 ^ (- e)))%Z
        else (- ((- Z.pos m) / 2 ^ (- e)))%Z in
      if ((int64_min <=? n) && (n <? int64_min + int64_modulus))%Z then n else int64_min
  | _ => int64_min
  end.

(** [sort_values()]: ascending, equal values in their order. *)
Fixpoint insert_value (p : Z * float) (l : list (Z * float)) : list (Z * float) :=
  match l with
  | [] => [p]
  | q :: l' => if leb p.2 q.2 then p :: l else q :: insert_value p l'
  end.

Definition sorted_series (frame : float_frame) (a : axis) : list (Z * float) :=
  foldr insert_value [] ((fun kr => (kr.1, axis_value a kr.2)) <$> frame).

Definition axis_convert (frame : float_frame) (a : axis) : gmap nat Z :=
  map_seq 0 (sorted_series frame a).*1.

Definition sorted_arrays (frame : float_frame) (a : axis) : list float :=
  (sorted_series frame a).*2.

Definition interval_labels (frame : float_frame) (a : axis) (lo hi : float)
  : result (gset Z) :=
  let bool_vec := (fun v => leb lo v && ltb v hi) <$> sorted_arrays frame a in
  let index := nonzero1 bool_vec in
  list_to_set <$> traverse (getitem (axis_convert frame a)) index.

(** 0.01, rounded to binary64 as the literal of the source is. *)
Definition hundredth : float := 0x1.47ae147ae147bp-7%float.

Definition partition_steps (frame : float_frame) (maximum_edge_length : float)
  : result ((axis -> float) * (axis -> float) * (axis -> Z)) :=
  x0 ← first_item (sorted_arrays frame ax_x);
  y0 ← first_item (sorted_arrays frame ax_y);
  z0 ← first_item (sorted_arrays frame ax_z);
  let minimum a := (match a with ax_x => x0 | ax_y => y0 | ax_z => z0 end - hundredth)%float in
  x1 ← last_item (sorted_arrays frame ax_x);
  y1 ← last_item (sorted_arrays frame ax_y);
  z1 ← last_item (sorted_arrays frame ax_z);
  let maximum a := (match a with ax_x => x1 | ax_y => y1 | ax_z => z1 end + hundredth)%float in
  let extent a := (maximum a - minimum a)%float in
  let steps a := ceil_int (extent a / maximum_edge_length)%float in
  Ok (minimum, extent, steps).

Definition origin1D (minimum cuboid_diagonal : axis -> float) (a : axis) (counter : nat)
  : float :=
  (minimum a + cuboid_diagonal a / 2 + of_int (Z.of_nat counter) * cuboid_diagonal a)%float.

Definition axis_indices (frame : float_frame) (minimum edge_small edge_big : axis -> float)
    (a : axis) (n : nat) : result (list (gset Z * gset Z)) :=
  traverse (fun counter =>
    let intervall_small :=
      ((origin1D minimum edge_small a counter - edge_small a / 2)%float,
       (origin1D minimum edge_small a counter + edge_small a / 2)%float) in
    let intervall_big :=
      ((origin1D minimum edge_small a counter - edge_big a / 2)%float,
       (origin1D minimum edge_small a counter + edge_big a / 2)%float) in
    index_small ← interval_labels frame a intervall_small.1 intervall_small.2;
    index_big ← interval_labels frame a intervall_big.1 intervall_big.2;
    Ok (index_small, index_big)) (seq 0 n).

Definition _divide_et_impera (frame : float_frame)
    (maximum_edge_length difference_edge : float) : result (list cuboid_cell) :=
  '(minimum, extent, steps) ← partition_steps frame maximum_edge_length;
  if decide (steps ax_x = 1%Z /\ steps ax_y = 1%Z /\ steps ax_z = 1%Z) then
    let small_cube_index := PdIndex frame.*1 in
    let big_cube_index := small_cube_index in
    Ok [((0, 0, 0)%nat, (small_cube_index, big_cube_index))]
  else
    let cuboid_diagonal a := (extent a / of_int (steps a))%float in
    let edge_small a := cuboid_diagonal a in
    let edge_big a := (edge_small a + difference_edge)%float in
    if decide (steps ax_x < 0 \/ steps ax_y < 0 \/ steps ax_z < 0)%Z then Raise ValueError else
    let n a := Z.to_nat (steps a) in
    if decide ((0 < n ax_x \/ 0 < n ax_y \/ 0 < n ax_z)
               /\ (n ax_x = 0 \/ n ax_y = 0 \/ n ax_z = 0))%nat then Raise IndexError else
    indices_x ← axis_indices frame minimum edge_small edge_big ax_x (n ax_x);
    indices_y ← axis_indices frame minimum edge_small edge_big ax_y (n ax_y);
    indices_z ← axis_indices frame minimum edge_small edge_big ax_z (n ax_z);
    Ok (cuboids (n ax_x) (n ax_y) (n ax_z) indices_x indices_y indices_z).





End Binary64.



(** ** Parameters the partitioner does not guard against *)






(** ** Three crowded atoms *)

(** Atoms 0, 1 and 2 on the x axis at 0, -2 and 1. *)
Definition crowded : Cartesian :=
  __init__ [(0%Z, H_at 0); (1%Z, H_at (-2)); (2%Z, H_at 1)].

(** Bond size 2 for all three; valency 1 for atoms 0 and 1, 2 for atom 2. *)
Definition crowded_properties : gmap Z modified_property :=
  {[ 0%Z := {| mod_bond_size := 2; mod_valency := 1 |};
     1%Z := {| mod_bond_size := 2; mod_valency := 1 |};
     2%Z := {| mod_bond_size := 2; mod_valency := 2 |} ]}.

Lemma crowded_NoDup : NoDup (frame_index (xyz_frame crowded)).
Proof. by apply NoDup_three. Qed.

Lemma crowded_table k r :
  (k, r) ∈ xyz_frame crowded -> is_Some (hydrogen_table !! col_atom r).
Proof. intros Hin. frame_cases Hin; by eexists. Qed.

Lemma norm_line (a b : R) : norm (vsub (a, 0, 0)%R (b, 0, 0)%R) = Rabs (a - b).
Proof.
  unfold norm, vsub, dot.
  replace ((a - b) * (a - b) + (0 - 0) * (0 - 0) + (0 - 0) * (0 - 0))%R
    with (Rsqr (a - b)) by (unfold Rsqr; ring).
  apply sqrt_Rsqr_abs.
Qed.

Lemma nonzero_row_3 (b : nat -> nat -> bool) (i : nat) :
  nonzero_row b 3 i =
    (if b i 0%nat then [0%nat] else []) ++ (if b i 1%nat then [1%nat] else [])
      ++ (if b i 2%nat then [2%nat] else []).
Proof.
  unfold nonzero_row. simpl. rewrite !filter_cons, filter_nil.
  destruct (b i 0%nat), (b i 1%nat), (b i 2%nat); reflexivity.
Qed.

(** The arbitration on the overlaps of [crowded]: 2 between atoms 0 and 1, 3
    between 0 and 2, 1 between 1 and 2. *)
Lemma crowded_final (ov0 : ndarray) (tv : list nat) :
  symmetric_array ov0 -> tv = [1; 1; 2]%nat ->
  ov0 0%nat 1%nat = 2%R -> ov0 0%nat 2%nat = 3%R -> ov0 1%nat 2%nat = 1%R ->
  gt0 (final_array true 3 tv (fill_diagonal ov0 (-1))) 1%nat 2%nat = true.
Proof.
  intros Hsym -> H01 H02 H12.
  pose proof (Hsym 1%nat 0%nat) as H10. pose proof (Hsym 2%nat 0%nat) as H20.
  pose proof (Hsym 2%nat 1%nat) as H21. rewrite H01 in H10. rewrite H02 in H20.
  rewrite H12 in H21.
  set (ovd := fill_diagonal ov0 (-1)).
  assert (Hd : forall i j, ovd i j = if decide (i = j) then (-1)%R else ov0 i j) by done.
  assert (G : forall i j, (i < 3)%nat -> (j < 3)%nat ->
            gt0 ovd i j = if decide (i = j) then false else true).
  { intros i j Hi Hj. unfold gt0. rewrite Hd.
    destruct i as [|[|[|?]]], j as [|[|[|?]]]; try lia; simpl;
      rewrite ?H01, ?H02, ?H12, ?H10, ?H20, ?H21;
      (apply bool_decide_eq_true; lra) || (apply bool_decide_eq_false; lra). }
  assert (Hover : oversaturated 3 [1; 1; 2]%nat ovd = [0; 1]%nat).
  { unfold oversaturated. simpl. rewrite !filter_cons, filter_nil.
    rewrite !nonzero_row_3, !G by lia. reflexivity. }
  assert (Hcut0 : cut_list 3 [1; 1; 2]%nat ovd 0 = [(2%nat, 3%R); (1%nat, 2%R)]).
  { unfold cut_list. rewrite nonzero_row_3, !G by lia. simpl.
    rewrite !Hd. simpl. rewrite H01, H02.
    unfold value_leb. rewrite bool_decide_false by lra. reflexivity. }
  set (ov1 := cut_array 3 [1; 1; 2]%nat ovd 0).
  assert (Hd1 : forall i j, ov1 i j =
            if bool_decide ((i = 1%nat /\ j = 0%nat) \/ (i = 0%nat /\ j = 1%nat))
            then (-1)%R else ovd i j).
  { intros i j. unfold ov1, cut_array. rewrite cut_bonds_entries, Hcut0. simpl.
    repeat case_bool_decide; try done; exfalso;
      rewrite ?list_elem_of_singleton in *; tauto. }
  assert (G10 : gt0 ov1 1%nat 0%nat = false).
  { unfold gt0. rewrite Hd1, (bool_decide_true (_ \/ _)) by tauto.
    apply bool_decide_eq_false. lra. }
  assert (G11 : gt0 ov1 1%nat 1%nat = false).
  { unfold gt0. rewrite Hd1, (bool_decide_false (_ \/ _)), Hd by lia. simpl.
    apply bool_decide_eq_false. lra. }
  assert (G12 : gt0 ov1 1%nat 2%nat = true).
  { unfold gt0. rewrite Hd1, (bool_decide_false (_ \/ _)), Hd by lia. simpl.
    rewrite H12. apply bool_decide_eq_true. lra. }
  assert (Hcut1 : (drop 1 (cut_list 3 [1; 1; 2]%nat ov1 1)).*1 = []).
  { unfold cut_list. rewrite nonzero_row_3, G10, G11, G12. reflexivity. }
  unfold final_array. rewrite Hover. unfold cut_loop. simpl. fold ov1.
  unfold gt0, cut_array. rewrite cut_bonds_entries. simpl nth. rewrite Hcut1.
  rewrite (bool_decide_false (_ \/ _)).
  - exact G12.
  - rewrite !elem_of_nil. tauto.
Qed.

(** ** The removal rule as the specification words it *)

(** [B] is a candidate bond of [A] with overlap [o]. *)
Definition candidate (self : Cartesian) (bsd : gmap Z R) (A B : Z) (o : R) : Prop :=
  A ∈ frame_index (xyz_frame self) /\ B ∈ frame_index (xyz_frame self) /\ A <> B /\
  overlap_of self bsd A B o /\ (0 < o)%R.

(** Following the specification: [B] is among the [actual_degree - valency]
    candidate bonds of [A] with the smallest overlap, that is, at least
    [valency] candidate bonds of [A] have a strictly larger overlap. *)
Definition lowest_excess (self : Cartesian) (bsd : gmap Z R) (vd : gmap Z nat) (A B : Z) : Prop :=
  exists o vA (T : gset Z),
    candidate self bsd A B o /\ vd !! A = Some vA /\ size T = vA /\
    forall B', B' ∈ T -> exists o', candidate self bsd A B' o' /\ (o < o')%R.

(** Following the specification: the bonds removed are exactly the excess
    candidate bonds of lowest overlap of one of their two atoms. *)
Definition removes_exactly_lowest (atom_properties : gmap string atom_property)
    (self : Cartesian) (mp : option (gmap Z modified_property)) (g : gmap Z (gset Z)) : Prop :=
  forall bd vd bsd,
    preparation_of_variables atom_properties self mp = Ok (bd, vd, bsd) ->
    forall A B o s, candidate self bsd A B o -> g !! A = Some s ->
      (B ∉ s <-> lowest_excess self bsd vd A B \/ lowest_excess self bsd vd B A).

Lemma crowded_values bd vd bsd :
  preparation_of_variables hydrogen_table crowded (Some crowded_properties) = Ok (bd, vd, bsd) ->
  (vd !! 0%Z = Some 1%nat /\ vd !! 1%Z = Some 1%nat /\ vd !! 2%Z = Some 2%nat) /\
  (forall k, k ∈ frame_index (xyz_frame crowded) -> bsd !! k = Some 2%R).
Proof.
  intros Hprep.
  assert (Hall : forall k r m, (k, r) ∈ xyz_frame crowded -> crowded_properties !! k = Some m ->
            vd !! k = Some (mod_valency m) /\ bsd !! k = Some (mod_bond_size m)).
  { intros k r m Hr Hm.
    destruct (crowded_table k r Hr) as [p Hp].
    pose proof (preparation_of_variables_values _ _ _ _ _ _ k r p crowded_NoDup Hprep Hr Hp)
      as Hv. simpl in Hv. by rewrite Hm in Hv. }
  destruct (Hall 0%Z (H_at 0) {| mod_bond_size := 2; mod_valency := 1 |}) as [Hv0 Hb0];
    [left|done|].
  destruct (Hall 1%Z (H_at (-2)) {| mod_bond_size := 2; mod_valency := 1 |}) as [Hv1 Hb1];
    [right; left|done|].
  destruct (Hall 2%Z (H_at 1) {| mod_bond_size := 2; mod_valency := 2 |}) as [Hv2 Hb2];
    [right; right; left|done|].
  split; [done|]. intros k Hk. simpl in Hk.
  rewrite !elem_of_cons, elem_of_nil in Hk. destruct Hk as [->|[->|[->|[]]]]; done.
Qed.

Lemma crowded_overlap bsd (A B : Z) (a b : R) :
  (forall k, k ∈ frame_index (xyz_frame crowded) -> bsd !! k = Some 2%R) ->
  (A, H_at a) ∈ xyz_frame crowded -> (B, H_at b) ∈ xyz_frame crowded ->
  overlap_of crowded bsd A B (2 + 2 - Rabs (a - b)).
Proof.
  intros Hbsd HA HB.
  exists 2%R, 2%R, (a, 0, 0)%R, (b, 0, 0)%R.
  assert (Hin : forall k x, (k, H_at x) ∈ xyz_frame crowded -> k ∈ frame_index (xyz_frame crowded)).
  { intros k x Hk. apply list_elem_of_fmap. by exists (k, H_at x). }
  split; [eauto|]. split; [eauto|].
  unfold location. rewrite (frame_row_NoDup _ _ _ crowded_NoDup HA),
    (frame_row_NoDup _ _ _ crowded_NoDup HB).
  do 2 (split; [done|]). by rewrite norm_line.
Qed.

(** C3 fails as stated at this input: atom 1 has two candidate bonds and
    valency 1, its bond to atom 2 has the lowest overlap, and yet it is the
    one kept, because atom 0 was arbitrated first and dropped the bond
    between 0 and 1. *)
Lemma valency_counterexample :
  exists g self',
    get_bonds hydrogen_table crowded (Some crowded_properties) 25 6 true false true false
      = Ok (g, self') /\
    ~ removes_exactly_lowest hydrogen_table crowded (Some crowded_properties) g.
Proof.
  destruct (get_bonds_is_Ok hydrogen_table crowded (Some crowded_properties)
              25 6 true false true false) as [[g self'] E];
    [exact crowded_table|discriminate|].
  exists g, self'. split; [exact E|]. intros Hclaim.
  apply get_bonds_fresh in E as [E _]. unfold complete_calculation in E.
  apply bind_Ok in E as ([[bd vd] bsd] & Hprep & E).
  specialize (Hclaim bd vd bsd Hprep).
  destruct (crowded_values bd vd bsd Hprep) as [(Hv0 & Hv1 & Hv2) Hbsd].
  pose proof (preparation_of_variables_spec _ _ _ _ _ _ Hprep) as [Hempty Hdom].
  apply get_bonds_local_spec in E as (ov0 & tv & Hval & Hsym & Htv & Hspec).
  assert (Hov : forall i j A B a b,
            frame_index (xyz_frame crowded) !! i = Some A ->
            frame_index (xyz_frame crowded) !! j = Some B ->
            (A, H_at a) ∈ xyz_frame crowded -> (B, H_at b) ∈ xyz_frame crowded ->
            ov0 i j = (2 + 2 - Rabs (a - b))%R).
  { intros i j A B a b Hi Hj HA HB.
    exact (overlap_of_fun _ _ _ _ _ _ (Hval i j A B Hi Hj) (crowded_overlap bsd A B a b Hbsd HA HB)). }
  assert (Hin0 : (0%Z, H_at 0) ∈ xyz_frame crowded) by left.
  assert (Hin1 : (1%Z, H_at (-2)) ∈ xyz_frame crowded) by (right; left).
  assert (Hin2 : (2%Z, H_at 1) ∈ xyz_frame crowded) by (right; right; left).
  assert (H01 : ov0 0%nat 1%nat = 2%R).
  { rewrite (Hov 0%nat 1%nat 0%Z 1%Z 0%R (-2)%R) by done.
    unfold Rabs. destruct (Rcase_abs _); lra. }
  assert (H02 : ov0 0%nat 2%nat = 3%R).
  { rewrite (Hov 0%nat 2%nat 0%Z 2%Z 0%R 1%R) by done.
    unfold Rabs. destruct (Rcase_abs _); lra. }
  assert (H12 : ov0 1%nat 2%nat = 1%R).
  { rewrite (Hov 1%nat 2%nat 1%Z 2%Z (-2)%R 1%R) by done.
    unfold Rabs. destruct (Rcase_abs _); lra. }
  assert (Htv3 : tv = [1; 1; 2]%nat).
  { simpl in Htv. inversion Htv as [|? v0 ? tv0 Hx0 Htv0]; subst.
    inversion Htv0 as [|? v1 ? tv1 Hx1 Htv1]; subst.
    inversion Htv1 as [|? v2 ? tv2 Hx2 Htv2]; subst.
    inversion Htv2; subst. congruence. }
  pose proof (crowded_final ov0 tv Hsym Htv3 H01 H02 H12) as Hkept.
  specialize (Hspec 1%Z).
  destruct (Hdom 1%Z) as ([s0 Hs0] & _); [right; left|].
  rewrite Hs0 in Hspec. destruct Hspec as (s & Hs & HB).
  assert (H2s : 2%Z ∈ s).
  { apply HB. right. by exists 1%nat, 2%nat. }
  assert (Hc12 : candidate crowded bsd 1%Z 2%Z 1%R).
  { split; [right; left|]. split; [right; right; left|]. split; [done|]. split; [|lra].
    rewrite <- H12. by apply Hval. }
  assert (Hc10 : candidate crowded bsd 1%Z 0%Z 2%R).
  { split; [right; left|]. split; [left|]. split; [done|]. split; [|lra].
    rewrite <- H01, (Hsym 0%nat 1%nat). by apply Hval. }
  apply (Hclaim 1%Z 2%Z 1%R s Hc12 Hs); [|exact H2s].
  left. exists 1%R, 1%nat, {[0%Z]}. split; [done|]. split; [done|].
  split; [by rewrite size_singleton|].
  intros B' ->%elem_of_singleton. exists 2%R. split; [done|lra].
Qed.

Lemma get_bonds_valency_witness :
  exists g self',
    NoDup (frame_index (xyz_frame crowded)) /\
    get_bonds hydrogen_table crowded (Some crowded_properties) 25 6 true false true false
      = Ok (g, self') /\
    exists bd vd bsd,
      preparation_of_variables hydrogen_table crowded (Some crowded_properties)
        = Ok (bd, vd, bsd) /\
      forall A, A ∈ frame_index (xyz_frame crowded) ->
        exists s vA, g !! A = Some s /\ vd !! A = Some vA /\
          (size s <= vA)%nat /\
          (forall B, B ∈ s ->
             B ∈ frame_index (xyz_frame crowded) /\ A <> B /\
             (exists o, overlap_of crowded bsd A B o /\ (0 < o)%R) /\
             exists sB, g !! B = Some sB /\ A ∈ sB) /\
          (forall B o, B ∈ frame_index (xyz_frame crowded) -> A <> B ->
             overlap_of crowded bsd A B o -> (0 < o)%R -> B ∉ s ->
             exists X Y vX, ((X = A /\ Y = B) \/ (X = B /\ Y = A)) /\
               vd !! X = Some vX /\
               exists T : gset Z, size T = vX /\ (Y ∉ T) /\ (X ∉ T) /\
                 forall Y', Y' ∈ T ->
                   Y' ∈ frame_index (xyz_frame crowded) /\
                   exists o', overlap_of crowded bsd X Y' o' /\ (0 < o')%R /\ (o <= o')%R).
Proof.
  destruct (get_bonds_is_Ok hydrogen_table crowded (Some crowded_properties)
              25 6 true false true false) as [[g self'] E];
    [exact crowded_table|discriminate|].
  exists g, self'. split; [exact crowded_NoDup|]. split; [exact E|].
  exact (get_bonds_valency hydrogen_table crowded (Some crowded_properties) 25 6 true g self'
           crowded_NoDup E).
Defined.

(** ** Connectivity *)

Section Connectivity.
Context `{SetOrder}.

(** All atoms that occur in some adjacency set of [bond_dic]. *)
Definition neighbours_universe (bond_dic : gmap Z (gset Z)) : gset Z :=
  map_fold (fun _ s acc => s ∪ acc) ∅ bond_dic.

(** The loop [for index in included_atoms_list] of [_connected_to].  The list
    grows while it is traversed: [visited] is the part already passed,
    [pending] the part still to come, to which the new atoms are appended.
    [fuel] bounds the number of passes; [OutOfFuel] is returned when it is
    used up. *)
Fixpoint connected_loop (fuel : nat) (bond_dic : gmap Z (gset Z)) (exclude : gset Z)
    (included_atoms_set : gset Z) (visited pending : list Z) : result (list Z) :=
  match pending with
  | [] => Ok visited
  | index :: pending =>
      match fuel with
      | O => Raise OutOfFuel
      | S fuel =>
          s ← getitem bond_dic index;
          let new_atoms := (s ∖ included_atoms_set) ∖ exclude in
          let included_atoms_set := new_atoms ∪ included_atoms_set in
          connected_loop fuel bond_dic exclude included_atoms_set
            (visited ++ [index]) (pending ++ iter_order new_atoms)
      end
  end.

Definition _connected_to (index_of_atom : Z) (bond_dic : gmap Z (gset Z))
    (exclude : option (list Z)) : result (gset Z) :=
  let exclude : gset Z := match exclude with None => ∅ | Some l => list_to_set l end in
  s ← getitem bond_dic index_of_atom;
  let included_atoms_set := ({[index_of_atom]} ∪ s) ∖ exclude in
  let included_atoms_list := iter_order included_atoms_set in
  let fuel := S (2 * size (neighbours_universe bond_dic ∖ included_atoms_set)
                 + length included_atoms_list) in
  included_atoms_list ←
    connected_loop fuel bond_dic exclude included_atoms_set [] included_atoms_list;
  Ok (list_to_set included_atoms_list).

End Connectivity.

Section ConnectedTo.
Context `{SetOrder} `{Sorter}.
Variable atom_properties : gmap string atom_property.

(** [connected_to]: the [Cartesian] returned and [self] as the call leaves
    it ([get_bonds] may have set its lookup).  The parameter [exclude] is not
    handed on: the source passes [exclude=None]. *)
Definition connected_to (self : Cartesian) (index_of_atom : Z) (exclude : option (list Z))
  : result (Cartesian * Cartesian) :=
  '(bond_dic, self) ← get_bonds atom_properties self None 25 6 false true true true;
  fragment_index ← _connected_to index_of_atom bond_dic None;
  frame ← frame_loc (xyz_frame self) (iter_order fragment_index);
  Ok (__init__ frame, self).

(** [get_fragment(list_of_indextuples, give_only_index=True)]: the sibling
    caller of [_connected_to], which does hand its exclusions on. *)
Definition get_fragment (self : Cartesian) (list_of_indextuples : list (Z * Z))
  : result (gset Z * Cartesian) :=
  let exclude := list_of_indextuples.*1 in
  first ← first_item list_of_indextuples;
  let index_of_atom := first.2 in
  '(bond_dic, self) ← get_bonds atom_properties self None 25 6 false true true true;
  fragment_index ← _connected_to index_of_atom bond_dic (Some exclude);
  Ok (fragment_index, self).

End ConnectedTo.

(** ** What [_connected_to] computes *)

Section ConnectivityFacts.
Context `{SetOrder}.

(** One bond from [a] to a non-excluded [b]. *)
Definition bond_step (g : gmap Z (gset Z)) (exclude : gset Z) (a b : Z) : Prop :=
  exists s, g !! a = Some s /\ b ∈ s /\ (b ∉ exclude).

Lemma neighbours_universe_spec (g : gmap Z (gset Z)) k s :
  g !! k = Some s -> s ⊆ neighbours_universe g.
Proof.
  unfold neighbours_universe. revert k s.
  apply (map_fold_weak_ind (fun r (m : gmap Z (gset Z)) => forall k s, m !! k = Some s -> s ⊆ r)).
  - intros k s. by rewrite lookup_empty.
  - intros i x m r Hi IH k s. rewrite lookup_insert. case_decide.
    + intros [= ->]. apply union_subseteq_l.
    + intros Hk. etrans; [by eapply IH|apply union_subseteq_r].
Qed.

Lemma length_iter_order (s : gset Z) : length (iter_order s) = size s.
Proof. by rewrite iter_order_perm. Qed.

Lemma connected_loop_fuel fuel g exclude included visited pending :
  (2 * size (neighbours_universe g ∖ included) + length pending < fuel)%nat ->
  connected_loop fuel g exclude included visited pending <> Raise OutOfFuel.
Proof.
  revert included visited pending.
  induction fuel as [|fuel IH]; intros included visited pending Hfuel; [lia|].
  destruct pending as [|index pending]; simpl; [done|].
  unfold getitem. destruct (g !! index) as [s|] eqn:Hs; simpl; [|done].
  apply IH. rewrite length_app, length_iter_order. simpl in Hfuel.
  set (new := (s ∖ included) ∖ exclude).
  assert (Hsplit : neighbours_universe g ∖ included
                   = new ∪ neighbours_universe g ∖ (new ∪ included)).
  { apply set_eq. intros x. pose proof (neighbours_universe_spec g index s Hs x).
    unfold new. rewrite !elem_of_union, !elem_of_difference, !elem_of_union,
      !elem_of_difference.
    destruct (decide (x ∈ s)), (decide (x ∈ exclude)), (decide (x ∈ included)); tauto. }
  assert (Hdisj : new ## neighbours_universe g ∖ (new ∪ included)).
  { intros x Hx. rewrite elem_of_difference, elem_of_union. tauto. }
  rewrite Hsplit, (size_union _ _ Hdisj) in Hfuel. lia.
Qed.

(** [_connected_to] always comes to an end within its bound. *)
Lemma connected_to_terminates index_of_atom g exclude :
  _connected_to index_of_atom g exclude <> Raise OutOfFuel.
Proof.
  unfold _connected_to. destruct (getitem g index_of_atom) as [s|e] eqn:Hs.
  - cbv beta iota zeta delta [mbind result_bind].
    match goal with |- context [connected_loop ?f ?g ?e ?i ?v ?p] =>
      pose proof (connected_loop_fuel f g e i v p) as Hfuel;
      destruct (connected_loop f g e i v p) as [l|err] end; [done|].
    intros [= ->]. apply Hfuel; [lia|done].
  - unfold getitem in Hs. destruct (g !! index_of_atom); [done|].
    injection Hs as <-. done.
Qed.

Lemma connected_loop_spec (seed : Z) fuel g exclude included visited pending result :
  connected_loop fuel g exclude included visited pending = Ok result ->
  (forall x, x ∈ included <-> x ∈ visited \/ x ∈ pending) ->
  (forall x, x ∈ included -> (x ∉ exclude) /\ rtc (bond_step g exclude) seed x) ->
  (forall v b, v ∈ visited -> bond_step g exclude v b -> b ∈ included) ->
  (forall x, x ∈ result -> (x ∉ exclude) /\ rtc (bond_step g exclude) seed x) /\
  (forall x, x ∈ included -> x ∈ result) /\
  (forall v b, v ∈ result -> bond_step g exclude v b -> b ∈ result).
Proof.
  revert included visited pending.
  induction fuel as [|fuel IH]; intros included visited pending E Hincl Hsound Hclosed.
  - destruct pending; [|done]. injection E as <-.
    assert (Hiff : forall x, x ∈ included <-> x ∈ visited).
    { intros x. rewrite Hincl, elem_of_nil. tauto. }
    split; [intros x Hx%Hiff; auto|]. split; [intros x Hx%Hiff; auto|].
    intros v b Hv Hstep. apply Hiff. by eapply Hclosed.
  - destruct pending as [|index pending].
    { injection E as <-.
      assert (Hiff : forall x, x ∈ included <-> x ∈ visited).
      { intros x. rewrite Hincl, elem_of_nil. tauto. }
      split; [intros x Hx%Hiff; auto|]. split; [intros x Hx%Hiff; auto|].
      intros v b Hv Hstep. apply Hiff. by eapply Hclosed. }
    simpl in E. apply bind_Ok in E as (s & Hs%getitem_Ok & E).
    assert (Hindex : index ∈ included) by (apply Hincl; right; left).
    destruct (IH _ _ _ E) as (H1 & H2 & H3).
    + intros x. rewrite elem_of_union, Hincl, !elem_of_app, elem_of_iter_order,
        elem_of_cons, list_elem_of_singleton. tauto.
    + intros x [Hx|Hx]%elem_of_union; [|by apply Hsound].
      apply elem_of_difference in Hx as [[Hxs _]%elem_of_difference Hxe].
      split; [done|]. eapply rtc_r; [by apply Hsound|]. by exists s.
    + intros v b [Hv|Hv%list_elem_of_singleton]%elem_of_app Hstep.
      * apply elem_of_union. right. by eapply Hclosed.
      * subst v. destruct Hstep as (s' & Hs' & Hb & Hbe).
        rewrite Hs in Hs'. injection Hs' as <-.
        rewrite elem_of_union, !elem_of_difference.
        destruct (decide (b ∈ included)); tauto.
    + split; [done|]. split; [|done].
      intros x Hx. apply H2, elem_of_union. by right.
Qed.

(** [_connected_to] returns the atoms outside [exclude] that a chain of
    bonds through atoms outside [exclude] links to the seed. *)
Lemma connected_to_reachable index_of_atom g exclude result :
  _connected_to index_of_atom g exclude = Ok result ->
  let excluded : gset Z := match exclude with None => ∅ | Some l => list_to_set l end in
  forall x, x ∈ result <->
    (x ∉ excluded) /\ rtc (bond_step g excluded) index_of_atom x.
Proof.
  intros E excluded x. unfold _connected_to in E. fold excluded in E.
  apply bind_Ok in E as (s & Hs%getitem_Ok & E).
  apply bind_Ok in E as (l & Hl & [= <-]).
  destruct (connected_loop_spec index_of_atom _ _ _ _ _ _ _ Hl) as (H1 & H2 & H3).
  - intros y. rewrite elem_of_iter_order, elem_of_nil. tauto.
  - intros y [[->%elem_of_singleton|Hy]%elem_of_union Hye]%elem_of_difference.
    + split; [done|apply rtc_refl].
    + split; [done|]. apply rtc_once. by exists s.
  - by intros v b ?%elem_of_nil.
  - rewrite elem_of_list_to_set. split; [apply H1|].
    intros [Hx Hreach].
    assert (Hclosure : forall a b, rtc (bond_step g excluded) a b -> a ∈ l -> b ∈ l).
    { induction 1 as [|a b c Hab Hbc IHr]; [done|]. intros Ha. apply IHr. by eapply H3. }
    destruct (decide (index_of_atom ∈ excluded)) as [Hseed|Hseed].
    + apply rtc_inv in Hreach as [->|(b & Hstep & Hrest)]; [done|].
      apply (Hclosure b x Hrest). apply H2.
      destruct Hstep as (s' & Hs' & Hb & Hbe). rewrite Hs in Hs'. injection Hs' as <-.
      rewrite elem_of_difference, elem_of_union. tauto.
    + apply (Hclosure index_of_atom x Hreach). apply H2.
      rewrite elem_of_difference, elem_of_union, elem_of_singleton. tauto.
Qed.

End ConnectivityFacts.

(** ** The chain of three atoms: its bonds and its fragments *)

(** Bonds 0-1 and 1-2; atoms 0 and 2 are too far apart. *)
Definition chain3_graph : gmap Z (gset Z) :=
  {[ 0%Z := {[ 1%Z ]}; 1%Z := {[ 0%Z; 2%Z ]}; 2%Z := {[ 1%Z ]} ]}.

Lemma line_overlap self bsd (A B : Z) (a b rA rB : R) :
  NoDup (frame_index (xyz_frame self)) ->
  (A, H_at a) ∈ xyz_frame self -> (B, H_at b) ∈ xyz_frame self ->
  bsd !! A = Some rA -> bsd !! B = Some rB ->
  overlap_of self bsd A B (rA + rB - Rabs (a - b)).
Proof.
  intros Hnd HA HB HrA HrB. exists rA, rB, (a, 0, 0)%R, (b, 0, 0)%R.
  do 2 (split; [done|]). unfold location.
  rewrite (frame_row_NoDup _ _ _ Hnd HA), (frame_row_NoDup _ _ _ Hnd HB).
  do 2 (split; [done|]). by rewrite norm_line.
Qed.

Lemma chain3_candidates bd vd bsd (A B : Z) :
  preparation_of_variables hydrogen_table chain3 None = Ok (bd, vd, bsd) ->
  (A ∈ frame_index (xyz_frame chain3) /\ B ∈ frame_index (xyz_frame chain3) /\ A <> B /\
   exists o, overlap_of chain3 bsd A B o /\ (0 < o)%R) <->
  (A, B) ∈ [(0, 1); (1, 0); (1, 2); (2, 1)]%Z.
Proof.
  intros Hprep.
  assert (Hbsd : forall k x, (k, H_at x) ∈ xyz_frame chain3 -> bsd !! k = Some 0.6%R).
  { intros k x Hk.
    by destruct (preparation_of_variables_values hydrogen_table chain3 None bd vd bsd k (H_at x)
      {| valency := 1; bond_size := 0.6; mass := 1 |} chain3_NoDup Hprep Hk eq_refl). }
  assert (Hov : forall A B a b, (A, H_at a) ∈ xyz_frame chain3 -> (B, H_at b) ∈ xyz_frame chain3 ->
            overlap_of chain3 bsd A B (0.6 + 0.6 - Rabs (a - b))).
  { intros A' B' a b HA HB. apply line_overlap; eauto using chain3_NoDup. }
  assert (H0 : (0%Z, H_at 0) ∈ xyz_frame chain3) by left.
  assert (H1 : (1%Z, H_at 1) ∈ xyz_frame chain3) by (right; left).
  assert (H2 : (2%Z, H_at 2) ∈ xyz_frame chain3) by (right; right; left).
  split.
  - intros (HA & HB & Hne & o & Ho & Hpos). simpl in HA, HB.
    rewrite !elem_of_cons, elem_of_nil in HA, HB. rewrite !elem_of_cons, elem_of_nil.
    destruct HA as [->|[->|[->|[]]]], HB as [->|[->|[->|[]]]]; try done; try tauto; exfalso.
    + rewrite (overlap_of_fun _ _ _ _ _ _ Ho (Hov _ _ _ _ H0 H2)) in Hpos.
      unfold Rabs in Hpos. destruct (Rcase_abs _); lra.
    + rewrite (overlap_of_fun _ _ _ _ _ _ Ho (Hov _ _ _ _ H2 H0)) in Hpos.
      unfold Rabs in Hpos. destruct (Rcase_abs _); lra.
  - rewrite !elem_of_cons, elem_of_nil.
    intros [[= -> ->]|[[= -> ->]|[[= -> ->]|[[= -> ->]|[]]]]];
      (split; [simpl; rewrite !elem_of_cons; tauto|]);
      (split; [simpl; rewrite !elem_of_cons; tauto|]); (split; [done|]).
    + exists (0.6 + 0.6 - Rabs (0 - 1))%R. split; [by apply Hov|].
      unfold Rabs. destruct (Rcase_abs _); lra.
    + exists (0.6 + 0.6 - Rabs (1 - 0))%R. split; [by apply Hov|].
      unfold Rabs. destruct (Rcase_abs _); lra.
    + exists (0.6 + 0.6 - Rabs (1 - 2))%R. split; [by apply Hov|].
      unfold Rabs. destruct (Rcase_abs _); lra.
    + exists (0.6 + 0.6 - Rabs (2 - 1))%R. split; [by apply Hov|].
      unfold Rabs. destruct (Rcase_abs _); lra.
Qed.

Lemma chain3_local_graph bd vd bsd g :
  preparation_of_variables hydrogen_table chain3 None = Ok (bd, vd, bsd) ->
  get_bonds_local chain3 bd vd bsd false (frame_index (xyz_frame chain3)) = Ok g ->
  g = chain3_graph.
Proof.
  intros Hprep E.
  pose proof (preparation_of_variables_spec _ _ _ _ _ _ Hprep) as [Hempty Hdom].
  apply get_bonds_local_spec in E as (ov0 & tv & Hval & _ & _ & Hspec).
  assert (Hrow : forall A (s : gset Z), A ∈ frame_index (xyz_frame chain3) ->
            (forall B, B ∈ s <-> (A, B) ∈ [(0, 1); (1, 0); (1, 2); (2, 1)]%Z) ->
            g !! A = Some s).
  { intros A s HA Hs. specialize (Hspec A). destruct (Hdom A HA) as ([s0 Hs0] & _).
    rewrite Hs0 in Hspec. destruct Hspec as (s' & -> & HB). f_equal.
    apply set_eq. intros B.
    rewrite HB, (linked_candidates chain3 bsd _ ov0 tv A B chain3_NoDup Hval),
      (Hempty _ _ Hs0), (chain3_candidates bd vd bsd A B Hprep), Hs, elem_of_empty. tauto. }
  apply map_eq. intros k. unfold chain3_graph.
  destruct (decide (k = 0%Z)) as [->|H0]; [|destruct (decide (k = 1%Z)) as [->|H1];
    [|destruct (decide (k = 2%Z)) as [->|H2]]].
  - rewrite lookup_insert_eq. apply Hrow; [left|].
    intros B. rewrite elem_of_singleton, !elem_of_cons, elem_of_nil.
    split; [intros ->; tauto|intros [[= ->]|[[=]|[[=]|[[=]|[]]]]]; done].
  - rewrite lookup_insert_ne, lookup_insert_eq by done. apply Hrow; [right; left|].
    intros B. rewrite elem_of_union, !elem_of_singleton, !elem_of_cons, elem_of_nil.
    split; [intros [->| ->]; tauto|intros [[=]|[[= ->]|[[= ->]|[[=]|[]]]]]; tauto].
  - rewrite !lookup_insert_ne, lookup_singleton_eq by done. apply Hrow; [right; right; left|].
    intros B. rewrite elem_of_singleton, !elem_of_cons, elem_of_nil.
    split; [intros ->; tauto|intros [[=]|[[=]|[[=]|[[= ->]|[]]]]]; done].
  - rewrite !lookup_insert_ne, lookup_singleton_ne by done.
    specialize (Hspec k). destruct (bd !! k) as [s|] eqn:Hk; [|done].
    exfalso. unfold preparation_of_variables in Hprep.
    apply bind_Ok in Hprep as (? & _ & Hprep). apply bind_Ok in Hprep as (? & _ & [= <- _ _]).
    apply dict_zip_lookup_Some in Hk as [Hk _]. simpl in Hk.
    rewrite !elem_of_cons, elem_of_nil in Hk. tauto.
Qed.

Lemma chain3_get_bonds :
  get_bonds hydrogen_table chain3 None 25 6 false true true true
    = Ok (chain3_graph, set_bond_dic chain3 chain3_graph).
Proof.
  destruct (preparation_of_variables_is_Ok hydrogen_table chain3 None chain3_table)
    as [[[bd vd] bsd] Hprep].
  destruct chain3_steps as (minimum & extent & steps & Hps & Hx & Hy & Hz).
  destruct (get_bonds_local_is_Ok chain3 bd vd bsd false (frame_index (xyz_frame chain3)))
    as [g Hg].
  { intros A HA. split; [done|].
    destruct (preparation_of_variables_spec _ _ _ _ _ _ Hprep) as [_ Hdom].
    by apply Hdom. }
  pose proof (chain3_local_graph bd vd bsd g Hprep Hg) as ->.
  unfold get_bonds, complete_calculation.
  change (__bond_dic chain3) with (@None (gmap Z (gset Z))).
  rewrite Hprep. cbv beta iota zeta delta [mbind result_bind].
  rewrite (divide_et_impera_one_step chain3 25 6 _ _ _ Hps Hx Hy Hz).
  cbv beta iota zeta delta [mbind result_bind foldlM index_list snd].
  by rewrite Hg.
Qed.

Lemma chain3_component_all :
  _connected_to 0 chain3_graph None = Ok (list_to_set [0; 1; 2]%Z).
Proof. vm_compute. reflexivity. Qed.

Lemma chain3_component_excluding :
  _connected_to 0 chain3_graph (Some [1%Z]) = Ok {[ 0%Z ]}.
Proof. vm_compute. reflexivity. Qed.

(** The exclusions of [connected_to] never reach [_connected_to]. *)
Lemma connected_to_exclude_unused `{SetOrder} `{Sorter} atom_properties self index_of_atom exclude :
  connected_to atom_properties self index_of_atom exclude
  = connected_to atom_properties self index_of_atom None.
Proof. reflexivity. Qed.

(** C6 fails on the code: asked for the atoms connected to atom 0 of the
    chain 0-1-2 with atom 1 excluded, [connected_to] returns all three atoms,
    while the traversal with the exclusion handed on, as [get_fragment] does,
    stops at atom 0. *)
Theorem connected_to_ignores_exclude :
  (exists fragment self',
     connected_to hydrogen_table chain3 0 (Some [1%Z]) = Ok (fragment, self') /\
     frame_index (xyz_frame fragment) ≡ₚ [0; 1; 2]%Z) /\
  (exists self',
     get_fragment hydrogen_table chain3 [(1, 0)]%Z = Ok ({[ 0%Z ]}, self')) /\
  forall x, x ∈ ({[ 0%Z ]} : gset Z) <->
    (x ∉ (list_to_set [1%Z] : gset Z)) /\
    rtc (bond_step chain3_graph (list_to_set [1%Z])) 0%Z x.
Proof.
  split; [|split].
  - unfold connected_to. rewrite chain3_get_bonds.
    cbv beta iota zeta delta [mbind result_bind].
    rewrite chain3_component_all.
    cbv beta iota zeta delta [mbind result_bind].
    assert (Horder : iter_order (list_to_set [0; 1; 2]%Z) = [2; 1; 0]%Z)
      by (vm_compute; reflexivity).
    rewrite Horder. simpl.
    eexists _, _. split; [reflexivity|]. simpl.
    apply (Permutation_rev [2; 1; 0]%Z).
  - unfold get_fragment.
    cbv beta iota zeta delta [mbind result_bind].
    rewrite chain3_get_bonds.
    change (first_item [(1%Z, 0%Z)]) with (Ok (1%Z, 0%Z)).
    cbv beta iota zeta delta [mbind result_bind snd].
    change ([(1%Z, 0%Z)].*1) with [1%Z]. rewrite chain3_component_excluding.
    by eexists.
  - exact (connected_to_reachable 0 chain3_graph (Some [1%Z]) _ chain3_component_excluding).
Qed.

(** ** Dihedral angles *)

(** A float as the angle computations can meet it: a number, or [nan], which
    a division of zero by zero gives. *)
Inductive fval : Type :=
  | Num (x : R)
  | NaN.

(** [a != b], [a < b] and [a - b] on floats: [nan] differs from everything,
    is less than nothing, and stays [nan]. *)
Definition fval_ne (a b : fval) : bool :=
  match a, b with
  | Num x, Num y => bool_decide (x <> y)
  | _, _ => true
  end.

Definition fval_lt (a b : fval) : bool :=
  match a, b with
  | Num x, Num y => bool_decide (x < y)%R
  | _, _ => false
  end.

Definition fval_sub (a b : fval) : fval :=
  match a, b with
  | Num x, Num y => Num (x - y)
  | _, _ => NaN
  end.

(** A vector of three floats whose components are three numbers or, after a
    division by a zero norm, all [nan] ([None]). *)
Definition nan_vec3 : Type := option vec3.

(** [np.cross] and [np.dot] with such vectors. *)
Definition nan_cross (a b : nan_vec3) : nan_vec3 :=
  match a, b with
  | Some a, Some b => Some (cross a b)
  | _, _ => None
  end.

Definition nan_dot (a : vec3) (b : nan_vec3) : fval :=
  match b with
  | Some b => Num (dot a b)
  | None => NaN
  end.

(** Modelled from the spec: [utilities.normalize], which is not part of the
    sources at hand; the spec speaks of "normalized vectors", so the vector is
    divided by its norm.  Only the zero vector has norm zero; each of its
    components is then zero divided by zero. *)
Definition normalize (v : vec3) : nan_vec3 :=
  if decide (norm v = 0%R) then None else Some (vscale (/ norm v) v).

(** Modelled from the spec: [utilities.give_angle], which is not part of the
    sources at hand; the spec has the angle "computed via the standard
    inverse-cosine of normalized vectors, clamped to [0°,180°]", in
    degrees. *)
Definition give_angle (a b : nan_vec3) : fval :=
  match a, b with
  | Some a, Some b =>
      match normalize a, normalize b with
      | Some a, Some b => Num (acos (dot a b) * (180 / PI))
      | _, _ => NaN
      end
  | _, _ => NaN
  end.

(** [self.location(indexlist)] for a list of labels. *)
Definition locations (self : Cartesian) (indexlist : list Z) : result (list vec3) :=
  traverse (location self) indexlist.

(** The two plane normals of [dihedral_degrees] and the triple product
    [np.dot(AB, np.cross(n1, n2))]. *)
Definition plane_normals (vi vb va vd : vec3) : nan_vec3 * nan_vec3 :=
  let DA := vsub va vd in
  let AB := vsub vb va in
  let BI := vsub vi vb in
  (normalize (cross DA AB), normalize (cross AB BI)).

Definition triple_product (vi vb va vd : vec3) : fval :=
  let AB := vsub vb va in
  let '(n1, n2) := plane_normals vi vb va vd in
  nan_dot AB (nan_cross n1 n2).

Definition dihedral_of (vi vb va vd : vec3) : fval :=
  let DA := vsub va vd in
  let AB := vsub vb va in
  let BI := vsub vi vb in
  let n1 := normalize (cross DA AB) in
  let n2 := normalize (cross AB BI) in
  let dihedral := give_angle n1 n2 in
  if fval_ne dihedral (Num 0)
  then if fval_lt (Num 0) (nan_dot AB (nan_cross n1 n2))
       then dihedral else fval_sub (Num 360) dihedral
  else dihedral.

Definition dihedral_degrees (self : Cartesian) (index bond_with angle_with dihedral_with : Z)
  : result fval :=
  l ← locations self [index; bond_with; angle_with; dihedral_with];
  match l with
  | [vi; vb; va; vd] => Ok (dihedral_of vi vb va vd)
  | _ => Raise ValueError
  end.

(** [listelement[:4]] unpacked into four names. *)
Definition first_four (listelement : list Z) : result (Z * Z * Z * Z) :=
  match take 4 listelement with
  | [index; bond_with; angle_with; dihedral_with] =>
      Ok (index, bond_with, angle_with, dihedral_with)
  | _ => Raise ValueError
  end.

(** [_dihedral_degrees_optimized]: the same computation for every entry of
    the build list, the first three entries left out on request.  The
    intermediate table of locations only serves speed. *)
Definition _dihedral_degrees_optimized (self : Cartesian) (buildlist : list (list Z))
    (exclude_first : bool) : result (list fval) :=
  let temp_buildlist := if exclude_first then drop 3 buildlist else buildlist in
  _ ← locations self (mjoin (take 4 <$> temp_buildlist));
  traverse (fun listelement =>
      '(index, bond_with, angle_with, dihedral_with) ← first_four listelement;
      dihedral_degrees self index bond_with angle_with dihedral_with)
    temp_buildlist.

Lemma norm_eq_0 (v : vec3) : norm v = 0%R -> v = (0, 0, 0)%R.
Proof.
  destruct v as [[x y] z]. unfold norm, dot. intros Hs.
  apply sqrt_eq_0 in Hs; [|nra].
  assert (x = 0 /\ y = 0 /\ z = 0)%R as (-> & -> & ->) by nra. done.
Qed.

Lemma norm_origin : norm (0, 0, 0)%R = 0%R.
Proof.
  unfold norm, dot. replace (0 * 0 + 0 * 0 + 0 * 0)%R with 0%R by ring. apply sqrt_0.
Qed.

Lemma normalize_Some (v : vec3) :
  v <> (0, 0, 0)%R ->
  normalize v = Some (vscale (/ norm v) v) /\ vscale (/ norm v) v <> (0, 0, 0)%R.
Proof.
  intros Hv. assert (Hn : norm v <> 0%R) by (intros ?%norm_eq_0; done).
  split; [unfold normalize; by rewrite decide_False|].
  intros Hs. apply Hv. destruct v as [[x y] z]. unfold vscale in Hs.
  injection Hs as Hx Hy Hz.
  assert (Hinv : (/ norm (x, y, z) <> 0)%R) by (by apply Rinv_neq_0_compat).
  f_equal; [f_equal|]; nra.
Qed.

Lemma normalize_None (v : vec3) : v = (0, 0, 0)%R -> normalize v = None.
Proof. intros ->. unfold normalize. by rewrite decide_True by apply norm_origin. Qed.

Lemma angle_range (x : R) : (0 <= acos x * (180 / PI) <= 180)%R.
Proof.
  pose proof (acos_bound x) as [H0 H1].
  pose proof PI_RGT_0 as Hpi.
  assert (Hk : (0 < 180 / PI)%R).
  { apply Rmult_lt_0_compat; [lra|]. by apply Rinv_0_lt_compat. }
  split.
  - apply Rmult_le_pos; lra.
  - replace 180%R with (PI * (180 / PI))%R at 2 by (field; lra).
    apply Rmult_le_compat_r; lra.
Qed.

(** Between two plane normals that are numbers, the angle is a number
    between 0 and 180. *)
Lemma give_angle_range (a b : vec3) :
  a <> (0, 0, 0)%R -> b <> (0, 0, 0)%R ->
  exists angle, give_angle (Some a) (Some b) = Num angle /\ (0 <= angle <= 180)%R.
Proof.
  intros Ha Hb. unfold give_angle.
  destruct (normalize_Some a Ha) as [-> _]. destruct (normalize_Some b Hb) as [-> _].
  eexists. split; [done|]. apply angle_range.
Qed.

Lemma locations_four self (i b a d : Z) (vi vb va vd : vec3) :
  location self i = Ok vi -> location self b = Ok vb ->
  location self a = Ok va -> location self d = Ok vd ->
  locations self [i; b; a; d] = Ok [vi; vb; va; vd].
Proof.
  intros Hi Hb Ha Hd. unfold locations. simpl. by rewrite Hi, Hb, Ha, Hd.
Qed.

(** C8, as the code has it: for four atoms of the molecule of which neither
    the first three in the order [dihedral_with], [angle_with], [bond_with]
    nor the last three lie on a line, so that both cross products are not
    zero, [dihedral_degrees] returns a number in [0, 360): 0 when the angle
    between the plane normals is 0, that angle when the triple product is
    positive, and 360 minus it otherwise. *)
Theorem dihedral_degrees_range self (i b a d : Z) (vi vb va vd : vec3) :
  location self i = Ok vi -> location self b = Ok vb ->
  location self a = Ok va -> location self d = Ok vd ->
  cross (vsub va vd) (vsub vb va) <> (0, 0, 0)%R ->
  cross (vsub vb va) (vsub vi vb) <> (0, 0, 0)%R ->
  exists v angle triple,
    dihedral_degrees self i b a d = Ok (Num v) /\
    (0 <= v < 360)%R /\
    give_angle (plane_normals vi vb va vd).1 (plane_normals vi vb va vd).2 = Num angle /\
    triple_product vi vb va vd = Num triple /\
    (angle = 0%R -> v = 0%R) /\
    (angle <> 0%R -> (0 < triple)%R -> v = angle) /\
    (angle <> 0%R -> ~ (0 < triple)%R -> v = (360 - angle)%R).
Proof.
  intros Hi Hb Ha Hd Hn1 Hn2.
  unfold dihedral_degrees. rewrite (locations_four self i b a d vi vb va vd Hi Hb Ha Hd).
  cbv beta iota zeta delta [mbind result_bind].
  unfold dihedral_of, triple_product, plane_normals. cbn [fst snd].
  destruct (normalize_Some _ Hn1) as [-> Hu1]. destruct (normalize_Some _ Hn2) as [-> Hu2].
  set (n1 := vscale _ (cross (vsub va vd) (vsub vb va))) in *.
  set (n2 := vscale _ (cross (vsub vb va) (vsub vi vb))) in *.
  destruct (give_angle_range n1 n2 Hu1 Hu2) as (angle & -> & Hge & Hle).
  cbn [nan_cross nan_dot fval_ne fval_lt fval_sub].
  destruct (decide (angle <> 0%R)) as [Hne|Heq].
  - rewrite bool_decide_eq_true_2 by done.
    destruct (decide (0 < dot (vsub vb va) (cross n1 n2))%R) as [Hpos|Hneg].
    + rewrite bool_decide_eq_true_2 by done.
      exists angle, angle, (dot (vsub vb va) (cross n1 n2)).
      repeat split; try done; try lra.
    + rewrite bool_decide_eq_false_2 by done.
      exists (360 - angle)%R, angle, (dot (vsub vb va) (cross n1 n2)).
      repeat split; try done; try lra.
  - rewrite bool_decide_eq_false_2 by done.
    assert (angle = 0%R) as -> by (destruct (Req_dec angle 0); [done|by exfalso; apply Heq]).
    exists 0%R, 0%R, (dot (vsub vb va) (cross n1 n2)).
    repeat split; try done; try lra.
Qed.

Lemma dihedral_degrees_optimized_entries self buildlist exclude_first l :
  _dihedral_degrees_optimized self buildlist exclude_first = Ok l ->
  Forall2 (fun listelement v =>
             exists i b a d, first_four listelement = Ok (i, b, a, d) /\
                             dihedral_degrees self i b a d = Ok v)
          (if exclude_first then drop 3 buildlist else buildlist) l.
Proof.
  unfold _dihedral_degrees_optimized. intros E.
  apply bind_Ok in E as (? & _ & E). apply traverse_Forall2 in E.
  eapply Forall2_impl; [exact E|]. intros e v Hv. simpl in Hv.
  apply bind_Ok in Hv as ([[[i b] a] d] & Hfour & Hv). by exists i, b, a, d.
Qed.

(** Four atoms that do not lie in one plane. *)
Definition twisted4 : Cartesian :=
  __init__ [(0%Z, {| col_atom := "H"; col_x := 1; col_y := 1; col_z := 0 |});
            (1%Z, {| col_atom := "H"; col_x := 1; col_y := 0; col_z := 0 |});
            (2%Z, {| col_atom := "H"; col_x := 0; col_y := 0; col_z := 0 |});
            (3%Z, {| col_atom := "H"; col_x := 0; col_y := 0; col_z := 1 |})].

Lemma dihedral_degrees_range_witness :
  cross (vsub (0, 0, 0)%R (0, 0, 1)%R) (vsub (1, 0, 0)%R (0, 0, 0)%R) <> (0, 0, 0)%R /\
  cross (vsub (1, 0, 0)%R (0, 0, 0)%R) (vsub (1, 1, 0)%R (1, 0, 0)%R) <> (0, 0, 0)%R /\
  exists v angle triple,
    dihedral_degrees twisted4 0 1 2 3 = Ok (Num v) /\
    (0 <= v < 360)%R /\
    give_angle (plane_normals (1, 1, 0)%R (1, 0, 0)%R (0, 0, 0)%R (0, 0, 1)%R).1
      (plane_normals (1, 1, 0)%R (1, 0, 0)%R (0, 0, 0)%R (0, 0, 1)%R).2 = Num angle /\
    triple_product (1, 1, 0)%R (1, 0, 0)%R (0, 0, 0)%R (0, 0, 1)%R = Num triple /\
    (angle = 0%R -> v = 0%R) /\
    (angle <> 0%R -> (0 < triple)%R -> v = angle) /\
    (angle <> 0%R -> ~ (0 < triple)%R -> v = (360 - angle)%R).
Proof.
  assert (H1 : cross (vsub (0, 0, 0)%R (0, 0, 1)%R) (vsub (1, 0, 0)%R (0, 0, 0)%R) <> (0, 0, 0)%R).
  { unfold cross, vsub. intros [= _ Hy _]. lra. }
  assert (H2 : cross (vsub (1, 0, 0)%R (0, 0, 0)%R) (vsub (1, 1, 0)%R (1, 0, 0)%R) <> (0, 0, 0)%R).
  { unfold cross, vsub. intros [= _ _ Hz]. lra. }
  split; [exact H1|]. split; [exact H2|].
  exact (dihedral_degrees_range twisted4 0 1 2 3 (1, 1, 0)%R (1, 0, 0)%R (0, 0, 0)%R
           (0, 0, 1)%R eq_refl eq_refl eq_refl eq_refl H1 H2).
Defined.

(** Four atoms on a line, one unit apart. *)
Definition line4 : Cartesian :=
  __init__ [(0%Z, H_at 0); (1%Z, H_at 1); (2%Z, H_at 2); (3%Z, H_at 3)].

(** C8 fails as stated at this input: the four atoms are distinct atoms of
    the molecule, both cross products are zero, and what [dihedral_degrees]
    returns is [nan], no number of [0, 360). *)
Lemma dihedral_degrees_collinear :
  dihedral_degrees line4 0 1 2 3 = Ok NaN /\
  ~ exists v, dihedral_degrees line4 0 1 2 3 = Ok (Num v) /\ (0 <= v < 360)%R.
Proof.
  assert (E : dihedral_degrees line4 0 1 2 3 = Ok NaN).
  { unfold dihedral_degrees.
    rewrite (locations_four line4 0 1 2 3 (0, 0, 0)%R (1, 0, 0)%R (2, 0, 0)%R (3, 0, 0)%R
               eq_refl eq_refl eq_refl eq_refl).
    cbv beta iota zeta delta [mbind result_bind]. unfold dihedral_of.
    rewrite (normalize_None (cross (vsub (2, 0, 0)%R (3, 0, 0)%R) (vsub (1, 0, 0)%R (2, 0, 0)%R)))
      by (unfold cross, vsub; f_equal; [f_equal|]; ring).
    reflexivity. }
  split; [exact E|]. intros (v & Hv & _). rewrite E in Hv. discriminate Hv.
Qed.

(** ** Build order *)

(** An element of a build list or of a fragment: an atom label, or a list of
    labels (a build entry: the atom followed by its references). *)
Inductive pyitem : Type :=
  | PyInt (n : Z)
  | PyList (l : list Z).

(** [element[0]] *)
Definition item0 (element : pyitem) : result Z :=
  match element with
  | PyInt _ => Raise TypeError
  | PyList [] => Raise IndexError
  | PyList (x :: _) => Ok x
  end.

(** [l.remove(x)] on a list of labels: drops the first [x], [ValueError] if
    there is none. *)
Fixpoint list_remove (x : Z) (l : list Z) : result (list Z) :=
  match l with
  | [] => Raise ValueError
  | y :: l' => if decide (y = x) then Ok l' else l'' ← list_remove x l'; Ok (y :: l'')
  end.

(** [self.distance(index, bond_with)] *)
Definition distance (self : Cartesian) (index bond_with : Z) : result R :=
  vi ← location self index;
  vb ← location self bond_with;
  Ok (norm (vsub vb vi)).

(** [_order_of_building], as far as it runs: it fills in its two lists,
    removes the atoms already built from those to be built, and then reads
    [mass(frame)].  The function binds no name [mass] (the method of that
    name is [self.mass]) and neither does the module, whose names are its
    imports, [pick] and [Cartesian]; so the read raises, and nothing after
    it is run: the assertion on [recursion], itself a name the function does
    not bind, the nested functions and the loops. *)
Definition _order_of_building (self : Cartesian) (to_be_built : option (list Z))
    (already_built : option (list pyitem)) : result (list pyitem) :=
  let already_built := default [] already_built in
  let to_be_built := default (frame_index (xyz_frame self)) to_be_built in
  (* the [try] block: on any exception [already_built] stays as it was *)
  let already_built :=
    match traverse item0 already_built with
    | Ok keys => PyInt <$> keys
    | Raise _ => already_built
    end in
  to_be_built ← foldlM (fun to_be_built element =>
      match element with
      | PyInt k => list_remove k to_be_built
      | PyList _ => Raise ValueError
      end) to_be_built already_built;
  Raise NameError.

(** [_get_reference]: its first parameter is [xyz_frame], and its first
    statement, [xyz_frame = self.xyz_frame.copy()], reads [self], which
    neither the function nor the module binds. *)
Definition _get_reference (xyz_frame : DataFrame) (order_of_building : list pyitem)
    (recursion : Z) : result (list (list Z)) :=
  Raise NameError.

(** [l[i]] for a position that is not negative *)
Definition list_item {A} (l : list A) (i : nat) : result A :=
  match l !! i with Some a => Ok a | None => Raise IndexError end.

(** *** Conversion to a Z-matrix: the checks and what follows them *)

(** An element of a fragment once prepared: one of its first three elements
    as given, or [[number]] for a later element [number]. *)
Inductive fragment_item : Type :=
  | Given (element : pyitem)
  | Wrapped (number : pyitem).

(** [fragment.remove(index)] on a fragment: an integer equals no list. *)
Fixpoint fragment_remove (index : Z) (fragment : list pyitem) : result (list pyitem) :=
  match fragment with
  | [] => Raise ValueError
  | PyInt n :: fragment' =>
      if decide (n = index) then Ok fragment'
      else rest ← fragment_remove index fragment'; Ok (PyInt n :: rest)
  | element :: fragment' => rest ← fragment_remove index fragment'; Ok (element :: rest)
  end.

(** One pass of the loop that prepares the fragments. *)
Definition prepare_fragment (fragment : list pyitem) : result (list fragment_item) :=
  indices ← traverse item0 (take 3 fragment);
  fragment ← foldlM (fun fragment index => fragment_remove index fragment) fragment indices;
  Ok ((Given <$> take 3 fragment) ++ (Wrapped <$> drop 3 fragment)).

(** [element[0]] for an element of a prepared fragment, as a member of a set:
    a list cannot be hashed. *)
Definition fragment_item0 (element : fragment_item) : result Z :=
  match element with
  | Given element => item0 element
  | Wrapped (PyInt number) => Ok number
  | Wrapped (PyList _) => Raise TypeError
  end.

(** The loop that collects [fragment_index_set]. *)
Definition collect_fragment_index (self : Cartesian) (fragment_index_set : gset Z)
    (fragment : list fragment_item) : result (gset Z) :=
  keys ← traverse fragment_item0 fragment;
  let fragment_index : gset Z := list_to_set keys in
  if decide (fragment_index ⊂ list_to_set (frame_index (xyz_frame self)))
  then Ok (fragment_index_set ∪ fragment_index)
  else Raise AssertionError.

(** [to_zmat] up to its last assertion: the prepared fragments and
    [molecule_without_fragments_set]. *)
Definition to_zmat_checks (self : Cartesian) (buildlist : option (list pyitem))
    (fragments_list : option (list (list pyitem))) (recursion_level : Z)
  : result (list (list fragment_item) * gset Z) :=
  if decide (recursion_level <> 0%Z /\ recursion_level <> 1%Z /\ recursion_level <> 2%Z)
  then Raise AssertionError else
  let buildlist := default [] buildlist in
  let fragments_list := default [] fragments_list in
  fragments ← traverse prepare_fragment fragments_list;
  fragment_index_set ← foldlM (collect_fragment_index self) ∅ fragments;
  let molecule_without_fragments_set : gset Z :=
    list_to_set (frame_index (xyz_frame self)) ∖ fragment_index_set in
  keys ← traverse item0 buildlist;
  if decide ((list_to_set keys : gset Z) ⊆ molecule_without_fragments_set)
  then Ok (fragments, molecule_without_fragments_set)
  else Raise AssertionError.


(** [to_zmat] from its first line to the call that would give
    [building_order]: the checks, then [_order_of_building(...)], a name that
    neither [to_zmat] nor the module binds (the method is an attribute of the
    class, not a name of the module).  The name is read before any argument
    of the call is worked out. *)
Definition to_zmat_big_molecule (self : Cartesian) (buildlist : option (list pyitem))
    (fragments_list : option (list (list pyitem))) (recursion_level : Z)
  : result (list (list Z)) :=
  _ ← to_zmat_checks self buildlist fragments_list recursion_level;
  Raise NameError.

(** ** Facts about the build order *)

Lemma location_is_Ok (self : Cartesian) (k : Z) :
  k ∈ frame_index (xyz_frame self) -> is_Ok (location self k).
Proof.
  intros Hk. unfold location. destruct (frame_row_is_Ok _ _ Hk) as [r ->]. by eexists.
Qed.

Lemma distance_is_Ok (self : Cartesian) (index bond_with : Z) :
  index ∈ frame_index (xyz_frame self) -> bond_with ∈ frame_index (xyz_frame self) ->
  is_Ok (distance self index bond_with).
Proof.
  intros Hi Hb. unfold distance.
  destruct (location_is_Ok _ _ Hi) as [vi ->]. destruct (location_is_Ok _ _ Hb) as [vb ->].
  by eexists.
Qed.

Lemma list_item_Ok {A} (l : list A) (i : nat) (a : A) :
  list_item l i = Ok a <-> l !! i = Some a.
Proof. unfold list_item. destruct (l !! i); split; congruence. Qed.

(** C7, as the code has it: neither function ever returns a build order or
    a reference list.  [_order_of_building] raises [NameError] with its
    default lists on every molecule, where it reads [mass], and returns on
    no arguments at all; [_get_reference] raises [NameError] on every call,
    at its first statement; and [to_zmat], the caller of the two, never
    gets past its call of [_order_of_building]. *)
Theorem build_order_name_error (self : Cartesian) (to_be_built : option (list Z))
    (already_built : option (list pyitem)) (xyz_frame : DataFrame)
    (order_of_building : list pyitem) (recursion : Z)
    (buildlist : option (list pyitem)) (fragments_list : option (list (list pyitem))) :
  _order_of_building self None None = Raise NameError /\
  ~ is_Ok (_order_of_building self to_be_built already_built) /\
  _get_reference xyz_frame order_of_building recursion = Raise NameError /\
  ~ is_Ok (to_zmat_big_molecule self buildlist fragments_list recursion).
Proof.
  split; [reflexivity|]. split; [|split; [reflexivity|]].
  - unfold _order_of_building. intros [order E].
    apply bind_Ok in E as (rest & _ & E). discriminate E.
  - unfold to_zmat_big_molecule. intros [entries E].
    apply bind_Ok in E as (checked & _ & E). discriminate E.
Qed.

(** ** Facts about the checks of [to_zmat] *)

Lemma traverse_elem_of {A B} (f : A -> result B) (l : list A) (bs : list B) (a : A) :
  traverse f l = Ok bs -> a ∈ l -> exists b, f a = Ok b /\ b ∈ bs.
Proof.
  intros E [i Hi]%list_elem_of_lookup.
  destruct (traverse_lookup _ _ _ _ _ E Hi) as (b & Hb & Hf).
  exists b. split; [done|]. by apply list_elem_of_lookup_2 in Hb.
Qed.

Lemma fragment_remove_elem (index : Z) (fragment fragment' : list pyitem) (x : pyitem) :
  fragment_remove index fragment = Ok fragment' -> x ∈ fragment ->
  x ∈ fragment' \/ x = PyInt index.
Proof.
  revert fragment'. induction fragment as [|y fragment IH]; intros fragment'; simpl.
  - discriminate.
  - destruct y as [n|l].
    + case_decide as Hn.
      * intros [= <-] [->|Hx]%elem_of_cons; [right; by subst | by left].
      * intros E. apply bind_Ok in E as (rest & Hrest & [= <-]).
        intros [->|Hx]%elem_of_cons; [left; left|].
        destruct (IH _ Hrest Hx) as [?|?]; [left; by right | by right].
    + intros E. apply bind_Ok in E as (rest & Hrest & [= <-]).
      intros [->|Hx]%elem_of_cons; [left; left|].
      destruct (IH _ Hrest Hx) as [?|?]; [left; by right | by right].
Qed.

Lemma fragment_remove_all_elem (indices : list Z) (fragment fragment' : list pyitem)
    (x : pyitem) :
  foldlM (fun fragment index => fragment_remove index fragment) fragment indices
    = Ok fragment' ->
  x ∈ fragment -> x ∈ fragment' \/ exists index, index ∈ indices /\ x = PyInt index.
Proof.
  revert fragment. induction indices as [|index indices IH]; intros fragment; simpl.
  - intros [= <-]. by left.
  - intros E Hx. apply bind_Ok in E as (fragment1 & E1 & E).
    destruct (fragment_remove_elem _ _ _ _ E1 Hx) as [Hx1| ->].
    + destruct (IH _ E Hx1) as [?|(i & Hi & ->)]; [by left|].
      right. exists i. split; [by right|done].
    + right. exists index. split; [left|done].
Qed.

(** Every atom listed in a fragment is among the keys of the fragment once
    prepared, if those can be collected at all. *)
Lemma prepared_fragment_keys (fragment : list pyitem) (prepared : list fragment_item)
    (keys : list Z) (k : Z) :
  prepare_fragment fragment = Ok prepared ->
  traverse fragment_item0 prepared = Ok keys ->
  PyInt k ∈ fragment -> k ∈ keys.
Proof.
  unfold prepare_fragment. intros E Hkeys Hk.
  apply bind_Ok in E as (indices & Hind & E).
  apply bind_Ok in E as (fragment' & Hrem & [= <-]).
  assert (Hitem : forall x, x ∈ fragment' ->
            (match x with PyInt n => n ∈ keys | PyList (n :: _) => n ∈ keys
                          | PyList [] => False end)).
  { intros x Hx. rewrite <- (take_drop 3 fragment') in Hx.
    apply elem_of_app in Hx as [Hx|Hx].
    - destruct (traverse_elem_of _ _ _ (Given x) Hkeys) as (b & Hb & Hin).
      { apply elem_of_app. left. by apply list_elem_of_fmap_2. }
      simpl in Hb. destruct x as [n|[|n l]]; simpl in Hb; try done.
      by injection Hb as ->.
    - destruct (traverse_elem_of _ _ _ (Wrapped x) Hkeys) as (b & Hb & Hin).
      { apply elem_of_app. right. by apply list_elem_of_fmap_2. }
      simpl in Hb. destruct x as [n|l]; simpl in Hb; try done.
      by injection Hb as ->. }
  destruct (fragment_remove_all_elem _ _ _ _ Hrem Hk) as [Hin|(index & Hindex & [= ->])].
  - exact (Hitem _ Hin).
  - (* [k] is the atom of one of the three leading entries *)
    apply traverse_Forall2 in Hind.
    apply list_elem_of_lookup in Hindex as [i Hi].
    destruct (Forall2_lookup_r _ _ _ _ _ Hind Hi) as (element & Hel & Hitem0).
    destruct element as [n|[|n l]]; simpl in Hitem0; try done.
    injection Hitem0 as ->.
    assert (Hin : PyList (index :: l) ∈ fragment).
    { apply (subseteq_take 3). by apply list_elem_of_lookup_2 in Hel. }
    destruct (fragment_remove_all_elem _ _ _ _ Hrem Hin) as [Hin'|(? & _ & [=])].
    exact (Hitem _ Hin').
Qed.

Section ChecksFacts.
Variable self : Cartesian.

Lemma collect_fragment_index_Ok (fragments : list (list fragment_item))
    (acc fragment_index_set : gset Z) (prepared : list fragment_item) :
  foldlM (collect_fragment_index self) acc fragments = Ok fragment_index_set ->
  prepared ∈ fragments ->
  exists keys, traverse fragment_item0 prepared = Ok keys /\
    (list_to_set keys : gset Z) ⊂ list_to_set (frame_index (xyz_frame self)).
Proof.
  revert acc. induction fragments as [|fragment fragments IH]; intros acc; simpl.
  - by intros _ ?%elem_of_nil.
  - intros E Hin. apply bind_Ok in E as (acc' & Hstep & E).
    apply elem_of_cons in Hin as [->|Hin]; [|by apply (IH acc')].
    unfold collect_fragment_index in Hstep.
    apply bind_Ok in Hstep as (keys & Hkeys & Hstep).
    exists keys. split; [done|]. by case_decide.
Qed.

(** Past the checks every atom listed in a fragment is an atom of the
    molecule. *)
Lemma to_zmat_checks_Ok (buildlist : option (list pyitem))
    (fragments_list : list (list pyitem)) (recursion_level : Z)
    (checked : list (list fragment_item) * gset Z) (fragment : list pyitem) (k : Z) :
  to_zmat_checks self buildlist (Some fragments_list) recursion_level = Ok checked ->
  fragment ∈ fragments_list -> PyInt k ∈ fragment ->
  k ∈ frame_index (xyz_frame self).
Proof.
  unfold to_zmat_checks. intros E Hfr Hk.
  case_decide; [done|]. simpl in E.
  apply bind_Ok in E as (fragments & Hprep & E).
  apply bind_Ok in E as (fragment_index_set & Hcollect & _).
  destruct (traverse_elem_of _ _ _ _ Hprep Hfr) as (prepared & Hprepared & Hin).
  destruct (collect_fragment_index_Ok _ _ _ _ Hcollect Hin) as (keys & Hkeys & [Hsub _]).
  pose proof (prepared_fragment_keys _ _ _ _ Hprepared Hkeys Hk) as Hkey.
  apply (elem_of_list_to_set (C := gset Z)). apply Hsub.
  by apply elem_of_list_to_set.
Qed.

Lemma collect_fragment_index_Raise (fragments : list (list fragment_item))
    (acc : gset Z) (e : exn) :
  foldlM (collect_fragment_index self) acc fragments = Raise e ->
  Forall (fun prepared => is_Ok (traverse fragment_item0 prepared)) fragments ->
  e = AssertionError.
Proof.
  revert acc. induction fragments as [|fragment fragments IH]; intros acc; simpl.
  - discriminate.
  - intros E [[keys Hkeys] Hrest]%Forall_cons. unfold collect_fragment_index in E.
    rewrite Hkeys in E. simpl in E. case_decide.
    + simpl in E. by apply (IH _ E).
    + simpl in E. congruence.
Qed.

(** When the fragments are of the right shape, the error for an atom that
    is not in the molecule is the failed assertion of the loop over the
    fragments. *)
Lemma fragment_outside_assertion (buildlist : option (list pyitem))
    (fragments_list : list (list pyitem)) (recursion_level : Z)
    (fragments : list (list fragment_item)) (fragment : list pyitem) (k : Z) :
  recursion_level = 0%Z \/ recursion_level = 1%Z \/ recursion_level = 2%Z ->
  traverse prepare_fragment fragments_list = Ok fragments ->
  Forall (fun prepared => is_Ok (traverse fragment_item0 prepared)) fragments ->
  fragment ∈ fragments_list -> PyInt k ∈ fragment ->
  k ∉ frame_index (xyz_frame self) ->
  to_zmat_checks self buildlist (Some fragments_list) recursion_level
    = Raise AssertionError.
Proof.
  intros Hrec Hprep Hkeys Hfr Hk Hout.
  destruct (to_zmat_checks self buildlist (Some fragments_list) recursion_level)
    as [checked|e] eqn:E.
  { exfalso. apply Hout. by apply (to_zmat_checks_Ok _ _ _ _ _ _ E Hfr Hk). }
  f_equal. unfold to_zmat_checks in E. rewrite decide_False in E by lia.
  simpl in E. rewrite Hprep in E. simpl in E.
  destruct (foldlM (collect_fragment_index self) ∅ fragments) as [s|e'] eqn:Hfold.
  - exfalso. apply Hout.
    destruct (traverse_elem_of _ _ _ _ Hprep Hfr) as (prepared & Hprepared & Hin).
    destruct (collect_fragment_index_Ok _ _ _ _ Hfold Hin) as (keys & Hk' & [Hsub _]).
    pose proof (prepared_fragment_keys _ _ _ _ Hprepared Hk' Hk) as Hkey.
    apply (elem_of_list_to_set (C := gset Z)). apply Hsub. by apply elem_of_list_to_set.
  - simpl in E. injection E as <-. by apply (collect_fragment_index_Raise _ _ _ Hfold).
Qed.

End ChecksFacts.

(** C9, as the code has it: when a fragment lists an atom that is not an
    atom of the molecule, [to_zmat] raises in its checks, so before the build
    order of anything is looked for.  (That two fragments share an atom is
    not among the checks.) *)
Theorem to_zmat_fragment_outside (self : Cartesian)
    (buildlist : option (list pyitem)) (fragments_list : list (list pyitem))
    (recursion_level : Z) (fragment : list pyitem) (k : Z) :
  fragment ∈ fragments_list -> PyInt k ∈ fragment ->
  k ∉ frame_index (xyz_frame self) ->
  exists e,
    to_zmat_checks self buildlist (Some fragments_list) recursion_level = Raise e /\
    to_zmat_big_molecule self buildlist (Some fragments_list) recursion_level = Raise e.
Proof.
  intros Hfr Hk Hout. unfold to_zmat_big_molecule.
  destruct (to_zmat_checks self buildlist (Some fragments_list) recursion_level)
    as [checked|e] eqn:E.
  - exfalso. apply Hout. by apply (to_zmat_checks_Ok self _ _ _ _ _ _ E Hfr Hk).
  - by exists e.
Qed.

(** A fragment on the chain 0-1-2 that lists atom 7. *)
Definition outside_fragment : list pyitem :=
  [PyList [0; 2]%Z; PyList [1; 0]%Z; PyList [7; 1; 0]%Z; PyInt 0; PyInt 1; PyInt 7].

Lemma outside_fragment_checks :
  to_zmat_checks chain3 None (Some [outside_fragment]) 2 = Raise AssertionError.
Proof. vm_compute. reflexivity. Qed.

Lemma to_zmat_fragment_outside_witness :
  exists e,
    to_zmat_checks chain3 None (Some [outside_fragment]) 2 = Raise e /\
    to_zmat_big_molecule chain3 None (Some [outside_fragment]) 2 = Raise e.
Proof.
  apply (to_zmat_fragment_outside chain3 None [outside_fragment] 2 outside_fragment 7).
  - apply list_elem_of_here.
  - unfold outside_fragment. do 5 apply list_elem_of_further. apply list_elem_of_here.
  - simpl. rewrite !elem_of_cons, elem_of_nil. lia.
Defined.

(** Atoms 0 to 4 on the x axis, one unit apart. *)
Definition chain5 : Cartesian :=
  __init__ [(0%Z, H_at 0); (1%Z, H_at 1); (2%Z, H_at 2); (3%Z, H_at 3); (4%Z, H_at 4)].

(** Two fragments of [chain5] that share the atoms 1 and 2. *)
Definition overlapping_fragments : list (list pyitem) :=
  [ [PyList [0; 4]%Z; PyList [1; 0]%Z; PyList [2; 1; 0]%Z; PyInt 0; PyInt 1; PyInt 2];
    [PyList [1; 4]%Z; PyList [2; 1]%Z; PyList [3; 2; 1]%Z; PyInt 1; PyInt 2; PyInt 3] ].

(** As the specification has it: two fragments of the list have an atom in
    common. *)
Definition fragments_overlap (fragments_list : list (list pyitem)) : Prop :=
  exists i j f g k,
    i <> j /\ fragments_list !! i = Some f /\ fragments_list !! j = Some g /\
    PyInt k ∈ f /\ PyInt k ∈ g.

Lemma overlapping_fragments_checks :
  exists fragments,
    to_zmat_checks chain5 None (Some overlapping_fragments) 0 = Ok (fragments, {[ 4%Z ]}).
Proof. eexists. vm_compute. reflexivity. Qed.

(** C9 fails as stated at this input: the two fragments share the atoms 1
    and 2, the checks pass, and [to_zmat] goes on to the build order of the
    rest of the molecule; the error it then raises is that of the unbound
    name, not one about the fragments. *)
Lemma to_zmat_overlap_counterexample :
  fragments_overlap overlapping_fragments /\
  is_Ok (to_zmat_checks chain5 None (Some overlapping_fragments) 0) /\
  to_zmat_big_molecule chain5 None (Some overlapping_fragments) 0 = Raise NameError.
Proof.
  split; [|split].
  - eexists 0%nat, 1%nat, _, _, 1%Z. split; [done|].
    split; [reflexivity|]. split; [reflexivity|]. split.
    + do 4 apply list_elem_of_further. apply list_elem_of_here.
    + do 3 apply list_elem_of_further. apply list_elem_of_here.
  - destruct overlapping_fragments_checks as [fragments ->]. by eexists.
  - unfold to_zmat_big_molecule.
    destruct overlapping_fragments_checks as [fragments ->]. reflexivity.
Qed.
(** * Further properties of the code *)

(** ** Bond detection in every configuration *)

Lemma foldlM_invariant_in {A B} (P : B -> Prop) (f : B -> A -> result B) l b b' :
  (forall b a b', a ∈ l -> P b -> f b a = Ok b' -> P b') ->
  P b -> foldlM f b l = Ok b' -> P b'.
Proof.
  revert b. induction l as [|a l IH]; intros b Hf Hb; simpl.
  - by intros [= <-].
  - intros E. apply bind_Ok in E as (b1 & H1 & E).
    apply (IH b1); [|by apply (Hf b a b1); [left|..]|done].
    intros b0 a0 b0' Ha0. apply Hf. by right.
Qed.

Lemma elem_of_index_list `{SetOrder} (i : index_like) (k : Z) :
  k ∈ index_list i <-> k ∈ index_set i.
Proof.
  destruct i as [l|s]; simpl; [by rewrite elem_of_list_to_set|apply elem_of_iter_order].
Qed.

Section BondSoundness.
Context `{SetOrder} `{Sorter}.
Variable atom_properties : gmap string atom_property.

(** Whatever the valency arbitration does, two atoms linked in the final
    array are different atoms of the cell with a positive overlap. *)
Lemma linked_sound self bsd include ov0 uv tv A B :
  NoDup include ->
  (forall i j A B, include !! i = Some A -> include !! j = Some B ->
     overlap_of self bsd A B (ov0 i j)) ->
  linked include (gt0 (final_array uv (length include) tv (fill_diagonal ov0 (-1)))) A B ->
  A ∈ include /\ B ∈ include /\ A <> B /\
  exists o, overlap_of self bsd A B o /\ (0 < o)%R.
Proof.
  intros Hnd Hval (i & j & Hi & Hj & Hb).
  pose proof (below_gt0 _ _ i j (final_array_below uv (length include) tv _) Hb) as Heq.
  unfold gt0 in Hb. apply bool_decide_eq_true in Hb. rewrite Heq in Hb.
  unfold fill_diagonal in Hb. case_decide as Hij; [lra|].
  repeat split; [by eapply list_elem_of_lookup_2|by eapply list_elem_of_lookup_2| |].
  - intros ->. apply Hij. by eapply NoDup_lookup.
  - exists (ov0 i j). split; [by apply Hval|done].
Qed.

Lemma cell_NoDup self mel de cube_dic (c : cuboid_cell) :
  NoDup (frame_index (xyz_frame self)) ->
  _divide_et_impera self mel de = Ok cube_dic -> c ∈ cube_dic ->
  NoDup (index_list c.2.2).
Proof.
  intros Hnd E Hc. destruct c as [pos [small [l|s]]]; simpl; [|apply NoDup_iter_order].
  unfold _divide_et_impera in E.
  apply bind_Ok in E as ([[minimum extent] steps] & _ & E).
  case_decide.
  - injection E as <-. apply list_elem_of_singleton in Hc. by injection Hc as _ _ ->.
  - repeat case_decide; try done.
    apply bind_Ok in E as (ix & _ & E). apply bind_Ok in E as (iy & _ & E).
    apply bind_Ok in E as (iz & _ & [= <-]).
    apply elem_of_cuboids in Hc as (x & y & z & _ & _ & _ & [=]).
Qed.

Lemma bond_dic_keys self mp bd vd bsd k :
  preparation_of_variables atom_properties self mp = Ok (bd, vd, bsd) ->
  is_Some (bd !! k) <-> k ∈ frame_index (xyz_frame self).
Proof.
  intros Hprep. split.
  - intros [s Hs]. unfold preparation_of_variables in Hprep.
    apply bind_Ok in Hprep as (vs & _ & Hprep). apply bind_Ok in Hprep as (bs & _ & Hprep).
    assert (bd = dict_zip (frame_index (xyz_frame self))
                   (replicate (n_atoms self) (∅ : gset Z))) as ->.
    { destruct mp as [m|]; [|by injection Hprep as <- _ _].
      destruct (map_fold _ _ m) as [? ?]. by injection Hprep as <- _ _. }
    by apply dict_zip_lookup_Some in Hs as [? _].
  - intros Hk. by apply (preparation_of_variables_spec atom_properties self mp bd vd bsd).
Qed.

(** What the loop over the cells keeps, relative to the dictionary it
    starts with. *)
Definition sound_bonds (self : Cartesian) (bsd : gmap Z R) (bd d : gmap Z (gset Z)) : Prop :=
  (forall A, is_Some (d !! A) <-> is_Some (bd !! A)) /\
  forall A B s, d !! A = Some s -> B ∈ s ->
    B ∈ frame_index (xyz_frame self) /\ A <> B /\
    exists o, overlap_of self bsd A B o /\ (0 < o)%R.

Lemma complete_calculation_sound self mp mel de uv dei g bd vd bsd :
  NoDup (frame_index (xyz_frame self)) ->
  preparation_of_variables atom_properties self mp = Ok (bd, vd, bsd) ->
  complete_calculation atom_properties self mp mel de uv dei = Ok g ->
  sound_bonds self bsd bd g.
Proof.
  intros Hnd Hprep E. unfold complete_calculation in E. rewrite Hprep in E. simpl in E.
  pose proof (preparation_of_variables_spec atom_properties self mp bd vd bsd Hprep)
    as [Hempty _].
  assert (Hstep : forall d include d',
            NoDup include ->
            (forall k, k ∈ include -> k ∈ frame_index (xyz_frame self)) ->
            sound_bonds self bsd bd d ->
            get_bonds_local self d vd bsd uv include = Ok d' ->
            sound_bonds self bsd bd d').
  { intros d include d' Hndi Hincl [Hdom Hsound] Hd'. split.
    - intros A. rewrite <- Hdom. by apply (get_bonds_local_dom self d vd bsd uv include).
    - intros A B s HA HB.
      destruct (get_bonds_local_spec self d vd bsd uv include d' Hd')
        as (ov0 & tv & Hval & _ & _ & Hspec).
      specialize (Hspec A). destruct (d !! A) as [s0|] eqn:E0; [|congruence].
      destruct Hspec as (s' & Hs' & Hiff). assert (s' = s) as -> by congruence.
      destruct (proj1 (Hiff B) HB) as [HB'|Hl]; [by apply (Hsound A B s0)|].
      destruct (linked_sound self bsd include ov0 uv tv A B Hndi Hval Hl)
        as (_ & HBi & Hne & Ho).
      split; [by apply Hincl|]. by split. }
  assert (HP : sound_bonds self bsd bd bd).
  { split; [done|]. intros A B s HA HB. apply Hempty in HA as ->.
    by apply elem_of_empty in HB. }
  destruct dei.
  - apply bind_Ok in E as (cells & Hcells & E).
    eapply (foldlM_invariant_in (sound_bonds self bsd bd)); [|exact HP|exact E].
    intros d c d' Hc Hd Hd'. apply (Hstep d (index_list c.2.2) d'); try done.
    + by apply (cell_NoDup self mel de cells).
    + intros k Hk. by apply (divide_et_impera_big_subset self mel de cells c).
  - by apply (Hstep bd (frame_index (xyz_frame self)) g).
Qed.

(** X1: in every configuration, a dictionary [get_bonds] computes has an
    entry for every atom of the molecule and for nothing else, and it only
    ever bonds two different atoms of the molecule whose overlap is
    positive. *)
Theorem get_bonds_sound self mp mel de uv set_lookup dei g self' :
  NoDup (frame_index (xyz_frame self)) ->
  get_bonds atom_properties self mp mel de uv false set_lookup dei = Ok (g, self') ->
  exists bd vd bsd,
    preparation_of_variables atom_properties self mp = Ok (bd, vd, bsd) /\
    (forall A, is_Some (g !! A) <-> A ∈ frame_index (xyz_frame self)) /\
    forall A B s, g !! A = Some s -> B ∈ s ->
      B ∈ frame_index (xyz_frame self) /\ A <> B /\
      exists o, overlap_of self bsd A B o /\ (0 < o)%R.
Proof.
  intros Hnd [E _]%get_bonds_fresh.
  assert (Hprep : is_Ok (preparation_of_variables atom_properties self mp)).
  { unfold complete_calculation in E.
    apply bind_Ok in E as (p & Hp & _). by exists p. }
  destruct Hprep as [[[bd vd] bsd] Hprep].
  exists bd, vd, bsd. split; [done|].
  destruct (complete_calculation_sound self mp mel de uv dei g bd vd bsd Hnd Hprep E)
    as [Hdom Hsound].
  split; [|exact Hsound].
  intros A. rewrite Hdom. by apply (bond_dic_keys self mp bd vd bsd).
Qed.

End BondSoundness.

(** ** Partitioning does not change the bonds *)


Section PartitionFacts.
Context `{SetOrder} `{Sorter}.
Variable atom_properties : gmap string atom_property.




Lemma location_row self (A : Z) (pA : vec3) :
  location self A = Ok pA ->
  exists r, (A, r) ∈ xyz_frame self /\ pA = row_location r.
Proof.
  unfold location. intros (r & Hr & ->)%fmap_Ok. exists r. split; [|done].
  by apply frame_row_Ok.
Qed.



End PartitionFacts.

Lemma get_bonds_sound_witness :
  exists g self',
    NoDup (frame_index (xyz_frame chain3)) /\
    get_bonds hydrogen_table chain3 None 1 6 true false true true = Ok (g, self') /\
    exists bd vd bsd,
      preparation_of_variables hydrogen_table chain3 None = Ok (bd, vd, bsd) /\
      (forall A, is_Some (g !! A) <-> A ∈ frame_index (xyz_frame chain3)) /\
      forall A B s, g !! A = Some s -> B ∈ s ->
        B ∈ frame_index (xyz_frame chain3) /\ A <> B /\
        exists o, overlap_of chain3 bsd A B o /\ (0 < o)%R.
Proof.
  destruct (get_bonds_is_Ok hydrogen_table chain3 None 1 6 true false true true)
    as [[g self'] E]; [exact chain3_table|intros _; split; [done|lra]|].
  exists g, self'. split; [exact chain3_NoDup|]. split; [exact E|].
  exact (get_bonds_sound hydrogen_table chain3 None 1 6 true true true g self'
           chain3_NoDup E).
Defined.



(** ** The lookup of [get_bonds] *)

Section LookupFacts.
Context `{SetOrder} `{Sorter}.
Variable atom_properties : gmap string atom_property.

(** X3: once a call has stored its dictionary, every later call that uses
    the lookup returns that dictionary and leaves the object as it is,
    whatever the other arguments are. *)
Theorem get_bonds_lookup_round_trip self mp mel de uv dei g self'
    mp' mel' de' uv' set_lookup' dei' :
  get_bonds atom_properties self mp mel de uv false true dei = Ok (g, self') ->
  xyz_frame self' = xyz_frame self /\
  __bond_dic self' = Some g /\
  get_bonds atom_properties self' mp' mel' de' uv' true set_lookup' dei' = Ok (g, self').
Proof.
  intros [_ ->]%get_bonds_fresh. split; [done|]. split; [done|].
  unfold get_bonds. done.
Qed.

(** X4: when the element of some atom is not in the table of properties, a
    call that does not use the lookup raises [KeyError]. *)
Theorem get_bonds_unknown_element self mp mel de uv set_lookup dei k r :
  NoDup (frame_index (xyz_frame self)) ->
  (k, r) ∈ xyz_frame self -> atom_properties !! col_atom r = None ->
  get_bonds atom_properties self mp mel de uv false set_lookup dei = Raise KeyError.
Proof.
  intros Hnd Hin Hnone.
  assert (Hprep : preparation_of_variables atom_properties self mp = Raise KeyError).
  2:{ unfold get_bonds, complete_calculation. by rewrite Hprep. }
  unfold preparation_of_variables.
  assert (Htrav : forall l, k ∈ l ->
            (forall x, x ∈ l -> x ∈ frame_index (xyz_frame self)) ->
            traverse (fun index =>
                r ← frame_row (xyz_frame self) index;
                p ← getitem atom_properties (col_atom r); Ok (valency p)) l
            = Raise KeyError).
  { unfold getitem.
    induction l as [|x l IH]; intros Hk Hsub; [by apply elem_of_nil in Hk|]. simpl.
    destruct (frame_row_is_Ok (xyz_frame self) x (Hsub x ltac:(left))) as [rx Hrx].
    rewrite Hrx. simpl.
    destruct (atom_properties !! col_atom rx) as [p|] eqn:Hp; [|done]. simpl.
    rewrite IH; [done| |intros; apply Hsub; by right].
    apply elem_of_cons in Hk as [->|Hk]; [|done].
    rewrite (frame_row_NoDup _ _ _ Hnd Hin) in Hrx. injection Hrx as <-. congruence. }
  rewrite Htrav; [done| |done].
  apply list_elem_of_fmap. by exists (k, r).
Qed.

(** X5: on a molecule without atoms the partitioning raises [IndexError],
    and so does [get_bonds] with it, which is its default; without
    partitioning [get_bonds] returns the empty dictionary. *)
Theorem get_bonds_empty_molecule self mp mel de uv set_lookup :
  xyz_frame self = [] ->
  _divide_et_impera self mel de = Raise IndexError /\
  get_bonds atom_properties self mp mel de uv false set_lookup true = Raise IndexError /\
  exists self',
    get_bonds atom_properties self mp mel de uv false set_lookup false = Ok (∅, self').
Proof.
  intros Hempty.
  assert (Hdiv : _divide_et_impera self mel de = Raise IndexError).
  { unfold _divide_et_impera, partition_steps.
    by rewrite (first_item_empty self ax_x Hempty). }
  assert (Hprep : exists vd bsd,
            preparation_of_variables atom_properties self mp = Ok (∅, vd, bsd)).
  { unfold preparation_of_variables, n_atoms. rewrite Hempty. simpl.
    destruct mp as [m|]; [|by eexists _, _].
    destruct (map_fold _ _ m) as [vd bsd]. by eexists _, _. }
  destruct Hprep as (vd & bsd & Hprep).
  split; [done|]. split.
  - unfold get_bonds, complete_calculation. rewrite Hprep. simpl. by rewrite Hdiv.
  - unfold get_bonds, complete_calculation. rewrite Hprep. simpl. rewrite Hempty.
    unfold get_bonds_local, _overlap, _give_distance_array. simpl.
    destruct uv; simpl; by eexists.
Qed.

End LookupFacts.

Lemma get_bonds_lookup_round_trip_witness :
  exists g self',
    get_bonds hydrogen_table chain3 None 25 6 false false true true = Ok (g, self') /\
    xyz_frame self' = xyz_frame chain3 /\
    __bond_dic self' = Some g /\
    get_bonds hydrogen_table self' None 1 0 true true false false = Ok (g, self').
Proof.
  destruct (get_bonds_is_Ok hydrogen_table chain3 None 25 6 false false true true)
    as [[g self'] E]; [exact chain3_table|intros _; split; [done|lra]|].
  exists g, self'. split; [exact E|].
  exact (get_bonds_lookup_round_trip hydrogen_table chain3 None 25 6 false true g self'
           None 1 0 true false false E).
Defined.

(** An atom of an element that [hydrogen_table] does not list. *)
Definition stranger : Cartesian :=
  __init__ [(0%Z, H_at 0);
            (1%Z, {| col_atom := "Xx"; col_x := 1; col_y := 0; col_z := 0 |})].

Lemma get_bonds_unknown_element_witness :
  get_bonds hydrogen_table stranger None 25 6 false false true true = Raise KeyError.
Proof.
  apply (get_bonds_unknown_element hydrogen_table stranger None 25 6 false true true 1%Z
           {| col_atom := "Xx"; col_x := 1; col_y := 0; col_z := 0 |}).
  - simpl. apply NoDup_cons. split; [|apply NoDup_singleton].
    rewrite list_elem_of_singleton. lia.
  - simpl. apply list_elem_of_further, list_elem_of_here.
  - simpl. unfold hydrogen_table. by apply lookup_singleton_ne.
Defined.

Lemma get_bonds_empty_molecule_witness :
  _divide_et_impera (__init__ []) 25 6 = Raise IndexError /\
  get_bonds hydrogen_table (__init__ []) None 25 6 false false true true
    = Raise IndexError /\
  exists self',
    get_bonds hydrogen_table (__init__ []) None 25 6 false false true false
      = Ok (∅, self').
Proof.
  exact (get_bonds_empty_molecule hydrogen_table (__init__ []) None 25 6 false true
           eq_refl).
Defined.

(** ** Connected atoms *)

Section ComponentFacts.
Context `{SetOrder}.

(** A bond dictionary whose bonded atoms all have an entry. *)
Definition closed_graph (g : gmap Z (gset Z)) : Prop :=
  forall a s b, g !! a = Some s -> b ∈ s -> is_Some (g !! b).

Lemma connected_loop_errors fuel g exclude included visited pending e :
  closed_graph g -> (forall p, p ∈ pending -> is_Some (g !! p)) ->
  connected_loop fuel g exclude included visited pending = Raise e -> e = OutOfFuel.
Proof.
  intros Hclosed. revert included visited pending.
  induction fuel as [|fuel IH]; intros included visited pending Hpending.
  - destruct pending; simpl; [done|]. by intros [= <-].
  - destruct pending as [|index pending]; simpl; [done|].
    destruct (Hpending index) as [s Hs]; [left|].
    unfold getitem. rewrite Hs. simpl. apply IH.
    intros p [Hp|Hp]%elem_of_app; [apply Hpending; by right|].
    apply elem_of_iter_order in Hp.
    apply (Hclosed index s p Hs).
    apply elem_of_difference in Hp as [Hp _]. by apply elem_of_difference in Hp as [Hp _].
Qed.

Lemma connected_to_total index_of_atom g exclude s0 :
  closed_graph g -> g !! index_of_atom = Some s0 ->
  let excluded : gset Z := match exclude with None => ∅ | Some l => list_to_set l end in
  exists result,
    _connected_to index_of_atom g exclude = Ok result /\
    forall x, x ∈ result <->
      (x ∉ excluded) /\ rtc (bond_step g excluded) index_of_atom x.
Proof.
  intros Hclosed Hs0 excluded.
  destruct (_connected_to index_of_atom g exclude) as [result|e] eqn:E.
  - exists result. split; [done|].
    exact (connected_to_reachable index_of_atom g exclude result E).
  - exfalso. apply (connected_to_terminates index_of_atom g exclude).
    rewrite E. f_equal. unfold _connected_to in E.
    unfold getitem in E. rewrite Hs0 in E.
    cbv beta iota zeta delta [mbind result_bind] in E.
    match type of E with
    | match connected_loop ?f ?g ?e ?i ?v ?p with _ => _ end = _ =>
        destruct (connected_loop f g e i v p) as [l|err] eqn:El; [done|]
    end.
    injection E as <-. apply (connected_loop_errors _ _ _ _ _ _ _ Hclosed) in El; [done|].
    intros p Hp%elem_of_iter_order.
    apply elem_of_difference in Hp as [[->%elem_of_singleton|Hp]%elem_of_union _].
    + by eexists.
    + by apply (Hclosed index_of_atom s0 p).
Qed.

(** X6: on a dictionary whose bonded atoms all have an entry,
    [_connected_to] raises [KeyError] for a seed without an entry, and for a
    seed with one it returns exactly the atoms outside [exclude] that a chain
    of bonds through atoms outside [exclude] links to the seed; the seed
    itself is among them unless it is excluded. *)
Theorem connected_to_component index_of_atom g exclude :
  closed_graph g ->
  let excluded : gset Z := match exclude with None => ∅ | Some l => list_to_set l end in
  match g !! index_of_atom with
  | None => _connected_to index_of_atom g exclude = Raise KeyError
  | Some _ =>
      exists result,
        _connected_to index_of_atom g exclude = Ok result /\
        (forall x, x ∈ result <->
           (x ∉ excluded) /\ rtc (bond_step g excluded) index_of_atom x) /\
        (index_of_atom ∈ result <-> index_of_atom ∉ excluded)
  end.
Proof.
  intros Hclosed excluded.
  destruct (g !! index_of_atom) as [s0|] eqn:Hs0.
  2:{ unfold _connected_to, getitem. by rewrite Hs0. }
  destruct (connected_to_total index_of_atom g exclude s0 Hclosed Hs0)
    as (result & E & Hreach).
  exists result. split; [done|]. split; [exact Hreach|].
  rewrite (Hreach index_of_atom). fold excluded.
  split; [tauto|]. intros Hx. split; [done|apply rtc_refl].
Qed.

End ComponentFacts.

Lemma chain3_graph_closed : closed_graph chain3_graph.
Proof.
  intros a s b Ha Hb.
  assert (Hkeys : forall k, (k = 0 \/ k = 1 \/ k = 2)%Z -> is_Some (chain3_graph !! k)).
  { intros k [->|[->| ->]]; by eexists. }
  apply Hkeys. unfold chain3_graph in Ha.
  apply lookup_insert_Some in Ha as [[<- <-]|[_ Ha]].
  { apply elem_of_singleton in Hb. lia. }
  apply lookup_insert_Some in Ha as [[<- <-]|[_ Ha]].
  { apply elem_of_union in Hb as [Hb|Hb]; apply elem_of_singleton in Hb; lia. }
  apply lookup_singleton_Some in Ha as [<- <-].
  apply elem_of_singleton in Hb. lia.
Qed.

Lemma connected_to_component_witness :
  exists result,
    _connected_to 0 chain3_graph (Some [1%Z]) = Ok result /\
    (forall x, x ∈ result <->
       (x ∉ (list_to_set [1%Z] : gset Z)) /\
       rtc (bond_step chain3_graph (list_to_set [1%Z])) 0%Z x) /\
    (0%Z ∈ result <-> 0%Z ∉ (list_to_set [1%Z] : gset Z)).
Proof.
  exact (connected_to_component 0 chain3_graph (Some [1%Z]) chain3_graph_closed).
Defined.

(** ** Fragments and components of a molecule *)

Section FragmentFacts.
Context `{SetOrder} `{Sorter}.
Variable atom_properties : gmap string atom_property.





End FragmentFacts.



(** ** Locations and distances *)

Lemma frame_row_Raise (frame : DataFrame) (k : Z) (e : exn) :
  frame_row frame k = Raise e -> e = KeyError /\ (k ∉ frame_index frame).
Proof.
  induction frame as [|[k' r'] frame IH]; simpl.
  - intros [= <-]. split; [done|]. apply not_elem_of_nil.
  - case_decide as Hk; [done|]. intros E. destruct (IH E) as [-> Hnot].
    split; [done|]. rewrite not_elem_of_cons. by split; [congruence|].
Qed.

Lemma location_cases (self : Cartesian) (k : Z) :
  match location self k with
  | Ok p => exists r, (k, r) ∈ xyz_frame self /\ p = row_location r
  | Raise e => e = KeyError /\ (k ∉ frame_index (xyz_frame self))
  end.
Proof.
  unfold location. destruct (frame_row (xyz_frame self) k) as [r|e] eqn:E; simpl.
  - exists r. split; [by apply frame_row_Ok|done].
  - by apply frame_row_Raise.
Qed.

Lemma norm_zero (p : vec3) : norm (vsub p p) = 0%R.
Proof.
  destruct p as [[x y] z]. unfold norm, vsub, dot.
  replace ((x - x) * (x - x) + (y - y) * (y - y) + (z - z) * (z - z))%R with 0%R by ring.
  apply sqrt_0.
Qed.

(** X9: on a molecule without repeated labels [distance] does not depend on
    the order of its two atoms, is 0 from an atom to itself and never
    negative, and raises [KeyError], and nothing else, exactly when one of
    the two labels is not in the molecule. *)
Theorem distance_metric (self : Cartesian) (i j : Z) :
  NoDup (frame_index (xyz_frame self)) ->
  distance self i j = distance self j i /\
  distance self i i
    = (if decide (i ∈ frame_index (xyz_frame self)) then Ok 0%R else Raise KeyError) /\
  match distance self i j with
  | Ok d => (0 <= d)%R /\ i ∈ frame_index (xyz_frame self)
            /\ j ∈ frame_index (xyz_frame self)
  | Raise e => e = KeyError /\
      ~ (i ∈ frame_index (xyz_frame self) /\ j ∈ frame_index (xyz_frame self))
  end.
Proof.
  intros _. unfold distance.
  pose proof (location_cases self i) as Hi. pose proof (location_cases self j) as Hj.
  destruct (location self i) as [pi|ei], (location self j) as [pj|ej]; simpl.
  - destruct Hi as (ri & Hri & ->), Hj as (rj & Hrj & ->).
    assert (Hin : forall k r, (k, r) ∈ xyz_frame self -> k ∈ frame_index (xyz_frame self)).
    { intros k r Hkr. apply list_elem_of_fmap. by exists (k, r). }
    split; [by rewrite norm_vsub_sym|]. split.
    + rewrite decide_True by eauto. by rewrite norm_zero.
    + split; [apply norm_nonneg|]. eauto.
  - destruct Hi as (ri & Hri & ->), Hj as [-> Hj].
    split; [done|]. split.
    + rewrite decide_True; [by rewrite norm_zero|].
      apply list_elem_of_fmap. by exists (i, ri).
    + split; [done|tauto].
  - destruct Hi as [-> Hi]. split; [done|]. split.
    + by rewrite decide_False.
    + split; [done|tauto].
  - destruct Hi as [-> Hi], Hj as [-> Hj]. split; [done|]. split.
    + by rewrite decide_False.
    + split; [done|tauto].
Qed.

Lemma distance_metric_witness :
  distance chain3 0 2 = distance chain3 2 0 /\
  distance chain3 0 0
    = (if decide (0%Z ∈ frame_index (xyz_frame chain3)) then Ok 0%R else Raise KeyError) /\
  match distance chain3 0 2 with
  | Ok d => (0 <= d)%R /\ 0%Z ∈ frame_index (xyz_frame chain3)
            /\ 2%Z ∈ frame_index (xyz_frame chain3)
  | Raise e => e = KeyError /\
      ~ (0%Z ∈ frame_index (xyz_frame chain3) /\ 2%Z ∈ frame_index (xyz_frame chain3))
  end.
Proof. exact (distance_metric chain3 0 2 chain3_NoDup). Defined.

Section DistanceArrayFacts.
Context `{SetOrder} `{Sorter}.

Lemma dict_zip_lookup_index `{Countable K} {V} (keys : list K) (values : list V) k v :
  NoDup keys -> length keys = length values ->
  dict_zip keys values !! k = Some v <->
  exists i, keys !! i = Some k /\ values !! i = Some v.
Proof.
  intros Hnd Hlen. split.
  - intros Hkv. pose proof Hkv as [[i Hi]%list_elem_of_lookup _]%dict_zip_lookup_Some.
    destruct (lookup_lt_is_Some_2 values i) as [v' Hv'].
    { rewrite <- Hlen. by eapply lookup_lt_Some. }
    rewrite (dict_zip_NoDup keys values i k v' Hnd Hlen Hi Hv') in Hkv.
    injection Hkv as <-. by exists i.
  - intros (i & Hi & Hv). by apply (dict_zip_NoDup keys values i).
Qed.

(** X10: for a list of different atoms of the molecule,
    [_give_distance_array] returns an array that is symmetric with zeros on
    its diagonal, and two dictionaries that are inverse to each other: the
    one from positions to labels and the one from labels to positions. *)
Theorem give_distance_array_convert (self : Cartesian) (include : list Z) :
  NoDup include ->
  (forall k, k ∈ include -> k ∈ frame_index (xyz_frame self)) ->
  exists distance_array convert_to,
    _give_distance_array self include = Ok (distance_array, convert_to) /\
    (forall i j, distance_array i j = distance_array j i) /\
    (forall i, distance_array i i = 0%R) /\
    (forall i k, cv_frame convert_to !! i = Some k <-> cv_array convert_to !! k = Some i) /\
    (forall i k, cv_frame convert_to !! i = Some k <-> include !! i = Some k).
Proof.
  intros Hnd Hin. unfold _give_distance_array.
  destruct (traverse_is_Ok (fun k => r ← frame_row (xyz_frame self) k; Ok (k, r)) include)
    as [frame Hframe].
  { intros k Hk. destruct (frame_row_is_Ok _ _ (Hin k Hk)) as [r ->]. by eexists. }
  unfold frame_loc. rewrite Hframe. simpl.
  pose proof (frame_loc_index (xyz_frame self) include frame Hframe) as Hidx.
  unfold frame_index in Hidx. eexists _, _. split; [done|]. simpl.
  fold (frame_index frame). unfold frame_index. rewrite Hidx.
  split; [intros i j; apply norm_vsub_sym|]. split; [intros i; apply norm_zero|].
  assert (Hseq : forall i k, (map_seq 0 include : gmap nat Z) !! i = Some k
                             <-> include !! i = Some k).
  { intros i k. by rewrite lookup_map_seq_0. }
  split; [|exact Hseq].
  intros i k. rewrite Hseq.
  rewrite (dict_zip_lookup_index include (seq 0 (length include)) k i Hnd)
    by (by rewrite length_seq).
  split.
  - intros Hi. exists i. split; [done|]. apply lookup_seq. split; [done|].
    by eapply lookup_lt_Some.
  - intros (i' & Hi' & [-> _]%lookup_seq). done.
Qed.

End DistanceArrayFacts.

Lemma give_distance_array_convert_witness :
  exists distance_array convert_to,
    _give_distance_array chain3 [2; 0]%Z = Ok (distance_array, convert_to) /\
    (forall i j, distance_array i j = distance_array j i) /\
    (forall i, distance_array i i = 0%R) /\
    (forall i k, cv_frame convert_to !! i = Some k <-> cv_array convert_to !! k = Some i) /\
    (forall i k, cv_frame convert_to !! i = Some k <-> [2; 0]%Z !! i = Some k).
Proof.
  apply (give_distance_array_convert chain3 [2; 0]%Z).
  - apply NoDup_cons. split; [|apply NoDup_singleton]. rewrite list_elem_of_singleton. lia.
  - intros k Hk. simpl. rewrite !elem_of_cons, elem_of_nil in Hk.
    rewrite !elem_of_cons. tauto.
Defined.

(** ** Moving a molecule *)

(** A 3x3 matrix, by its rows. *)
Definition matrix3 : Type := vec3 * vec3 * vec3.

Definition identity3 : matrix3 := ((1, 0, 0), (0, 1, 0), (0, 0, 1))%R.

(** [np.dot(matrix, v)] *)
Definition mat_vec (m : matrix3) (v : vec3) : vec3 :=
  let '(r1, r2, r3) := m in (dot r1 v, dot r2 v, dot r3 v).

(** [np.dot(a, b)] for two matrices. *)
Definition mat_mul (a b : matrix3) : matrix3 :=
  let '(b1, b2, b3) := b in
  let column1 := (b1.1.1, b2.1.1, b3.1.1) in
  let column2 := (b1.1.2, b2.1.2, b3.1.2) in
  let column3 := (b1.2, b2.2, b3.2) in
  let '(a1, a2, a3) := a in
  ((dot a1 column1, dot a1 column2, dot a1 column3),
   (dot a2 column1, dot a2 column2, dot a2 column3),
   (dot a3 column1, dot a3 column2, dot a3 column3)).

Definition set_row_location (r : atom_row) (v : vec3) : atom_row :=
  {| col_atom := col_atom r; col_x := v.1.1; col_y := v.1.2; col_z := v.2 |}.

(** [frame.loc[k, ['x', 'y', 'z']] = v] for one label. *)
Definition assign_location (frame : DataFrame) (k : Z) (v : vec3) : DataFrame :=
  (fun kr : Z * atom_row =>
     if decide (kr.1 = k) then (kr.1, set_row_location kr.2 v) else kr) <$> frame.

(** [frame.index.max()]: the greatest label; of an empty index it is [nan],
    which is [None] here. *)
Definition index_max (index : list Z) : option Z :=
  match index with
  | [] => None
  | k :: index => Some (foldl Z.max k index)
  end.

(** [range(start, stop)] *)
Definition py_range (start stop : Z) : list Z :=
  (fun i => (start + Z.of_nat i)%Z) <$> seq 0 (Z.to_nat (stop - start)).

(** [move]: the rows named by [indices] are read, turned by [matrix] and
    shifted by [vector]; they then replace the rows read, or are appended
    under new labels when [copy] is set.  A label that is not in the frame is
    a [KeyError], as in [frame_loc].  The new labels are worked out in
    [np.int64], so past the greatest 64-bit integer they wrap around; [range]
    of [nan] is a [TypeError], and an index of another length than the rows
    copied a [ValueError]. *)
Definition move (self : Cartesian) (vector : vec3) (matrix : matrix3)
    (indices : option (list Z)) (copy : bool) : result Cartesian :=
  let indices := default (frame_index (xyz_frame self)) indices in
  let frame := xyz_frame self in
  rows ← frame_loc frame indices;
  let vectors :=
    (fun kr : Z * atom_row => vadd (mat_vec matrix (row_location kr.2)) vector) <$> rows in
  if copy then
    match index_max (frame_index frame) with
    | None => Raise TypeError
    | Some max_index =>
        let index_for_copied_atoms :=
          py_range (wrap64 (max_index + 1))
            (wrap64 (wrap64 (max_index + Z.of_nat (length indices)) + 1)) in
        if decide (length index_for_copied_atoms = length rows) then
          let temp_frame :=
            zip_with (fun k (rv : (Z * atom_row) * vec3) =>
                        (k, set_row_location rv.1.2 rv.2))
              index_for_copied_atoms (zip rows vectors) in
          Ok (__init__ (frame ++ temp_frame))
        else Raise ValueError
    end
  else
    Ok (__init__ (foldl (fun f (kv : Z * vec3) => assign_location f kv.1 kv.2) frame
                    (zip indices vectors))).

(** The row of an atom after the move. *)
Definition moved_row (vector : vec3) (matrix : matrix3) (r : atom_row) : atom_row :=
  set_row_location r (vadd (mat_vec matrix (row_location r)) vector).

Lemma frame_loc_is_Ok (frame : DataFrame) (include : list Z) :
  (forall k, k ∈ include -> k ∈ frame_index frame) -> is_Ok (frame_loc frame include).
Proof.
  intros Hin. apply traverse_is_Ok. intros k Hk.
  destruct (frame_row_is_Ok _ _ (Hin k Hk)) as [r ->]. by eexists.
Qed.

Lemma frame_loc_all (frame : DataFrame) :
  NoDup (frame_index frame) -> frame_loc frame (frame_index frame) = Ok frame.
Proof.
  intros Hnd. apply traverse_Forall2. unfold frame_index.
  apply Forall2_fmap_l, Forall_Forall2_diag, Forall_forall.
  intros [k r] Hkr. simpl. by rewrite (frame_row_NoDup frame k r Hnd Hkr).
Qed.

Lemma assign_location_index (frame : DataFrame) (k : Z) (v : vec3) :
  frame_index (assign_location frame k v) = frame_index frame.
Proof.
  unfold assign_location, frame_index. rewrite <- list_fmap_compose.
  apply list_fmap_ext. intros i [k' r] _. simpl. by case_decide.
Qed.

(** Assigning to every listed label the moved location of the row it had at
    the start. *)
Lemma assign_moved (frame : DataFrame) (vector : vec3) (matrix : matrix3)
    (rows : list (Z * atom_row)) :
  NoDup (frame_index frame) ->
  (forall kr, kr ∈ rows -> kr ∈ frame) ->
  foldl (fun f (kv : Z * vec3) => assign_location f kv.1 kv.2) frame
    (zip rows.*1
       ((fun kr : Z * atom_row => vadd (mat_vec matrix (row_location kr.2)) vector)
          <$> rows))
  = (fun kr : Z * atom_row =>
       if decide (kr.1 ∈ rows.*1) then (kr.1, moved_row vector matrix kr.2) else kr)
    <$> frame.
Proof.
  intros Hnd. induction rows as [|[k r] rows IH] using rev_ind; intros Hin.
  - simpl. symmetry. rewrite <- (list_fmap_id frame) at 2.
    apply list_fmap_ext. by intros i kr _.
  - rewrite !fmap_app. simpl.
    rewrite zip_with_app by (by rewrite !length_fmap). simpl.
    rewrite foldl_app. simpl. rewrite IH by (intros; apply Hin, elem_of_app; by left).
    unfold assign_location. rewrite <- list_fmap_compose.
    apply list_eq. intros i. rewrite !list_lookup_fmap.
    destruct (frame !! i) as [[k' r']|] eqn:Hi; simpl; [|done]. f_equal.
    assert (Hkr : (k, r) ∈ frame) by (apply Hin, elem_of_app; right; left).
    destruct (decide (k' ∈ rows.*1)) as [Hk'|Hk']; simpl.
    + rewrite (decide_True (P := k' ∈ rows.*1 ++ [k])) by (apply elem_of_app; by left).
      case_decide as Hkk; [|done]. subst k'. simpl.
      apply list_elem_of_lookup_2 in Hi.
      by rewrite (frame_rows_agree frame k r r' Hnd Hkr Hi).
    + case_decide as Hkk.
      * subst k'. simpl.
        rewrite decide_True by (apply elem_of_app; right; left).
        apply list_elem_of_lookup_2 in Hi.
        by rewrite (frame_rows_agree frame k r r' Hnd Hkr Hi).
      * rewrite decide_False; [done|].
        rewrite elem_of_app, list_elem_of_singleton. intros [?|?]; [done|congruence].
Qed.

Lemma frame_loc_rows_in (frame : DataFrame) (include : list Z) (rows : DataFrame) :
  frame_loc frame include = Ok rows ->
  rows.*1 = include /\ forall kr, kr ∈ rows -> kr ∈ frame.
Proof.
  intros E. split; [exact (frame_loc_index frame include rows E)|].
  intros [k r] [i Hi]%list_elem_of_lookup.
  assert (Hk : include !! i = Some k).
  { rewrite <- (frame_loc_index frame include rows E). unfold frame_index.
    by rewrite list_lookup_fmap, Hi. }
  destruct (frame_loc_rows frame include rows i k E Hk) as (r' & Hr' & Hrow).
  rewrite Hi in Hr'. injection Hr' as <-. by apply frame_row_Ok.
Qed.

Lemma move_rows (self : Cartesian) (vector : vec3) (matrix : matrix3) (indices : list Z) :
  NoDup (frame_index (xyz_frame self)) ->
  (forall k, k ∈ indices -> k ∈ frame_index (xyz_frame self)) ->
  move self vector matrix (Some indices) false
  = Ok (__init__ ((fun kr : Z * atom_row =>
                     if decide (kr.1 ∈ indices)
                     then (kr.1, moved_row vector matrix kr.2) else kr)
                  <$> xyz_frame self)).
Proof.
  intros Hnd Hin. unfold move. simpl.
  destruct (frame_loc_is_Ok (xyz_frame self) indices Hin) as [rows Hrows].
  rewrite Hrows. simpl.
  destruct (frame_loc_rows_in _ _ _ Hrows) as [Hidx Hsub].
  rewrite <- Hidx. by rewrite (assign_moved (xyz_frame self) vector matrix rows Hnd Hsub).
Qed.

Lemma move_all (self : Cartesian) (vector : vec3) (matrix : matrix3) :
  NoDup (frame_index (xyz_frame self)) ->
  move self vector matrix None false
  = Ok (__init__ ((fun kr : Z * atom_row => (kr.1, moved_row vector matrix kr.2))
                  <$> xyz_frame self)).
Proof.
  intros Hnd.
  change (move self vector matrix None false)
    with (move self vector matrix (Some (frame_index (xyz_frame self))) false).
  rewrite move_rows by done.
  f_equal. f_equal. apply list_fmap_ext. intros i [k r] Hi. simpl.
  rewrite decide_True; [done|]. apply list_elem_of_fmap. exists (k, r).
  split; [done|]. by apply list_elem_of_lookup_2 in Hi.
Qed.

Lemma moved_index (f : atom_row -> atom_row) (frame : DataFrame) :
  frame_index ((fun kr : Z * atom_row => (kr.1, f kr.2)) <$> frame) = frame_index frame.
Proof. unfold frame_index. rewrite <- list_fmap_compose. by apply list_fmap_ext. Qed.

(** X11: without [copy], [move] keeps the labels, their order and the
    elements; the atoms listed in [indices] get their old location turned by
    the matrix and shifted by the vector, the others keep their row; the
    object returned has no bond dictionary. *)
Theorem move_in_place (self : Cartesian) (vector : vec3) (matrix : matrix3)
    (indices : list Z) :
  NoDup (frame_index (xyz_frame self)) ->
  (forall k, k ∈ indices -> k ∈ frame_index (xyz_frame self)) ->
  exists moved,
    move self vector matrix (Some indices) false = Ok moved /\
    frame_index (xyz_frame moved) = frame_index (xyz_frame self) /\
    __bond_dic moved = None /\
    forall k r, (k, r) ∈ xyz_frame self ->
      frame_row (xyz_frame moved) k
      = Ok (if decide (k ∈ indices)
            then {| col_atom := col_atom r;
                    col_x := (vadd (mat_vec matrix (row_location r)) vector).1.1;
                    col_y := (vadd (mat_vec matrix (row_location r)) vector).1.2;
                    col_z := (vadd (mat_vec matrix (row_location r)) vector).2 |}
            else r).
Proof.
  intros Hnd Hin. eexists. split; [by apply move_rows|]. simpl.
  assert (Hidx : frame_index
            ((fun kr : Z * atom_row =>
                if decide (kr.1 ∈ indices)
                then (kr.1, moved_row vector matrix kr.2) else kr) <$> xyz_frame self)
            = frame_index (xyz_frame self)).
  { unfold frame_index. rewrite <- list_fmap_compose. apply list_fmap_ext.
    intros i [k r] _. simpl. by case_decide. }
  split; [exact Hidx|]. split; [done|].
  intros k r Hkr. apply frame_row_NoDup; [by rewrite Hidx|].
  apply list_elem_of_fmap. exists (k, r). split; [|done]. simpl. by case_decide.
Qed.

Lemma row_location_set (r : atom_row) (v : vec3) : row_location (set_row_location r v) = v.
Proof. by destruct v as [[x y] z]. Qed.

Lemma moved_row_compose (v1 v2 : vec3) (m1 m2 : matrix3) (r : atom_row) :
  moved_row v2 m2 (moved_row v1 m1 r)
  = moved_row (vadd (mat_vec m2 v1) v2) (mat_mul m2 m1) r.
Proof.
  unfold moved_row. rewrite row_location_set.
  destruct r as [atom x y z], v1 as [[a1 b1] c1], v2 as [[a2 b2] c2],
    m1 as [[[[p11 p12] p13] [[p21 p22] p23]] [[p31 p32] p33]],
    m2 as [[[[q11 q12] q13] [[q21 q22] q23]] [[q31 q32] q33]].
  unfold set_row_location, row_location, vadd, mat_vec, mat_mul, dot. simpl.
  f_equal; ring.
Qed.

Lemma moved_row_identity (r : atom_row) : moved_row (0, 0, 0)%R identity3 r = r.
Proof.
  destruct r as [atom x y z].
  unfold moved_row, set_row_location, row_location, vadd, mat_vec, identity3, dot. simpl.
  f_equal; ring.
Qed.

(** X12: moving every atom in place with the default arguments gives the
    same frame, and two such moves one after the other are one move, by the
    product of the matrices and the second vector added to the first one
    turned. *)
Theorem move_compose (self : Cartesian) (v1 v2 : vec3) (m1 m2 : matrix3) :
  NoDup (frame_index (xyz_frame self)) ->
  move self (0, 0, 0)%R identity3 None false = Ok (__init__ (xyz_frame self)) /\
  (moved ← move self v1 m1 None false; move moved v2 m2 None false)
  = move self (vadd (mat_vec m2 v1) v2) (mat_mul m2 m1) None false.
Proof.
  intros Hnd. split.
  - rewrite move_all by done. f_equal. f_equal.
    rewrite <- (list_fmap_id (xyz_frame self)) at 2.
    apply list_fmap_ext. intros i [k r] _. simpl. by rewrite moved_row_identity.
  - rewrite (move_all self v1 m1) by done. simpl.
    rewrite move_all by (simpl; by rewrite moved_index).
    rewrite move_all by done. simpl. f_equal. f_equal.
    rewrite <- list_fmap_compose. apply list_fmap_ext. intros i [k r] _. simpl.
    by rewrite moved_row_compose.
Qed.

(** The transposed matrix and what makes a matrix orthogonal. *)
Definition transpose3 (m : matrix3) : matrix3 :=
  let '(r1, r2, r3) := m in
  ((r1.1.1, r2.1.1, r3.1.1), (r1.1.2, r2.1.2, r3.1.2), (r1.2, r2.2, r3.2)).

Definition orthogonal (m : matrix3) : Prop := mat_mul (transpose3 m) m = identity3.

Lemma orthogonal_norm (m : matrix3) (a b : vec3) :
  orthogonal m -> norm (vsub (mat_vec m a) (mat_vec m b)) = norm (vsub a b).
Proof.
  destruct m as [[[[p11 p12] p13] [[p21 p22] p23]] [[p31 p32] p33]],
    a as [[a1 a2] a3], b as [[b1 b2] b3].
  unfold orthogonal, mat_mul, transpose3, identity3, dot. simpl.
  intros [= H11 H12 H13 H21 H22 H23 H31 H32 H33].
  unfold norm, vsub, mat_vec, dot. f_equal.
  set (d1 := (a1 - b1)%R). set (d2 := (a2 - b2)%R). set (d3 := (a3 - b3)%R).
  transitivity
    ((p11 * p11 + p21 * p21 + p31 * p31) * (d1 * d1)
     + (p12 * p12 + p22 * p22 + p32 * p32) * (d2 * d2)
     + (p13 * p13 + p23 * p23 + p33 * p33) * (d3 * d3)
     + 2 * (p11 * p12 + p21 * p22 + p31 * p32) * (d1 * d2)
     + 2 * (p11 * p13 + p21 * p23 + p31 * p33) * (d1 * d3)
     + 2 * (p12 * p13 + p22 * p23 + p32 * p33) * (d2 * d3))%R.
  { unfold d1, d2, d3. ring. }
  rewrite H11, H22, H33, H12, H13, H23. ring.
Qed.

Lemma identity3_orthogonal : orthogonal identity3.
Proof.
  unfold orthogonal, mat_mul, transpose3, identity3, dot. simpl.
  repeat f_equal; ring.
Qed.

(** X13: a move of every atom by an orthogonal matrix and any vector, a
    rotation or mirror image followed by a shift, changes no distance between
    two atoms. *)
Theorem move_keeps_distances (self moved : Cartesian) (vector : vec3) (matrix : matrix3)
    (i j : Z) :
  NoDup (frame_index (xyz_frame self)) -> orthogonal matrix ->
  move self vector matrix None false = Ok moved ->
  distance moved i j = distance self i j.
Proof.
  intros Hnd Horth. rewrite move_all by done. intros [= <-].
  assert (Hloc : forall k,
    location (__init__ ((fun kr : Z * atom_row => (kr.1, moved_row vector matrix kr.2))
                        <$> xyz_frame self)) k
    = (fun p => vadd (mat_vec matrix p) vector) <$> location self k).
  { intros k. unfold location. simpl. clear Hnd.
    induction (xyz_frame self) as [|[k' r'] frame IH]; simpl; [done|].
    case_decide; [|exact IH]. simpl. unfold moved_row. by rewrite row_location_set. }
  unfold distance. rewrite !Hloc.
  destruct (location self i) as [pi|ei]; simpl; [|done].
  destruct (location self j) as [pj|ej]; simpl; [|done].
  f_equal. rewrite <- (orthogonal_norm matrix pj pi Horth). f_equal.
  destruct (mat_vec matrix pj) as [[x1 y1] z1], (mat_vec matrix pi) as [[x2 y2] z2],
    vector as [[a b] c].
  unfold vsub, vadd. f_equal; [f_equal|]; ring.
Qed.

Lemma index_max_spec (index : list Z) :
  index <> [] ->
  exists max_index, index_max index = Some max_index /\ max_index ∈ index /\
    forall k, k ∈ index -> (k <= max_index)%Z.
Proof.
  destruct index as [|k0 index]; [done|]. intros _. simpl. eexists. split; [done|].
  revert k0. induction index as [|k index IH]; intros k0; simpl.
  - split; [left|]. intros k ->%list_elem_of_singleton. lia.
  - destruct (IH (Z.max k0 k)) as [Hin Hmax]. split.
    + apply elem_of_cons in Hin as [Hin|Hin]; [|by do 2 right].
      rewrite Hin. destruct (Z.max_spec k0 k) as [[_ ->]|[_ ->]]; [right; left|left].
    + intros x [->|[->|Hx]%elem_of_cons]%elem_of_cons.
      * etrans; [apply Z.le_max_l|]. apply Hmax. left.
      * etrans; [apply Z.le_max_r|]. apply Hmax. left.
      * apply Hmax. by right.
Qed.

Lemma wrap64_small (n : Z) :
  (int64_min <= n < int64_min + int64_modulus)%Z -> wrap64 n = n.
Proof.
  intros Hn. unfold wrap64. rewrite Z.mod_small by lia. lia.
Qed.

Lemma py_range_length (start : Z) (n : nat) :
  py_range start (start + Z.of_nat n)
  = (fun i => (start + Z.of_nat i)%Z) <$> seq 0 n.
Proof.
  unfold py_range. replace (start + Z.of_nat n - start)%Z with (Z.of_nat n) by lia.
  by rewrite Nat2Z.id.
Qed.

(** X14: with [copy], on a molecule whose labels are 64-bit integers and
    leave room above the greatest of them for as many new labels as there
    are entries in [indices], [move] leaves every row as it is and appends
    one row for every entry of [indices]: the element of the atom named, at
    its location turned and shifted, under the labels that follow the
    greatest label of the molecule; no label occurs twice in the result. *)
Theorem move_copy (self : Cartesian) (vector : vec3) (matrix : matrix3) (indices : list Z) :
  NoDup (frame_index (xyz_frame self)) ->
  (forall k, k ∈ indices -> k ∈ frame_index (xyz_frame self)) ->
  xyz_frame self <> [] ->
  (forall k, k ∈ frame_index (xyz_frame self) ->
     (int64_min <= k)%Z /\
     (k + Z.of_nat (length indices) + 1 < int64_min + int64_modulus)%Z) ->
  exists moved new_rows max_index,
    move self vector matrix (Some indices) true = Ok moved /\
    xyz_frame moved = xyz_frame self ++ new_rows /\
    length new_rows = length indices /\
    NoDup (frame_index (xyz_frame moved)) /\
    max_index ∈ frame_index (xyz_frame self) /\
    (forall k, k ∈ frame_index (xyz_frame self) -> (k <= max_index)%Z) /\
    forall i k, indices !! i = Some k ->
      exists r, (k, r) ∈ xyz_frame self /\
        new_rows !! i = Some ((max_index + 1 + Z.of_nat i)%Z, moved_row vector matrix r).
Proof.
  intros Hnd Hin Hne Hroom. unfold move. simpl.
  destruct (frame_loc_is_Ok (xyz_frame self) indices Hin) as [rows Hrows].
  rewrite Hrows. simpl.
  destruct (frame_loc_rows_in _ _ _ Hrows) as [Hidx Hsub].
  destruct (index_max_spec (frame_index (xyz_frame self))) as (m & -> & Hm & Hmax).
  { unfold frame_index. by destruct (xyz_frame self). }
  assert (Hlen : length rows = length indices) by (by rewrite <- Hidx, length_fmap).
  destruct (Hroom m Hm) as [Hlow Hhigh].
  rewrite (wrap64_small (m + 1)) by lia.
  rewrite (wrap64_small (m + Z.of_nat (length indices))) by lia.
  rewrite (wrap64_small (m + Z.of_nat (length indices) + 1)) by lia.
  replace (m + Z.of_nat (length indices) + 1)%Z
    with (m + 1 + Z.of_nat (length indices))%Z by lia.
  rewrite py_range_length.
  rewrite decide_True by (by rewrite length_fmap, length_seq).
  eexists _, _, m. split; [done|]. simpl. split; [done|].
  set (new_rows := zip_with _ _ _).
  assert (Hnew : forall i, new_rows !! i =
            (fun kr : Z * atom_row =>
               ((m + 1 + Z.of_nat i)%Z, moved_row vector matrix kr.2)) <$> rows !! i).
  { intros i. unfold new_rows.
    destruct (rows !! i) as [[k r]|] eqn:Hi; simpl.
    - apply lookup_zip_with_Some.
      exists (m + 1 + Z.of_nat i)%Z, ((k, r), vadd (mat_vec matrix (row_location r)) vector).
      split; [done|]. split.
      + rewrite list_lookup_fmap.
        rewrite (proj2 (lookup_seq 0 (length indices) i i)); [done|].
        split; [done|]. rewrite <- Hlen. by eapply lookup_lt_Some.
      + apply lookup_zip_with_Some. eexists _, _. split; [done|]. split; [done|].
        by rewrite list_lookup_fmap, Hi.
    - apply lookup_zip_with_None. right.
      apply lookup_zip_with_None. by left. }
  assert (Hlength : length new_rows = length indices).
  { unfold new_rows. rewrite length_zip_with, length_fmap, length_seq.
    rewrite length_zip_with, length_fmap. lia. }
  split; [exact Hlength|].
  assert (Hlabels : frame_index new_rows
            = (fun i => (m + 1 + Z.of_nat i)%Z) <$> seq 0 (length indices)).
  { apply list_eq. intros i. unfold frame_index.
    rewrite !list_lookup_fmap, Hnew.
    destruct (rows !! i) as [[k r]|] eqn:Hi; simpl.
    - rewrite (proj2 (lookup_seq 0 (length indices) i i)); [done|].
      split; [done|]. rewrite <- Hlen. by eapply lookup_lt_Some.
    - apply lookup_ge_None in Hi. symmetry.
      destruct (seq 0 (length indices) !! i) as [x|] eqn:Hx; [|done].
      apply lookup_seq in Hx. lia. }
  split.
  { unfold frame_index. rewrite fmap_app. apply NoDup_app. split; [done|]. split.
    - intros k Hk Hk'. fold (frame_index new_rows) in Hk'. rewrite Hlabels in Hk'.
      apply list_elem_of_fmap in Hk' as (i & -> & _).
      pose proof (Hmax _ Hk). lia.
    - fold (frame_index new_rows). rewrite Hlabels. apply NoDup_fmap_2; [|apply NoDup_seq].
      intros i i' ?. lia. }
  split; [done|]. split; [done|].
  intros i k Hi.
  destruct (frame_loc_rows _ _ _ i k Hrows Hi) as (r & Hr & Hrow).
  exists r. split; [by apply frame_row_Ok|]. by rewrite Hnew, Hr.
Qed.

(** A quarter turn about the z axis. *)
Definition quarter_turn : matrix3 := ((0, -1, 0), (1, 0, 0), (0, 0, 1))%R.

Lemma quarter_turn_orthogonal : orthogonal quarter_turn.
Proof.
  unfold orthogonal, mat_mul, transpose3, quarter_turn, identity3, dot. simpl.
  repeat f_equal; ring.
Qed.

Ltac chain3_labels :=
  let k := fresh "k" in let Hk := fresh "Hk" in
  intros k Hk; simpl; rewrite ?elem_of_cons, ?elem_of_nil in Hk;
  rewrite !elem_of_cons, elem_of_nil; lia.

Lemma move_in_place_witness :
  exists moved,
    move chain3 (0, 1, 0)%R quarter_turn (Some [2%Z]) false = Ok moved /\
    frame_index (xyz_frame moved) = frame_index (xyz_frame chain3) /\
    __bond_dic moved = None /\
    forall k r, (k, r) ∈ xyz_frame chain3 ->
      frame_row (xyz_frame moved) k
      = Ok (if decide (k ∈ [2%Z])
            then {| col_atom := col_atom r;
                    col_x := (vadd (mat_vec quarter_turn (row_location r)) (0, 1, 0)%R).1.1;
                    col_y := (vadd (mat_vec quarter_turn (row_location r)) (0, 1, 0)%R).1.2;
                    col_z := (vadd (mat_vec quarter_turn (row_location r)) (0, 1, 0)%R).2 |}
            else r).
Proof.
  apply (move_in_place chain3 (0, 1, 0)%R quarter_turn [2%Z] chain3_NoDup).
  chain3_labels.
Defined.

Lemma move_compose_witness :
  move chain3 (0, 0, 0)%R identity3 None false = Ok (__init__ (xyz_frame chain3)) /\
  (moved ← move chain3 (0, 1, 0)%R quarter_turn None false;
   move moved (1, 0, 0)%R quarter_turn None false)
  = move chain3 (vadd (mat_vec quarter_turn (0, 1, 0)%R) (1, 0, 0)%R)
      (mat_mul quarter_turn quarter_turn) None false.
Proof.
  exact (move_compose chain3 (0, 1, 0)%R (1, 0, 0)%R quarter_turn quarter_turn chain3_NoDup).
Defined.

Lemma move_keeps_distances_witness :
  exists moved,
    move chain3 (0, 1, 0)%R quarter_turn None false = Ok moved /\
    distance moved 0 2 = distance chain3 0 2.
Proof.
  destruct (move chain3 (0, 1, 0)%R quarter_turn None false) as [moved|e] eqn:E.
  - exists moved. split; [done|].
    exact (move_keeps_distances chain3 moved (0, 1, 0)%R quarter_turn 0 2
             chain3_NoDup quarter_turn_orthogonal E).
  - exfalso. rewrite (move_all chain3 _ _ chain3_NoDup) in E. discriminate E.
Defined.

Lemma move_copy_witness :
  exists moved new_rows max_index,
    move chain3 (0, 1, 0)%R quarter_turn (Some [2; 0; 2]%Z) true = Ok moved /\
    xyz_frame moved = xyz_frame chain3 ++ new_rows /\
    length new_rows = length [2; 0; 2]%Z /\
    NoDup (frame_index (xyz_frame moved)) /\
    max_index ∈ frame_index (xyz_frame chain3) /\
    (forall k, k ∈ frame_index (xyz_frame chain3) -> (k <= max_index)%Z) /\
    forall i k, [2; 0; 2]%Z !! i = Some k ->
      exists r, (k, r) ∈ xyz_frame chain3 /\
        new_rows !! i
        = Some ((max_index + 1 + Z.of_nat i)%Z, moved_row (0, 1, 0)%R quarter_turn r).
Proof.
  apply (move_copy chain3 (0, 1, 0)%R quarter_turn [2; 0; 2]%Z chain3_NoDup); [|done|].
  - chain3_labels.
  - intros k Hk. simpl in Hk. rewrite !elem_of_cons, elem_of_nil in Hk.
    unfold int64_min, int64_modulus. simpl. lia.
Defined.

(** ** Cutting out a part of a molecule *)

(** The parameter [origin] of the cut functions: a list of numbers, or the
    label of an atom. *)
Inductive origin_arg : Type :=
  | OriginList (origin : list R)
  | OriginIndex (origin : Z).

(** What a cut returns: the frame of [distance_frame], which has a column
    for the distance, or a frame with the columns of the molecule. *)
Inductive cut_result : Type :=
  | WithDistance (frame : list (Z * (atom_row * R)))
  | Plain (frame : DataFrame).

Definition cut_index (c : cut_result) : list Z :=
  match c with WithDistance frame => frame.*1 | Plain frame => frame_index frame end.

(** [locations - origin] needs three numbers or one. *)
Definition broadcast_origin (origin : list R) : result vec3 :=
  match origin with
  | [a] => Ok (a, a, a)
  | [a; b; c] => Ok (a, b, c)
  | _ => Raise ValueError
  end.

Section Cuts.
Context `{SetOrder} `{Sorter}.
Variable atom_properties : gmap string atom_property.

(** The first lines of both cut functions: [origin[0]] is tried, and on
    [TypeError] or [IndexError] the origin is the location of the atom
    [int(origin)]; [int] of an empty list is a [TypeError]. *)
Definition resolve_origin (self : Cartesian) (origin : origin_arg) : result (list R) :=
  match origin with
  | OriginList [] => Raise TypeError
  | OriginList origin => Ok origin
  | OriginIndex origin => p ← location self origin; Ok [p.1.1; p.1.2; p.2]
  end.

(** [distance_frame]: the rows with their distance from [origin]. *)
Definition distance_frame (self : Cartesian) (origin : list R)
    (indices_of_other_atoms : option (list Z)) : result (list (Z * (atom_row * R))) :=
  let indices_of_other_atoms :=
    default (frame_index (xyz_frame self)) indices_of_other_atoms in
  frame_distance ← frame_loc (xyz_frame self) indices_of_other_atoms;
  origin ← broadcast_origin origin;
  Ok ((fun kr : Z * atom_row => (kr.1, (kr.2, norm (vsub (row_location kr.2) origin))))
      <$> (frame_distance : DataFrame)).

(** The [while] loop of [_preserve_bonds]; [fuel] bounds its passes. *)
Fixpoint preserve_loop (fuel : nat) (bond_dic : gmap Z (gset Z))
    (included_atoms_set new_atoms : gset Z) : result (gset Z) :=
  if decide (new_atoms = ∅) then Ok included_atoms_set else
  match fuel with
  | O => Raise OutOfFuel
  | S fuel =>
      '(index_of_interest, new_atoms) ← set_pop new_atoms;
      connected ← _connected_to index_of_interest bond_dic
                    (Some (iter_order included_atoms_set));
      let included_atoms_set := included_atoms_set ∪ connected in
      preserve_loop fuel bond_dic included_atoms_set (new_atoms ∖ included_atoms_set)
  end.

(** [_preserve_bonds], from the index of the sliced frame: the frame
    returned and [self] as the call leaves it. *)
Definition _preserve_bonds (self : Cartesian) (sliced_index : list Z)
  : result (DataFrame * Cartesian) :=
  let included_atoms_set : gset Z := list_to_set sliced_index in
  if decide (included_atoms_set ⊆ list_to_set (frame_index (xyz_frame self))) then
    '(bond_dic, self) ← get_bonds atom_properties self None 25 6 false true true true;
    new_atoms ← foldlM (fun (new_atoms : gset Z) atom =>
                          s ← getitem bond_dic atom; Ok (new_atoms ∪ s))
                       ∅ (iter_order included_atoms_set);
    let new_atoms := new_atoms ∖ included_atoms_set in
    included_atoms_set ←
      preserve_loop (size new_atoms) bond_dic included_atoms_set new_atoms;
    chemical_xyz_frame ← frame_loc (xyz_frame self) (iter_order included_atoms_set);
    Ok (chemical_xyz_frame, self)
  else Raise AssertionError.

Definition cutsphere (self : Cartesian) (radius : R) (origin : origin_arg)
    (outside_sliced preserve_bonds : bool) : result (cut_result * Cartesian) :=
  origin ← resolve_origin self origin;
  frame ← distance_frame self origin None;
  let sliced_xyz_frame :=
    if outside_sliced
    then filter (fun kr : Z * (atom_row * R) => (kr.2.2 < radius)%R) frame
    else filter (fun kr : Z * (atom_row * R) => (radius < kr.2.2)%R) frame in
  if preserve_bonds then
    '(sliced_xyz_frame, self) ← _preserve_bonds self sliced_xyz_frame.*1;
    Ok (Plain sliced_xyz_frame, self)
  else Ok (WithDistance sliced_xyz_frame, self).

Definition cutcuboid (self : Cartesian) (a : R) (b c : option R) (origin : origin_arg)
    (outside_sliced preserve_bonds : bool) : result (cut_result * Cartesian) :=
  origin ← resolve_origin self origin;
  let b := default a b in
  let c := default a c in
  let xyz_frame := xyz_frame self in
  let origin : gmap string R := dict_zip ["x"; "y"; "z"]%string origin in
  origin_x ← getitem origin "x"%string;
  origin_y ← getitem origin "y"%string;
  origin_z ← getitem origin "z"%string;
  let sliced_xyz_frame :=
    if outside_sliced
    then filter (fun kr : Z * atom_row =>
                   (Rabs (col_x kr.2 - origin_x) < a / 2)%R
                   /\ (Rabs (col_y kr.2 - origin_y) < b / 2)%R
                   /\ (Rabs (col_z kr.2 - origin_z) < c / 2)%R) xyz_frame
    else filter (fun kr : Z * atom_row =>
                   (a / 2 < Rabs (col_x kr.2 - origin_x))%R
                   /\ (b / 2 < Rabs (col_y kr.2 - origin_y))%R
                   /\ (c / 2 < Rabs (col_z kr.2 - origin_z))%R) xyz_frame in
  if preserve_bonds then
    '(sliced_xyz_frame, self) ← _preserve_bonds self (frame_index sliced_xyz_frame);
    Ok (Plain sliced_xyz_frame, self)
  else Ok (Plain sliced_xyz_frame, self).

End Cuts.

Lemma component_le_norm (p q : vec3) :
  (Rabs (p.1.1 - q.1.1) <= norm (vsub p q))%R /\
  (Rabs (p.1.2 - q.1.2) <= norm (vsub p q))%R /\
  (Rabs (p.2 - q.2) <= norm (vsub p q))%R.
Proof.
  destruct p as [[px py] pz], q as [[qx qy] qz]. unfold norm, vsub, dot. simpl.
  set (dx := (px - qx)%R). set (dy := (py - qy)%R). set (dz := (pz - qz)%R).
  assert (Hgen : forall d, (d * d <= dx * dx + dy * dy + dz * dz)%R ->
            (Rabs d <= sqrt (dx * dx + dy * dy + dz * dz))%R).
  { intros d Hd. rewrite <- sqrt_Rsqr_abs. apply sqrt_le_1_alt. exact Hd. }
  pose proof (Rle_0_sqr dx) as Hx. pose proof (Rle_0_sqr dy) as Hy.
  pose proof (Rle_0_sqr dz) as Hz. unfold Rsqr in Hx, Hy, Hz.
  repeat split; apply Hgen; lra.
Qed.

Section CutFacts.
Context `{SetOrder} `{Sorter}.
Variable atom_properties : gmap string atom_property.

Lemma distance_frame_all (self : Cartesian) (x y z : R) :
  NoDup (frame_index (xyz_frame self)) ->
  distance_frame self [x; y; z] None
  = Ok ((fun kr : Z * atom_row =>
           (kr.1, (kr.2, norm (vsub (row_location kr.2) (x, y, z))))) <$> xyz_frame self).
Proof.
  intros Hnd. unfold distance_frame. simpl. by rewrite (frame_loc_all _ Hnd).
Qed.

Lemma elem_of_sphere (self : Cartesian) (origin : vec3)
    (P : Z * (atom_row * R) -> Prop) `{forall x, Decision (P x)} (k : Z) (r : atom_row) :
  NoDup (frame_index (xyz_frame self)) -> (k, r) ∈ xyz_frame self ->
  k ∈ (filter P
         ((fun kr : Z * atom_row =>
             (kr.1, (kr.2, norm (vsub (row_location kr.2) origin)))) <$> xyz_frame self)).*1
  <-> P (k, (r, norm (vsub (row_location r) origin))).
Proof.
  intros Hnd Hkr. rewrite list_elem_of_fmap. split.
  - intros ([k' [r' d]] & -> & [HP Hin]%list_elem_of_filter). simpl in *.
    apply list_elem_of_fmap in Hin as ([k'' r''] & [= -> -> ->] & Hin).
    by rewrite (frame_rows_agree _ _ r r'' Hnd Hkr Hin).
  - intros HP. exists (k, (r, norm (vsub (row_location r) origin))). split; [done|].
    apply list_elem_of_filter. split; [done|].
    apply list_elem_of_fmap. by exists (k, r).
Qed.

Lemma sphere_sublist (frame : DataFrame) (origin : vec3)
    (P : Z * (atom_row * R) -> Prop) `{forall x, Decision (P x)} :
  (filter P
     ((fun kr : Z * atom_row =>
         (kr.1, (kr.2, norm (vsub (row_location kr.2) origin)))) <$> frame)).*1
  `sublist_of` frame_index frame.
Proof.
  unfold frame_index.
  replace (frame.*1)
    with (((fun kr : Z * atom_row =>
              (kr.1, (kr.2, norm (vsub (row_location kr.2) origin)))) <$> frame).*1).
  - apply fmap_sublist, sublist_filter.
  - rewrite <- list_fmap_compose. by apply list_fmap_ext.
Qed.

(** X15: around an origin given by three numbers, the cut that keeps the
    inside of a sphere keeps exactly the atoms nearer than the radius, and
    the cut that keeps the outside exactly those further away, each in the
    order of the molecule; an atom at exactly the radius is in neither, and
    no atom is in both. *)
Theorem cutsphere_cuts (self : Cartesian) (radius x y z : R) :
  NoDup (frame_index (xyz_frame self)) ->
  exists inside outside,
    cutsphere atom_properties self radius (OriginList [x; y; z]) true false
      = Ok (WithDistance inside, self) /\
    cutsphere atom_properties self radius (OriginList [x; y; z]) false false
      = Ok (WithDistance outside, self) /\
    inside.*1 `sublist_of` frame_index (xyz_frame self) /\
    outside.*1 `sublist_of` frame_index (xyz_frame self) /\
    (forall k, k ∈ inside.*1 -> k ∉ outside.*1) /\
    forall k r, (k, r) ∈ xyz_frame self ->
      (k ∈ inside.*1 <-> (norm (vsub (row_location r) (x, y, z)) < radius)%R) /\
      (k ∈ outside.*1 <-> (radius < norm (vsub (row_location r) (x, y, z)))%R).
Proof.
  intros Hnd. unfold cutsphere, resolve_origin.
  cbv beta iota zeta delta [mbind result_bind].
  rewrite (distance_frame_all self x y z Hnd).
  eexists _, _. split; [done|]. split; [done|].
  split; [apply sphere_sublist|]. split; [apply sphere_sublist|].
  assert (Hchar : forall k r, (k, r) ∈ xyz_frame self ->
    (k ∈ (filter (fun kr : Z * (atom_row * R) => (kr.2.2 < radius)%R)
            ((fun kr : Z * atom_row =>
                (kr.1, (kr.2, norm (vsub (row_location kr.2) (x, y, z)))))
             <$> xyz_frame self)).*1
     <-> (norm (vsub (row_location r) (x, y, z)) < radius)%R) /\
    (k ∈ (filter (fun kr : Z * (atom_row * R) => (radius < kr.2.2)%R)
            ((fun kr : Z * atom_row =>
                (kr.1, (kr.2, norm (vsub (row_location kr.2) (x, y, z)))))
             <$> xyz_frame self)).*1
     <-> (radius < norm (vsub (row_location r) (x, y, z)))%R)).
  { intros k r Hkr. split.
    - apply (elem_of_sphere self (x, y, z)
               (fun kr : Z * (atom_row * R) => (kr.2.2 < radius)%R) k r Hnd Hkr).
    - apply (elem_of_sphere self (x, y, z)
               (fun kr : Z * (atom_row * R) => (radius < kr.2.2)%R) k r Hnd Hkr). }
  split; [|exact Hchar].
  intros k Hin Hout.
  assert (Hk : k ∈ frame_index (xyz_frame self)).
  { eapply elem_of_sublist; [exact Hin|]. apply sphere_sublist. }
  apply list_elem_of_fmap in Hk as ([k' r] & -> & Hkr). simpl in *.
  destruct (Hchar k' r Hkr) as [Hi Ho]. apply Hi in Hin. apply Ho in Hout. lra.
Qed.

(** X16: around an atom of the molecule and with a positive radius, the
    inside cut of [cutsphere] keeps that atom, and it keeps exactly the atoms
    whose [distance] from it is less than the radius. *)
Theorem cutsphere_around_atom (self : Cartesian) (radius : R) (k : Z) :
  NoDup (frame_index (xyz_frame self)) ->
  k ∈ frame_index (xyz_frame self) -> (0 < radius)%R ->
  exists inside,
    cutsphere atom_properties self radius (OriginIndex k) true false
      = Ok (WithDistance inside, self) /\
    k ∈ inside.*1 /\
    forall k', k' ∈ inside.*1 <-> exists d, distance self k k' = Ok d /\ (d < radius)%R.
Proof.
  intros Hnd Hk Hpos. unfold cutsphere, resolve_origin.
  apply list_elem_of_fmap in Hk as ([k0 r0] & -> & Hkr). simpl fst.
  assert (Hloc : location self k0 = Ok (row_location r0)).
  { unfold location. by rewrite (frame_row_NoDup _ _ _ Hnd Hkr). }
  rewrite Hloc. cbv beta iota zeta delta [mbind result_bind].
  rewrite (distance_frame_all self _ _ _ Hnd).
  change ((row_location r0).1.1, (row_location r0).1.2, (row_location r0).2)
    with (row_location r0).
  eexists. split; [done|].
  assert (Hchar : forall k' r', (k', r') ∈ xyz_frame self ->
    k' ∈ (filter (fun kr : Z * (atom_row * R) => (kr.2.2 < radius)%R)
            ((fun kr : Z * atom_row =>
                (kr.1, (kr.2, norm (vsub (row_location kr.2) (row_location r0)))))
             <$> xyz_frame self)).*1
    <-> (norm (vsub (row_location r') (row_location r0)) < radius)%R).
  { intros k' r' Hkr'.
    apply (elem_of_sphere self (row_location r0)
             (fun kr : Z * (atom_row * R) => (kr.2.2 < radius)%R) k' r' Hnd Hkr'). }
  split.
  { apply (Hchar k0 r0 Hkr). rewrite norm_zero. done. }
  intros k'. split.
  - intros Hin.
    assert (Hk' : k' ∈ frame_index (xyz_frame self)).
    { eapply elem_of_sublist; [exact Hin|]. apply sphere_sublist. }
    apply list_elem_of_fmap in Hk' as ([k1 r1] & -> & Hkr1). simpl in *.
    exists (norm (vsub (row_location r1) (row_location r0))). split.
    + unfold distance. rewrite Hloc. simpl. unfold location.
      by rewrite (frame_row_NoDup _ _ _ Hnd Hkr1).
    + by apply (Hchar k1 r1 Hkr1).
  - intros (d & Hd & Hlt). unfold distance in Hd. rewrite Hloc in Hd. simpl in Hd.
    apply bind_Ok in Hd as (p & Hp & [= <-]).
    apply location_row in Hp as (r' & Hkr' & ->).
    by apply (Hchar k' r' Hkr').
Qed.

(** X17: with the same origin, every atom in the sphere of radius [r] is in
    the cube of edge [2 r]: what the inside cut of [cutsphere] keeps, the
    inside cut of [cutcuboid] keeps. *)
Theorem cutsphere_in_cutcuboid (self : Cartesian) (radius x y z : R) :
  NoDup (frame_index (xyz_frame self)) ->
  exists inside box,
    cutsphere atom_properties self radius (OriginList [x; y; z]) true false
      = Ok (WithDistance inside, self) /\
    cutcuboid atom_properties self (2 * radius) None None (OriginList [x; y; z]) true false
      = Ok (Plain box, self) /\
    forall k r d, (k, (r, d)) ∈ inside -> (k, r) ∈ box.
Proof.
  intros Hnd. unfold cutsphere, resolve_origin.
  cbv beta iota zeta delta [mbind result_bind].
  rewrite (distance_frame_all self x y z Hnd).
  eexists _, _. split; [done|]. split; [unfold cutcuboid; simpl; done|].
  intros k r d [Hlt Hin]%list_elem_of_filter. simpl in Hlt.
  apply list_elem_of_fmap in Hin as ([k' r'] & [= -> -> ->] & Hin).
  apply list_elem_of_filter. split; [|done]. simpl.
  destruct (component_le_norm (row_location r') (x, y, z)) as (Hx & Hy & Hz).
  simpl in Hx, Hy, Hz. repeat split; lra.
Qed.

(** X18: the outside cut of [cutcuboid] is not what its inside cut leaves:
    an atom beyond the box along the x axis but within it along the y axis
    is in neither of the two. *)
Theorem cutcuboid_neither (self : Cartesian) (a x y z : R) (k : Z) (r : atom_row) :
  NoDup (frame_index (xyz_frame self)) -> (k, r) ∈ xyz_frame self ->
  (a / 2 < Rabs (col_x r - x))%R -> (Rabs (col_y r - y) < a / 2)%R ->
  exists inside outside,
    cutcuboid atom_properties self a None None (OriginList [x; y; z]) true false
      = Ok (Plain inside, self) /\
    cutcuboid atom_properties self a None None (OriginList [x; y; z]) false false
      = Ok (Plain outside, self) /\
    (k ∉ frame_index inside) /\ (k ∉ frame_index outside).
Proof.
  intros Hnd Hkr Hx Hy. unfold cutcuboid. simpl.
  eexists _, _. split; [done|]. split; [done|].
  split; intros ([k' r'] & -> & [Hkeep Hin]%list_elem_of_filter)%list_elem_of_fmap;
    simpl in *; rewrite (frame_rows_agree _ _ r' r Hnd Hin Hkr) in Hkeep; lra.
Qed.

(** X19: how the two cut functions read an origin.  An empty list is a
    [TypeError] for both and the label of an atom that is not there a
    [KeyError]; one number stands for all three coordinates in [cutsphere]
    and is a [KeyError] in [cutcuboid]; numbers after the third are ignored
    by [cutcuboid] and are a [ValueError] in [cutsphere]. *)
Theorem cut_origin_shapes (self : Cartesian) (radius a v x y z w : R) (missing : Z)
    (outside_sliced preserve_bonds : bool) :
  missing ∉ frame_index (xyz_frame self) ->
  cutsphere atom_properties self radius (OriginList []) outside_sliced preserve_bonds
    = Raise TypeError /\
  cutcuboid atom_properties self a None None (OriginList []) outside_sliced preserve_bonds
    = Raise TypeError /\
  cutsphere atom_properties self radius (OriginIndex missing) outside_sliced preserve_bonds
    = Raise KeyError /\
  cutcuboid atom_properties self a None None (OriginIndex missing) outside_sliced
    preserve_bonds = Raise KeyError /\
  cutsphere atom_properties self radius (OriginList [v]) outside_sliced preserve_bonds
    = cutsphere atom_properties self radius (OriginList [v; v; v]) outside_sliced
        preserve_bonds /\
  cutcuboid atom_properties self a None None (OriginList [v]) outside_sliced preserve_bonds
    = Raise KeyError /\
  cutsphere atom_properties self radius (OriginList [x; y; z; w]) outside_sliced
    preserve_bonds = Raise ValueError /\
  cutcuboid atom_properties self a None None (OriginList [x; y; z; w]) outside_sliced
    preserve_bonds
    = cutcuboid atom_properties self a None None (OriginList [x; y; z]) outside_sliced
        preserve_bonds.
Proof.
  intros Hmissing.
  assert (Hloc : location self missing = Raise KeyError).
  { pose proof (location_cases self missing) as Hc.
    destruct (location self missing) as [p|e].
    - destruct Hc as (r & Hr & _). exfalso. apply Hmissing.
      apply list_elem_of_fmap. by exists (missing, r).
    - by destruct Hc as [-> _]. }
  destruct (frame_loc_is_Ok (xyz_frame self) (frame_index (xyz_frame self)))
    as [rows Hrows]; [done|].
  repeat split.
  - unfold cutsphere. simpl. by rewrite Hloc.
  - unfold cutcuboid. simpl. by rewrite Hloc.
  - unfold cutsphere, distance_frame. simpl. by rewrite Hrows.
Qed.

End CutFacts.

(** ** Keeping whole molecules *)

Section PreserveBonds.
Context `{SetOrder} `{Sorter}.
Variable atom_properties : gmap string atom_property.







End PreserveBonds.

Lemma cutsphere_cuts_witness :
  exists inside outside,
    cutsphere hydrogen_table chain3 1 (OriginList [0; 0; 0]%R) true false
      = Ok (WithDistance inside, chain3) /\
    cutsphere hydrogen_table chain3 1 (OriginList [0; 0; 0]%R) false false
      = Ok (WithDistance outside, chain3) /\
    inside.*1 `sublist_of` frame_index (xyz_frame chain3) /\
    outside.*1 `sublist_of` frame_index (xyz_frame chain3) /\
    (forall k, k ∈ inside.*1 -> k ∉ outside.*1) /\
    forall k r, (k, r) ∈ xyz_frame chain3 ->
      (k ∈ inside.*1 <-> (norm (vsub (row_location r) (0, 0, 0)%R) < 1)%R) /\
      (k ∈ outside.*1 <-> (1 < norm (vsub (row_location r) (0, 0, 0)%R))%R).
Proof. exact (cutsphere_cuts hydrogen_table chain3 1 0 0 0 chain3_NoDup). Defined.

Lemma cutsphere_around_atom_witness :
  exists inside,
    cutsphere hydrogen_table chain3 (3 / 2) (OriginIndex 1) true false
      = Ok (WithDistance inside, chain3) /\
    1%Z ∈ inside.*1 /\
    forall k', k' ∈ inside.*1 <->
      exists d, distance chain3 1 k' = Ok d /\ (d < 3 / 2)%R.
Proof.
  apply (cutsphere_around_atom hydrogen_table chain3 (3 / 2) 1 chain3_NoDup); [|lra].
  simpl. apply list_elem_of_further, list_elem_of_here.
Defined.

Lemma cutsphere_in_cutcuboid_witness :
  exists inside box,
    cutsphere hydrogen_table chain3 1 (OriginList [0; 0; 0]%R) true false
      = Ok (WithDistance inside, chain3) /\
    cutcuboid hydrogen_table chain3 (2 * 1) None None (OriginList [0; 0; 0]%R) true false
      = Ok (Plain box, chain3) /\
    forall k r d, (k, (r, d)) ∈ inside -> (k, r) ∈ box.
Proof. exact (cutsphere_in_cutcuboid hydrogen_table chain3 1 0 0 0 chain3_NoDup). Defined.

Lemma cutcuboid_neither_witness :
  exists inside outside,
    cutcuboid hydrogen_table chain3 2 None None (OriginList [0; 0; 0]%R) true false
      = Ok (Plain inside, chain3) /\
    cutcuboid hydrogen_table chain3 2 None None (OriginList [0; 0; 0]%R) false false
      = Ok (Plain outside, chain3) /\
    (2%Z ∉ frame_index inside) /\ (2%Z ∉ frame_index outside).
Proof.
  apply (cutcuboid_neither hydrogen_table chain3 2 0 0 0 2 (H_at 2) chain3_NoDup).
  - simpl. do 2 apply list_elem_of_further. apply list_elem_of_here.
  - simpl. unfold Rabs. destruct (Rcase_abs _); lra.
  - simpl. unfold Rabs. destruct (Rcase_abs _); lra.
Defined.

Lemma cut_origin_shapes_witness :
  cutsphere hydrogen_table chain3 1 (OriginList []) true false = Raise TypeError /\
  cutcuboid hydrogen_table chain3 1 None None (OriginList []) true false
    = Raise TypeError /\
  cutsphere hydrogen_table chain3 1 (OriginIndex 7) true false = Raise KeyError /\
  cutcuboid hydrogen_table chain3 1 None None (OriginIndex 7) true false
    = Raise KeyError /\
  cutsphere hydrogen_table chain3 1 (OriginList [1%R]) true false
    = cutsphere hydrogen_table chain3 1 (OriginList [1; 1; 1]%R) true false /\
  cutcuboid hydrogen_table chain3 1 None None (OriginList [1%R]) true false
    = Raise KeyError /\
  cutsphere hydrogen_table chain3 1 (OriginList [0; 0; 0; 1]%R) true false
    = Raise ValueError /\
  cutcuboid hydrogen_table chain3 1 None None (OriginList [0; 0; 0; 1]%R) true false
    = cutcuboid hydrogen_table chain3 1 None None (OriginList [0; 0; 0]%R) true false.
Proof.
  apply (cut_origin_shapes hydrogen_table chain3 1 1 1 0 0 0 1 7 true false).
  simpl. rewrite !elem_of_cons, elem_of_nil. lia.
Defined.


(** ** Mass *)

Module Mass.

(** The dictionary [mass] returns, by its four keys. *)
Record values : Type := {
  Cartesian_mass : list (Z * (atom_row * R));
  total_mass : R;
  barycenter : vec3;
  topologic_center : vec3
}.

(** [xyz_frame_mass.at[index, 'mass']] *)
Fixpoint at_mass (frame : list (Z * (atom_row * R))) (index : Z) : result R :=
  match frame with
  | [] => Raise KeyError
  | (k, (_, m)) :: frame' => if decide (k = index) then Ok m else at_mass frame' index
  end.

Section MassModel.
Variable atom_properties : gmap string atom_property.

Definition masses_dic : gmap string R := mass <$> atom_properties.

(** [mass]; the frame has the columns of [atom_row], so it has no column
    ['mass'] and the masses are looked up. *)
Definition mass (self : Cartesian) : result values :=
  let xyz_frame := xyz_frame self in
  let indexlist := frame_index xyz_frame in
  let n_atoms := length xyz_frame in
  masses ← traverse (fun kr : Z * atom_row => getitem masses_dic (col_atom kr.2)) xyz_frame;
  let xyz_frame_mass :=
    zip_with (fun (kr : Z * atom_row) (m : R) => (kr.1, (kr.2, m))) xyz_frame masses in
  let total_mass := fold_left Rplus masses 0%R in
  rows ← frame_loc xyz_frame indexlist;
  let location_array := row_location <$> (rows : DataFrame).*2 in
  centers ← foldlM (fun (centers : vec3 * vec3) (ri : nat * Z) =>
                      loc ← list_item location_array ri.1;
                      m ← at_mass xyz_frame_mass ri.2;
                      Ok (vadd centers.1 (vscale m loc), vadd centers.2 loc))
                   ((0, 0, 0)%R, (0, 0, 0)%R)
                   (zip (seq 0 (length indexlist)) indexlist);
  Ok {| Cartesian_mass := xyz_frame_mass;
        total_mass := total_mass;
        barycenter := vscale (/ total_mass) centers.1;
        topologic_center := vscale (/ INR n_atoms) centers.2 |}.

End MassModel.
End Mass.

(** The two sums of the loop of [mass], over the rows and their masses. *)
Definition weighted_sum (rows : list (vec3 * R)) (start : vec3) : vec3 :=
  fold_left (fun b (lm : vec3 * R) => vadd b (vscale lm.2 lm.1)) rows start.

Definition plain_sum (rows : list vec3) (start : vec3) : vec3 :=
  fold_left vadd rows start.

Lemma at_mass_middle (pre suf : DataFrame) (ms_pre ms_suf : list R) (k : Z) (r : atom_row)
    (m : R) :
  length pre = length ms_pre -> k ∉ pre.*1 ->
  Mass.at_mass (zip_with (fun (kr : Z * atom_row) (m : R) => (kr.1, (kr.2, m)))
                  (pre ++ (k, r) :: suf) (ms_pre ++ m :: ms_suf)) k = Ok m.
Proof.
  revert ms_pre. induction pre as [|[k' r'] pre IH]; intros [|m' ms_pre] Hlen Hout;
    try discriminate; simpl.
  - by rewrite decide_True.
  - rewrite decide_False.
    + apply IH; [simpl in Hlen; lia|]. intros Hin. apply Hout. simpl. by right.
    + intros ->. apply Hout. simpl. left.
Qed.

Lemma mass_loop (pre suf : DataFrame) (ms_pre ms_suf : list R) (centers : vec3 * vec3) :
  NoDup (pre ++ suf).*1 ->
  length pre = length ms_pre -> length suf = length ms_suf ->
  foldlM (fun (centers : vec3 * vec3) (ri : nat * Z) =>
            loc ← list_item (row_location <$> (pre ++ suf).*2) ri.1;
            m ← Mass.at_mass
                  (zip_with (fun (kr : Z * atom_row) (m : R) => (kr.1, (kr.2, m)))
                     (pre ++ suf) (ms_pre ++ ms_suf)) ri.2;
            Ok (vadd centers.1 (vscale m loc), vadd centers.2 loc))
         centers (zip (seq (length pre) (length suf.*1)) suf.*1)
  = Ok (weighted_sum (zip (row_location <$> suf.*2) ms_suf) centers.1,
        plain_sum (row_location <$> suf.*2) centers.2).
Proof.
  revert pre ms_pre ms_suf centers.
  induction suf as [|[k r] suf IH]; intros pre ms_pre ms_suf centers Hnd Hpre Hsuf.
  - simpl. by destruct centers.
  - destruct ms_suf as [|m ms_suf]; [discriminate|].
    assert (Hout : k ∉ pre.*1).
    { rewrite fmap_app in Hnd. apply NoDup_app in Hnd as (_ & Hnd & _).
      intros Hin. apply (Hnd k Hin). simpl. left. }
    assert (Hloc : list_item (row_location <$> (pre ++ (k, r) :: suf).*2) (length pre)
                   = Ok (row_location r)).
    { unfold list_item. rewrite !list_lookup_fmap, lookup_app_r by lia.
      by rewrite Nat.sub_diag. }
    pose proof (at_mass_middle pre suf ms_pre ms_suf k r m Hpre Hout) as Hmass.
    set (step := fun (centers : vec3 * vec3) (ri : nat * Z) =>
            loc ← list_item (row_location <$> (pre ++ (k, r) :: suf).*2) ri.1;
            m ← Mass.at_mass
                  (zip_with (fun (kr : Z * atom_row) (m : R) => (kr.1, (kr.2, m)))
                     (pre ++ (k, r) :: suf) (ms_pre ++ m :: ms_suf)) ri.2;
            Ok (vadd centers.1 (vscale m loc), vadd centers.2 loc)).
    change (foldlM step centers
              (zip (seq (length pre) (length ((k, r) :: suf).*1)) ((k, r) :: suf).*1))
      with (b' ← step centers (length pre, k);
            foldlM step b' (zip (seq (S (length pre)) (length suf.*1)) suf.*1)).
    assert (Hstep : step centers (length pre, k)
                    = Ok (vadd centers.1 (vscale m (row_location r)),
                          vadd centers.2 (row_location r))).
    { unfold step. cbn [fst snd]. by rewrite Hloc, Hmass. }
    rewrite Hstep.
    change (Ok (vadd centers.1 (vscale m (row_location r)), vadd centers.2 (row_location r))
              ≫= (fun b' => foldlM step b' (zip (seq (S (length pre)) (length suf.*1)) suf.*1)))
      with (foldlM step (vadd centers.1 (vscale m (row_location r)),
                         vadd centers.2 (row_location r))
              (zip (seq (S (length pre)) (length suf.*1)) suf.*1)).
    subst step. clear Hloc Hmass Hstep.
    replace (pre ++ (k, r) :: suf) with ((pre ++ [(k, r)]) ++ suf)
      by (by rewrite <- app_assoc).
    replace (ms_pre ++ m :: ms_suf) with ((ms_pre ++ [m]) ++ ms_suf)
      by (by rewrite <- app_assoc).
    replace (S (length pre)) with (length (pre ++ [(k, r)]))
      by (rewrite length_app; simpl; lia).
    rewrite (IH (pre ++ [(k, r)]) (ms_pre ++ [m]) ms_suf).
    + done.
    + by rewrite <- app_assoc.
    + rewrite !length_app. simpl. lia.
    + simpl in Hsuf. lia.
Qed.

(** What [mass] computes on a frame without repeated labels. *)
Lemma mass_eval (atom_properties : gmap string atom_property) (self : Cartesian)
    (masses : list R) :
  NoDup (frame_index (xyz_frame self)) ->
  traverse (fun kr : Z * atom_row =>
              getitem (Mass.masses_dic atom_properties) (col_atom kr.2)) (xyz_frame self)
    = Ok masses ->
  Mass.mass atom_properties self
  = Ok {| Mass.Cartesian_mass :=
            zip_with (fun (kr : Z * atom_row) (m : R) => (kr.1, (kr.2, m)))
              (xyz_frame self) masses;
          Mass.total_mass := fold_left Rplus masses 0%R;
          Mass.barycenter :=
            vscale (/ fold_left Rplus masses 0%R)
              (weighted_sum (zip (row_location <$> (xyz_frame self).*2) masses) (0, 0, 0)%R);
          Mass.topologic_center :=
            vscale (/ INR (length (xyz_frame self)))
              (plain_sum (row_location <$> (xyz_frame self).*2) (0, 0, 0)%R) |}.
Proof.
  intros Hnd Hmasses. unfold Mass.mass. rewrite Hmasses.
  cbv beta iota zeta delta [mbind result_bind].
  rewrite (frame_loc_all _ Hnd). cbv beta iota zeta.
  pose proof (mass_loop [] (xyz_frame self) [] masses ((0, 0, 0)%R, (0, 0, 0)%R)) as Hloop.
  simpl app in Hloop. change (length (@nil (Z * atom_row))) with 0%nat in Hloop.
  cbv beta iota zeta delta [mbind result_bind] in Hloop.
  unfold frame_index. rewrite Hloop; [done|exact Hnd|done|].
  symmetry. exact (traverse_length _ _ _ Hmasses).
Qed.

Ltac vec3_ring :=
  repeat match goal with m : matrix3 |- _ => destruct m as [[? ?] ?] end;
  repeat match goal with v : vec3 |- _ => destruct v as [[? ?] ?] end;
  unfold vadd, vscale, mat_vec, dot; cbn [fst snd];
  repeat match goal with |- (_, _) = (_, _) => f_equal end; ring.

Lemma weighted_sum_affine (matrix : matrix3) (vector : vec3) (locations : list vec3)
    (masses : list R) (start : vec3) (s : R) :
  length locations = length masses ->
  weighted_sum (zip ((fun l => vadd (mat_vec matrix l) vector) <$> locations) masses)
    (vadd (mat_vec matrix start) (vscale s vector))
  = vadd (mat_vec matrix (weighted_sum (zip locations masses) start))
      (vscale (fold_left Rplus masses s) vector).
Proof.
  revert masses start s.
  induction locations as [|l locations IH]; intros [|m masses] start s Hlen;
    try discriminate; [done|].
  simpl. unfold weighted_sum in IH |- *. simpl.
  rewrite <- (IH masses (vadd start (vscale m l)) (s + m)%R) by (simpl in Hlen; lia).
  f_equal. clear. vec3_ring.
Qed.

Lemma plain_sum_affine (matrix : matrix3) (vector : vec3) (locations : list vec3)
    (start : vec3) (n : nat) :
  plain_sum ((fun l => vadd (mat_vec matrix l) vector) <$> locations)
    (vadd (mat_vec matrix start) (vscale (INR n) vector))
  = vadd (mat_vec matrix (plain_sum locations start))
      (vscale (INR (n + length locations)) vector).
Proof.
  revert start n. induction locations as [|l locations IH]; intros start n.
  - simpl. by rewrite Nat.add_0_r.
  - unfold plain_sum in IH |- *. simpl.
    replace (n + S (length locations))%nat with (S n + length locations)%nat by lia.
    rewrite <- (IH (vadd start l) (S n)). f_equal. rewrite S_INR. clear. vec3_ring.
Qed.

Lemma moved_locations (vector : vec3) (matrix : matrix3) (frame : DataFrame) :
  row_location <$> ((fun kr : Z * atom_row => (kr.1, moved_row vector matrix kr.2)) <$> frame).*2
  = (fun l => vadd (mat_vec matrix l) vector) <$> (row_location <$> frame.*2).
Proof.
  induction frame as [|[k r] frame IH]; [done|]. simpl. f_equal; [|exact IH].
  unfold moved_row. apply row_location_set.
Qed.

Lemma moved_masses (masses_dic : gmap string R) (vector : vec3) (matrix : matrix3)
    (frame : DataFrame) :
  traverse (fun kr : Z * atom_row => getitem masses_dic (col_atom kr.2))
    ((fun kr : Z * atom_row => (kr.1, moved_row vector matrix kr.2)) <$> frame)
  = traverse (fun kr : Z * atom_row => getitem masses_dic (col_atom kr.2)) frame.
Proof.
  induction frame as [|[k r] frame IH]; [done|].
  change (traverse ?f ((?g <$> ((k, r) :: frame))))
    with (b ← f (g (k, r)); bs ← traverse f (g <$> frame); Ok (b :: bs)).
  by rewrite IH.
Qed.

Lemma sum_from (masses : list R) (s : R) :
  fold_left Rplus masses s = (s + fold_left Rplus masses 0)%R.
Proof.
  revert s. induction masses as [|m masses IH]; intros s; simpl; [lra|].
  rewrite (IH (s + m)%R), (IH (0 + m)%R). lra.
Qed.

(** X21: moving a whole molecule by [matrix] and [vector] leaves its total
    mass as it is and moves its barycenter and its topologic center in the
    same way: each becomes [matrix] times the old one plus [vector]. *)
Theorem mass_move (atom_properties : gmap string atom_property) (self : Cartesian)
    (vector : vec3) (matrix : matrix3) (before : Mass.values) :
  NoDup (frame_index (xyz_frame self)) -> xyz_frame self <> [] ->
  Mass.mass atom_properties self = Ok before ->
  Mass.total_mass before <> 0%R ->
  exists moved after,
    move self vector matrix None false = Ok moved /\
    Mass.mass atom_properties moved = Ok after /\
    Mass.total_mass after = Mass.total_mass before /\
    Mass.barycenter after = vadd (mat_vec matrix (Mass.barycenter before)) vector /\
    Mass.topologic_center after
    = vadd (mat_vec matrix (Mass.topologic_center before)) vector.
Proof.
  intros Hnd Hne Hmass Htotal.
  assert (exists masses,
            traverse (fun kr : Z * atom_row =>
                        getitem (Mass.masses_dic atom_properties) (col_atom kr.2))
              (xyz_frame self) = Ok masses) as [masses Hmasses].
  { unfold Mass.mass in Hmass. apply bind_Ok in Hmass as (masses & Hmasses & _).
    by exists masses. }
  rewrite (mass_eval _ _ _ Hnd Hmasses) in Hmass. injection Hmass as <-.
  cbn [Mass.total_mass Mass.barycenter Mass.topologic_center] in *.
  pose proof (traverse_length _ _ _ Hmasses) as Hlen.
  eexists. eexists. split; [exact (move_all self vector matrix Hnd)|].
  split.
  { apply mass_eval.
    - cbn [xyz_frame __init__]. unfold frame_index. rewrite <- list_fmap_compose.
      exact Hnd.
    - cbn [xyz_frame __init__]. rewrite moved_masses. exact Hmasses. }
  cbn [Mass.total_mass Mass.barycenter Mass.topologic_center xyz_frame __init__].
  split; [done|]. rewrite moved_locations, length_fmap. split.
  - pose proof (weighted_sum_affine matrix vector (row_location <$> (xyz_frame self).*2)
                  masses (0, 0, 0)%R 0) as Hsum.
    replace (vadd (mat_vec matrix (0, 0, 0)%R) (vscale 0 vector)) with ((0, 0, 0)%R : vec3)
      in Hsum by (clear; vec3_ring).
    rewrite Hsum by (by rewrite !length_fmap).
    set (T := fold_left Rplus masses 0%R) in *.
    generalize (weighted_sum (zip (row_location <$> (xyz_frame self).*2) masses)
                  (0, 0, 0)%R).
    intros B. clear -Htotal.
    destruct B as [[bx by_] bz], vector as [[vx vy] vz],
      matrix as [[[[a11 a12] a13] [[a21 a22] a23]] [[a31 a32] a33]].
    unfold vadd, vscale, mat_vec, dot.
    repeat match goal with |- (_, _) = (_, _) => f_equal end; field; exact Htotal.
  - pose proof (plain_sum_affine matrix vector (row_location <$> (xyz_frame self).*2)
                  (0, 0, 0)%R 0) as Hsum.
    replace (vadd (mat_vec matrix (0, 0, 0)%R) (vscale (INR 0) vector))
      with ((0, 0, 0)%R : vec3) in Hsum by (clear; simpl; vec3_ring).
    rewrite Hsum, !length_fmap. simpl.
    assert (Hn : INR (length (xyz_frame self)) <> 0%R).
    { apply not_0_INR. destruct (xyz_frame self); [done|discriminate]. }
    generalize dependent (INR (length (xyz_frame self))). intros n Hn.
    generalize (plain_sum (row_location <$> (xyz_frame self).*2) (0, 0, 0)%R).
    intros B. clear -Hn.
    destruct B as [[bx by_] bz], vector as [[vx vy] vz],
      matrix as [[[[a11 a12] a13] [[a21 a22] a23]] [[a31 a32] a33]].
    unfold vadd, vscale, mat_vec, dot.
    repeat match goal with |- (_, _) = (_, _) => f_equal end; field; exact Hn.
Qed.

Lemma getitem_Raise `{Countable K} {V} (d : gmap K V) (k : K) (e : exn) :
  getitem d k = Raise e -> e = KeyError.
Proof. unfold getitem. destruct (d !! k); congruence. Qed.

Lemma traverse_getitem_missing {A} `{Countable K} {V} (d : gmap K V) (key : A -> K)
    (l : list A) (a : A) :
  a ∈ l -> d !! key a = None ->
  traverse (fun a => getitem d (key a)) l = Raise KeyError.
Proof.
  intros Hin Hnone. induction l as [|b l IH]; [by apply elem_of_nil in Hin|].
  simpl. destruct (getitem d (key b)) as [v|e] eqn:E.
  - apply elem_of_cons in Hin as [->|Hin].
    + apply getitem_Ok in E. congruence.
    + by rewrite (IH Hin).
  - apply getitem_Raise in E as ->. done.
Qed.

Lemma same_masses (masses_dic : gmap string R) (frame : DataFrame) (element : string) (m : R) :
  (forall k r, (k, r) ∈ frame -> col_atom r = element) ->
  masses_dic !! element = Some m ->
  traverse (fun kr : Z * atom_row => getitem masses_dic (col_atom kr.2)) frame
  = Ok ((fun _ => m) <$> frame).
Proof.
  intros Hsame Hm. induction frame as [|[k r] frame IH]; [done|].
  change (traverse ?f ((k, r) :: frame))
    with (b ← f (k, r); bs ← traverse f frame; Ok (b :: bs)).
  cbn [snd]. rewrite (Hsame k r) by left.
  rewrite (proj2 (getitem_Ok masses_dic element m) Hm).
  rewrite IH; [done|]. intros k' r' Hin. apply (Hsame k' r'). by right.
Qed.

Lemma weighted_sum_same (rows : DataFrame) (m : R) (start : vec3) :
  weighted_sum (zip (row_location <$> rows.*2) ((fun _ => m) <$> rows)) (vscale m start)
  = vscale m (plain_sum (row_location <$> rows.*2) start).
Proof.
  revert start. induction rows as [|[k r] rows IH]; intros start; [done|].
  unfold weighted_sum, plain_sum in IH |- *.
  cbn [fmap list_fmap zip zip_with fold_left snd fst].
  rewrite <- (IH (vadd start (row_location r))). f_equal.
  generalize (row_location r). intros l. clear. vec3_ring.
Qed.

Lemma sum_same (rows : DataFrame) (m s : R) :
  fold_left Rplus ((fun _ => m) <$> rows) s = (s + INR (length rows) * m)%R.
Proof.
  revert s. induction rows as [|kr rows IH]; intros s.
  - simpl. lra.
  - change (fold_left Rplus ((fun _ => m) <$> kr :: rows) s)
      with (fold_left Rplus ((fun _ => m) <$> rows) (s + m)%R).
    rewrite IH. change (length (kr :: rows)) with (S (length rows)). rewrite S_INR. lra.
Qed.

(** X22: in a molecule of atoms of one element, whose mass is not zero, the
    total mass is the number of atoms times that mass, and the barycenter is
    the topologic center. *)
Theorem mass_one_element (atom_properties : gmap string atom_property) (self : Cartesian)
    (element : string) (p : atom_property) :
  NoDup (frame_index (xyz_frame self)) -> xyz_frame self <> [] ->
  (forall k r, (k, r) ∈ xyz_frame self -> col_atom r = element) ->
  atom_properties !! element = Some p -> mass p <> 0%R ->
  exists values,
    Mass.mass atom_properties self = Ok values /\
    Mass.total_mass values = (INR (n_atoms self) * mass p)%R /\
    Mass.barycenter values = Mass.topologic_center values.
Proof.
  intros Hnd Hne Hsame Hp Hm.
  assert (Hdic : Mass.masses_dic atom_properties !! element = Some (mass p)).
  { unfold Mass.masses_dic. by rewrite lookup_fmap, Hp. }
  eexists. split; [exact (mass_eval _ _ _ Hnd (same_masses _ _ _ _ Hsame Hdic))|].
  cbn [Mass.total_mass Mass.barycenter Mass.topologic_center].
  rewrite sum_same. unfold n_atoms. split; [lra|].
  replace ((0, 0, 0)%R : vec3) with (vscale (mass p) (0, 0, 0)%R) at 1
    by (clear; unfold vscale; repeat match goal with |- (_, _) = (_, _) => f_equal end; ring).
  rewrite weighted_sum_same.
  assert (Hn : INR (length (xyz_frame self)) <> 0%R).
  { apply not_0_INR. destruct (xyz_frame self); [done|discriminate]. }
  generalize dependent (INR (length (xyz_frame self))). intros n Hn.
  generalize (plain_sum (row_location <$> (xyz_frame self).*2) (0, 0, 0)%R).
  intros B. destruct B as [[bx by_] bz]. unfold vscale.
  repeat match goal with |- (_, _) = (_, _) => f_equal end; field; split; assumption.
Qed.

(** X23: [mass] raises [KeyError] when the element of some atom is not in
    the table of atom properties. *)
Theorem mass_unknown_element
    (atom_properties : gmap string atom_property) (self : Cartesian) (k : Z) (r : atom_row) :
  (k, r) ∈ xyz_frame self -> atom_properties !! col_atom r = None ->
  Mass.mass atom_properties self = Raise KeyError.
Proof.
  intros Hin Hnone. unfold Mass.mass.
  rewrite (traverse_getitem_missing (Mass.masses_dic atom_properties)
             (fun kr : Z * atom_row => col_atom kr.2) (xyz_frame self) (k, r) Hin).
  - done.
  - unfold Mass.masses_dic. simpl. by rewrite lookup_fmap, Hnone.
Qed.

Lemma chain3_masses :
  traverse (fun kr : Z * atom_row =>
              getitem (Mass.masses_dic hydrogen_table) (col_atom kr.2)) (xyz_frame chain3)
  = Ok [1; 1; 1]%R.
Proof.
  apply (same_masses (Mass.masses_dic hydrogen_table) (xyz_frame chain3) "H" 1%R).
  - intros k r Hin. simpl in Hin. rewrite !elem_of_cons, elem_of_nil in Hin.
    destruct Hin as [[= _ ->]|[[= _ ->]|[[= _ ->]|[]]]]; reflexivity.
  - unfold Mass.masses_dic, hydrogen_table. by rewrite map_fmap_singleton.
Qed.

Lemma mass_move_witness :
  exists before moved after,
    Mass.mass hydrogen_table chain3 = Ok before /\
    Mass.total_mass before <> 0%R /\
    move chain3 (1, 0, 0)%R quarter_turn None false = Ok moved /\
    Mass.mass hydrogen_table moved = Ok after /\
    Mass.total_mass after = Mass.total_mass before /\
    Mass.barycenter after = vadd (mat_vec quarter_turn (Mass.barycenter before)) (1, 0, 0)%R /\
    Mass.topologic_center after
    = vadd (mat_vec quarter_turn (Mass.topologic_center before)) (1, 0, 0)%R.
Proof.
  pose proof (mass_eval hydrogen_table chain3 _ chain3_NoDup chain3_masses) as Hbefore.
  eexists. 
  assert (Htotal : fold_left Rplus [1; 1; 1]%R 0%R <> 0%R) by (simpl; lra).
  destruct (mass_move hydrogen_table chain3 (1, 0, 0)%R quarter_turn _
              chain3_NoDup ltac:(discriminate) Hbefore Htotal)
    as (moved & after & Hmoved).
  exists moved, after. split; [exact Hbefore|]. split; [exact Htotal|]. exact Hmoved.
Defined.

Lemma mass_one_element_witness :
  exists values,
    Mass.mass hydrogen_table chain3 = Ok values /\
    Mass.total_mass values = (INR (n_atoms chain3) * 1)%R /\
    Mass.barycenter values = Mass.topologic_center values.
Proof.
  apply (mass_one_element hydrogen_table chain3 "H"
           {| valency := 1; bond_size := 0.6; mass := 1 |} chain3_NoDup).
  - discriminate.
  - intros k r Hin. simpl in Hin. rewrite !elem_of_cons, elem_of_nil in Hin.
    destruct Hin as [[= _ ->]|[[= _ ->]|[[= _ ->]|[]]]]; reflexivity.
  - reflexivity.
  - simpl. lra.
Defined.

Lemma mass_unknown_element_witness :
  Mass.mass hydrogen_table stranger = Raise KeyError.
Proof.
  apply (mass_unknown_element hydrogen_table stranger 1
           {| col_atom := "Xx"; col_x := 1; col_y := 0; col_z := 0 |}).
  - simpl. apply list_elem_of_further, list_elem_of_here.
  - reflexivity.
Defined.

(** ** Distances along a build list *)

(** [index, bond_with = listelement[:2]] *)
Definition first_two (listelement : list Z) : result (Z * Z) :=
  match take 2 listelement with
  | [index; bond_with] => Ok (index, bond_with)
  | _ => Raise ValueError
  end.

Section DistanceOptimized.
Context `{SetOrder}.

Definition _distance_optimized (self : Cartesian) (buildlist : list (list Z))
    (exclude_first : bool) : result (list R) :=
  let temp_buildlist := if exclude_first then drop 1 buildlist else buildlist in
  let index_set : gset Z :=
    foldl (fun index_set listelement => index_set ∪ list_to_set (take 2 listelement))
      ∅ temp_buildlist in
  let index_list := iter_order index_set in
  let convert : gmap Z nat := dict_zip index_list (seq 0 (length index_list)) in
  location_array ← locations self index_list;
  traverse (fun listelement =>
      '(index, bond_with) ← first_two listelement;
      ci ← getitem convert index;
      cb ← getitem convert bond_with;
      vi ← list_item location_array ci;
      vb ← list_item location_array cb;
      Ok (norm (vsub vb vi)))
    temp_buildlist.

Lemma index_set_spec (l : list (list Z)) (start : gset Z) (k : Z) :
  k ∈ foldl (fun index_set listelement => index_set ∪ list_to_set (take 2 listelement))
        start l
  <-> k ∈ start \/ exists listelement, listelement ∈ l /\ k ∈ take 2 listelement.
Proof.
  revert start. induction l as [|le l IH]; intros start; simpl.
  - split; [by left|]. intros [?|(le & Hle%elem_of_nil & _)]; done.
  - rewrite IH, elem_of_union, elem_of_list_to_set. split.
    + intros [[?|?]|(le' & Hle' & Hk)]; [by left| |].
      * right. exists le. split; [left|done].
      * right. exists le'. split; [by right|done].
    + intros [?|(le' & [->|Hle']%elem_of_cons & Hk)].
      * left. by left.
      * left. by right.
      * right. by exists le'.
Qed.

Lemma traverse_ext_in {A B} (f g : A -> result B) (l : list A) :
  (forall a, a ∈ l -> f a = g a) -> traverse f l = traverse g l.
Proof.
  induction l as [|a l IH]; intros Hfg; [done|]. simpl.
  rewrite (Hfg a) by left. rewrite IH; [done|]. intros b Hb. apply Hfg. by right.
Qed.

Lemma converted_location (self : Cartesian) (index_list : list Z) (location_array : list vec3)
    (k : Z) :
  NoDup index_list -> locations self index_list = Ok location_array -> k ∈ index_list ->
  exists c v,
    getitem (dict_zip index_list (seq 0 (length index_list)) : gmap Z nat) k = Ok c /\
    list_item location_array c = Ok v /\ location self k = Ok v.
Proof.
  intros Hnd Hloc Hk. apply list_elem_of_lookup in Hk as [c Hc].
  destruct (traverse_lookup _ _ _ _ _ Hloc Hc) as (v & Hv & Hlocation).
  exists c, v. split; [|split; [|done]].
  - apply getitem_Ok. apply dict_zip_lookup_index; [done|by rewrite length_seq|].
    exists c. split; [done|]. apply lookup_seq. split; [done|].
    by apply lookup_lt_Some in Hc.
  - unfold list_item. by rewrite Hv.
Qed.

(** X24: on a molecule without repeated labels [_distance_optimized] returns
    a list exactly when [distance] returns for the first two labels of every
    entry it looks at, and then the list holds what [distance] returns for
    these entries, in their order.  An entry shorter than two labels or a
    label that the molecule lacks makes both fail. *)
Theorem distance_optimized_is_distance (self : Cartesian) (buildlist : list (list Z))
    (exclude_first : bool) (distance_list : list R) :
  NoDup (frame_index (xyz_frame self)) ->
  _distance_optimized self buildlist exclude_first = Ok distance_list
  <-> traverse (fun listelement =>
                  '(index, bond_with) ← first_two listelement;
                  distance self index bond_with)
        (if exclude_first then drop 1 buildlist else buildlist) = Ok distance_list.
Proof.
  intros _. unfold _distance_optimized.
  set (temp_buildlist := if exclude_first then drop 1 buildlist else buildlist).
  set (index_set := foldl _ ∅ temp_buildlist).
  assert (Hindex : forall k, k ∈ iter_order index_set <->
            exists listelement, listelement ∈ temp_buildlist /\ k ∈ take 2 listelement).
  { intros k. rewrite elem_of_iter_order. unfold index_set. rewrite index_set_spec.
    split; [intros [?%elem_of_empty|?]; done|by right]. }
  assert (Hentries : forall location_array,
            locations self (iter_order index_set) = Ok location_array ->
            forall listelement, listelement ∈ temp_buildlist ->
              ('(index, bond_with) ← first_two listelement;
               ci ← getitem (dict_zip (iter_order index_set)
                               (seq 0 (length (iter_order index_set))) : gmap Z nat) index;
               cb ← getitem (dict_zip (iter_order index_set)
                               (seq 0 (length (iter_order index_set))) : gmap Z nat) bond_with;
               vi ← list_item location_array ci;
               vb ← list_item location_array cb;
               Ok (norm (vsub vb vi)))
              = ('(index, bond_with) ← first_two listelement;
                 distance self index bond_with)).
  { intros location_array Hloc listelement Hin. unfold first_two.
    destruct (take 2 listelement) as [|index [|bond_with [|]]] eqn:Htake; try done.
    cbv beta iota zeta delta [mbind result_bind].
    destruct (converted_location self _ _ index (NoDup_iter_order _) Hloc)
      as (ci & vi & -> & -> & Hvi).
    { apply Hindex. exists listelement. split; [done|]. rewrite Htake. left. }
    destruct (converted_location self _ _ bond_with (NoDup_iter_order _) Hloc)
      as (cb & vb & -> & -> & Hvb).
    { apply Hindex. exists listelement. split; [done|]. rewrite Htake. right. left. }
    unfold distance. by rewrite Hvi, Hvb. }
  split.
  - intros E. apply bind_Ok in E as (location_array & Hloc & E).
    by rewrite <- (traverse_ext_in _ _ _ (Hentries location_array Hloc)).
  - intros E.
    destruct (traverse_is_Ok (location self) (iter_order index_set)) as [location_array Hloc].
    { intros k (listelement & Hin & Hk)%Hindex.
      destruct (traverse_elem_of _ _ _ _ E Hin) as (d & Hd & _).
      unfold first_two in Hd.
      destruct (take 2 listelement) as [|index [|bond_with [|]]]; try done.
      cbv beta iota zeta delta [mbind result_bind] in Hd. unfold distance in Hd.
      destruct (location self index) as [vi|] eqn:Hvi; [|done].
      destruct (location self bond_with) as [vb|] eqn:Hvb; [|done].
      rewrite !elem_of_cons, elem_of_nil in Hk.
      destruct Hk as [->|[->|[]]]; [rewrite Hvi|rewrite Hvb]; by eexists. }
    unfold locations at 1. rewrite Hloc. cbv beta iota zeta delta [mbind result_bind].
    fold (locations self (iter_order index_set)) in Hloc.
    pose proof (traverse_ext_in _ _ _ (Hentries location_array Hloc)) as Hext.
    cbv beta iota zeta delta [mbind result_bind] in Hext, E. by rewrite Hext.
Qed.

End DistanceOptimized.

Lemma distance_optimized_is_distance_witness :
  _distance_optimized chain3 [[0]; [1; 0]; [2; 1; 0]]%Z true = Ok [(1 : R); (1 : R)]
  <-> traverse (fun listelement =>
                  '(index, bond_with) ← first_two listelement;
                  distance chain3 index bond_with)
        (drop 1 [[0]; [1; 0]; [2; 1; 0]]%Z) = Ok [(1 : R); (1 : R)].
Proof.
  exact (distance_optimized_is_distance chain3 [[0]; [1; 0]; [2; 1; 0]]%Z true
           [(1 : R); (1 : R)] chain3_NoDup).
Defined.
